(** * cgir: infrared timing-code codec and capture state machine

    A shallow embedding of [cgir/infrared.py] (class [Infrared]) together
    with the properties of its rounding, tolerance, capture, encode and
    decode routines, of [send] and [frames2str], of [check_gpio] of
    [cgir/cli.py] and of [encode] of the standalone script [cgir.py].

    Python integers are [Z]; lists are [list]; the format names are the
    string constants of the module.  Python exceptions and the implicit
    [None] of a function that falls off its end are explicit in the result
    types.  The [float] arithmetic of [_cl] is IEEE-754 binary64, taken from
    the executable specification in the Standard Library. *)

From Stdlib Require Import ZArith List String Ascii Bool Lia.
From Stdlib Require Import Floats.SpecFloat.
From Stdlib Require DecimalString DecimalFacts DecimalPos DecimalN.
Import ListNotations.

Local Open Scope Z_scope.

(** ** Python results *)

Inductive exn := IndexError | ValueError | OverflowError | ZeroDivisionError.

Inductive pyres (A : Type) : Type :=
| Ok (a : A)
| Raise (e : exn).

Arguments Ok {A} a.
Arguments Raise {A} e.

Definition bind {A B : Type} (c : pyres A) (k : A -> pyres B) : pyres B :=
  match c with
  | Ok a => k a
  | Raise e => Raise e
  end.

Declare Scope py_scope.
Delimit Scope py_scope with py.
Notation "x <- c ;; k" := (bind c (fun x => k))
  (at level 61, c at next level, right associativity) : py_scope.
Notation "' p <- c ;; k" := (bind c (fun x => let 'p := x in k))
  (at level 61, p pattern, c at next level, right associativity) : py_scope.
Local Open Scope py_scope.

(** [a and b] with [b] evaluated only when [a] is true. *)
Definition and_ (a b : pyres bool) : pyres bool :=
  x <- a ;; if x then b else Ok false.

(** [l[i]], negative indices counting from the end. *)
Definition getitem {A : Type} (l : list A) (i : Z) : pyres A :=
  let n := Z.of_nat (List.length l) in
  let j := if i <? 0 then i + n else i in
  if (j <? 0) || (n <=? j) then Raise IndexError
  else match nth_error l (Z.to_nat j) with
       | Some a => Ok a
       | None => Raise IndexError
       end.

Definition len {A : Type} (l : list A) : Z := Z.of_nat (List.length l).

(** [a // b] on integers. *)
Definition floordiv (a b : Z) : pyres Z :=
  if b =? 0 then Raise ZeroDivisionError else Ok (a / b).

(** [range(start, stop, step)] for a positive [step]. *)
Fixpoint range_from (n : nat) (start step : Z) : list Z :=
  match n with
  | O => []
  | S n' => start :: range_from n' (start + step) step
  end.

Definition range (start stop step : Z) : list Z :=
  range_from (Z.to_nat ((stop - start + step - 1) / step)) start step.

(** A [for] loop whose body may [continue], [return] or raise; a loop that
    runs out of indices hands its state to the code after it. *)
Inductive ctl (St R : Type) : Type :=
| Continue (s : St)
| Return (r : R).

Arguments Continue {St R} s.
Arguments Return {St R} r.

Fixpoint for_loop {I St R : Type} (body : I -> St -> pyres (ctl St R))
         (after : St -> pyres R) (idx : list I) (s : St) : pyres R :=
  match idx with
  | [] => after s
  | i :: idx' =>
      c <- body i s ;;
      match c with
      | Continue s' => for_loop body after idx' s'
      | Return r => Ok r
      end
  end.

(** ** Binary64 floats *)

Module Float.

Definition prec : Z := 53.
Definition emax : Z := 1024.

Definition float := spec_float.

Definition mul : float -> float -> float := SFmul prec emax.
Definition add : float -> float -> float := SFadd prec emax.
Definition sub : float -> float -> float := SFsub prec emax.
Definition div : float -> float -> float := SFdiv prec emax.

(** Nearest float to an integer (ties to even); an integer beyond the
    largest float does not convert. *)
Definition of_int (z : Z) : pyres float :=
  match binary_normalize prec emax z 0 false with
  | S754_infinity _ => Raise OverflowError
  | f => Ok f
  end.

(** A decimal literal [n / 10^k] denotes the float nearest to it. *)
Definition literal (n : Z) (k : Z) : float :=
  div (binary_normalize prec emax n 0 false)
      (binary_normalize prec emax (10 ^ k) 0 false).

(** Exact order between an integer and a float: the sign of [z - f]. *)
Definition compare_int (z : Z) (f : float) : option comparison :=
  match f with
  | S754_nan => None
  | S754_infinity s => Some (if s then Gt else Lt)
  | S754_zero _ => Some (z ?= 0)
  | S754_finite s m e =>
      let v := if s then Zneg m else Zpos m in
      Some (if 0 <=? e then z ?= v * 2 ^ e
            else z * 2 ^ (- e) ?= v)
  end.

End Float.

(** A number handed to a comparison: an [int] or a [float]. *)
Inductive pynum :=
| PyInt (z : Z)
| PyFloat (f : Float.float).

(** [a < f] and [a > f] for a float [f]. *)
Definition lt_float (a : pynum) (f : Float.float) : bool :=
  match a with
  | PyInt z => match Float.compare_int z f with Some Lt => true | _ => false end
  | PyFloat x => SFltb x f
  end.

Definition gt_float (a : pynum) (f : Float.float) : bool :=
  match a with
  | PyInt z => match Float.compare_int z f with Some Gt => true | _ => false end
  | PyFloat x => SFltb f x
  end.

(** [n * f], [n - f] and [n + f] for an [int] [n] and a [float] [f]. *)
Definition int_mul_float (n : Z) (f : Float.float) : pyres Float.float :=
  x <- Float.of_int n ;; Ok (Float.mul x f).

Definition int_sub_float (n : Z) (f : Float.float) : pyres Float.float :=
  x <- Float.of_int n ;; Ok (Float.sub x f).

Definition int_add_float (n : Z) (f : Float.float) : pyres Float.float :=
  x <- Float.of_int n ;; Ok (Float.add x f).

(** ** Constants *)

Definition FORMAT_UNKNOWN : string := "Unknown".
Definition FORMAT_AEHA : string := "AEHA".
Definition FORMAT_NEC : string := "NEC".
Definition FORMAT_SONY : string := "SONY".

Definition REC_SUCCESS : Z := 0.
Definition REC_NO_DATA : Z := 1.
Definition REC_SHORT : Z := 2.
Definition REC_ERR_PIGPIO : Z := 3.

Definition _T_MAX_GAP : Z := 60000.
Definition _T_AEHA : Z := 425.
Definition _T_NEC : Z := 560.
Definition _T_SONY : Z := 600.
Definition _T_WAIT : Z := 10000.

(** The default [tol=0.35] of [_cl] and the [0.5] of [_T_WAIT * 0.5]. *)
Definition tol_default : Float.float := Float.literal 35 2.
Definition half : Float.float := Float.literal 5 1.

(** ** Timing utilities *)

(** [Infrared._round]: [(n + m // 2) // m * m]. *)
Definition _round (n m : Z) : pyres Z :=
  q <- floordiv (n + m / 2) m ;;
  Ok (q * m).

(** [Infrared._cl]: [length > target * (1 - tol) and length < target * (1 + tol)]. *)
Definition _cl (length : pynum) (target : Z) (tol : Float.float) : pyres bool :=
  b <- and_ (d <- int_sub_float 1 tol ;;
             lo <- int_mul_float target d ;;
             Ok (gt_float length lo))
            (u <- int_add_float 1 tol ;;
             hi <- int_mul_float target u ;;
             Ok (lt_float length hi)) ;;
  if b then Ok true else Ok false.

(** ** Capture *)

(** The fields of [self] that [record] and [_call_back] share, and the
    watchdog setting of the input pin. *)
Record rec_state := mk_rec_state {
  _recording : bool;
  last_tick : Z;
  _code : list Z;
  watchdog : Z
}.

Section Capture.

(** [pigpio.tickDiff], the tick difference of the capture library. *)
Variable tickDiff : Z -> Z -> Z.

(** [Infrared._call_back(gpio, level, tick)]. *)
Definition _call_back (gpio level tick : Z) (s : rec_state) : pyres rec_state :=
  if negb (_recording s) then Ok s
  else if (level =? 0) || (level =? 1) then
    if last_tick s =? 0 then
      Ok (mk_rec_state (_recording s) tick (_code s) 100)
    else
      let length := tickDiff (last_tick s) tick in
      if length >? _T_MAX_GAP then
        Ok (mk_rec_state false (last_tick s) (_code s) (watchdog s))
      else
        length <- (if length <? 1000 then _round length 10
                   else if length <? 2000 then _round length 50
                   else _round length 200) ;;
        Ok (mk_rec_state (_recording s) tick (_code s ++ [length]) (watchdog s))
  else
    Ok (mk_rec_state false (last_tick s) (_code s) (watchdog s)).

(** The callbacks [(gpio, level, tick)] delivered during one
    [time.sleep(0.1)] of [record], in order. *)
Fixpoint deliver (events : list (Z * Z * Z)) (s : rec_state) : pyres rec_state :=
  match events with
  | [] => Ok s
  | (gpio, level, tick) :: events' =>
      s' <- _call_back gpio level tick s ;;
      deliver events' s'
  end.

(** The [while self._recording] loop of [record]; [sleeps] lists what
    each sleep delivers (nothing once the list is used up).  [None] when
    [fuel] iterations do not finish the loop. *)
Fixpoint record_loop (fuel : nat) (timeout_count i : Z) (s : rec_state)
         (sleeps : list (list (Z * Z * Z))) : option (pyres (Z * list Z)) :=
  match fuel with
  | O => None
  | S fuel' =>
      if _recording s then
        match deliver (hd [] sleeps) s with
        | Raise e => Some (Raise e)
        | Ok s =>
            let i := i + 1 in
            if i >=? timeout_count then Some (Ok (REC_NO_DATA, []))
            else record_loop fuel' timeout_count i s (tl sleeps)
        end
      else
        let result := if len (_code s) >? 10 then REC_SUCCESS else REC_SHORT in
        Some (Ok (result, _code s))
  end.

(** [Infrared.record(timeout)]; [connected] is [pigpio.pi().connected]. *)
Definition record (connected : bool) (timeout : Z)
           (sleeps : list (list (Z * Z * Z))) : option (pyres (Z * list Z)) :=
  if negb connected then Some (Ok (REC_ERR_PIGPIO, []))
  else
    let s := mk_rec_state true 0 [] 0 in
    let timeout_count := timeout * 10 in
    record_loop (S (Z.to_nat timeout_count)) timeout_count 0 s sleeps.

End Capture.

(** Modelled from the spec: the tick difference of the capture source, a
    modular difference that tolerates the wrap of the 32-bit microsecond
    timer. *)
Definition wrapping_tick_diff (t1 t2 : Z) : Z :=
  let d := t2 - t1 in
  if d <? 0 then d + 2 ^ 32 else d.

(** ** Encode *)

(** Locals of [encode] that live across frames. *)
Record enc_state := mk_enc_state {
  e_code : list Z;
  e_t_count : Z;
  e_first_frame : bool
}.

(** One pass of a bit loop of [encode]: a zero bit appends [t, t] and adds 2
    to [t_count], a one bit appends [t, t * k] and adds [c]
    ([k = 3], [c = 4] for AEHA and NEC; [k = 2], [c = 3] for SONY). *)
Definition encode_bit (t k c : Z) (s : list Z * Z * Z) : list Z * Z * Z :=
  let '(code, t_count, d) := s in
  let bit := Z.land d 1 in
  let '(code, t_count) :=
    if bit =? 0 then (code ++ [t] ++ [t], t_count + 2)
    else (code ++ [t] ++ [t * k], t_count + c) in
  (code, t_count, Z.shiftr d 1).

(** [for byte in frame: d = byte; for i in range(8): ...]. *)
Definition encode_bytes (t : Z) (frame : list Z) (code : list Z) (t_count : Z)
  : list Z * Z :=
  fold_left (fun '(code, t_count) byte =>
               let '(code, t_count, _) :=
                 Nat.iter 8 (encode_bit t 3 4) (code, t_count, byte) in
               (code, t_count))
            frame (code, t_count).

(** The body of [for frame in frames]. *)
Definition encode_frame (ir_format : string) (t : Z) (frame : list Z)
           (s : enc_state) : pyres (ctl enc_state (list Z)) :=
  let code := e_code s in
  let t_count := e_t_count s in
  code <- (if negb (e_first_frame s) then
             if (ir_format =? FORMAT_AEHA)%string then Ok (code ++ [_T_WAIT])
             else if (ir_format =? FORMAT_NEC)%string then
               w <- _round (108000 - t * t_count) 100 ;; Ok (code ++ [w])
             else if (ir_format =? FORMAT_SONY)%string then
               w <- _round (45000 - t * t_count) 100 ;; Ok (code ++ [w])
             else Ok code
           else Ok code) ;;
  let t_count := 0 in
  let leader :=
    if (ir_format =? FORMAT_AEHA)%string then
      Some (code ++ [t * 8] ++ [t * 4], t_count + 12)
    else if (ir_format =? FORMAT_NEC)%string then
      Some (code ++ [t * 16] ++ [t * 8], t_count + 24)
    else if (ir_format =? FORMAT_SONY)%string then
      Some (code ++ [t * 4], t_count + 4)
    else None in
  match leader with
  | None => Ok (Return code)
  | Some (code, t_count) =>
      '(code, t_count) <-
        (if (ir_format =? FORMAT_AEHA)%string || (ir_format =? FORMAT_NEC)%string then
           Ok (encode_bytes t frame code t_count)
         else if (ir_format =? FORMAT_SONY)%string then
           f0 <- getitem frame 0 ;;
           f1 <- getitem frame 1 ;;
           let d := f0 + Z.shiftl f1 7 in
           let bits := if f1 >=? 256 then 20%nat
                       else if f1 >=? 32 then 15%nat
                       else 12%nat in
           let '(code, t_count, _) :=
             Nat.iter bits (encode_bit t 2 3) (code, t_count, d) in
           Ok (code, t_count)
         else Ok (code, t_count)) ;;
      let code :=
        if (ir_format =? FORMAT_AEHA)%string || (ir_format =? FORMAT_NEC)%string
        then code ++ [t] else code in
      Ok (Continue (mk_enc_state code t_count false))
  end.

(** [Infrared.encode(ir_format, frames)]. *)
Definition encode (ir_format : string) (frames : list (list Z)) : pyres (list Z) :=
  t <- (if (ir_format =? FORMAT_AEHA)%string then Ok _T_AEHA
        else if (ir_format =? FORMAT_NEC)%string then Ok _T_NEC
        else if (ir_format =? FORMAT_SONY)%string then Ok _T_SONY
        else Raise ValueError) ;;
  for_loop (encode_frame ir_format t) (fun s => Ok (e_code s)) frames
           (mk_enc_state [] 0 true).

(** [encode] of the standalone script [cgir.py]: an unknown format and an
    empty frame both give [[]]. *)
Module Standalone.

Definition encode_frame (ir_format : string) (t : Z) (frame : list Z)
           (s : enc_state) : pyres (ctl enc_state (list Z)) :=
  if len frame =? 0 then Ok (Return [])
  else encode_frame ir_format t frame s.

Definition encode (ir_format : string) (frames : list (list Z)) : pyres (list Z) :=
  let loop t :=
    for_loop (encode_frame ir_format t) (fun s => Ok (e_code s)) frames
             (mk_enc_state [] 0 true) in
  if (ir_format =? FORMAT_AEHA)%string then loop _T_AEHA
  else if (ir_format =? FORMAT_NEC)%string then loop _T_NEC
  else if (ir_format =? FORMAT_SONY)%string then loop _T_SONY
  else Ok [].

End Standalone.

(** ** Decode *)

(** What [decode] hands back: a pair [(ir_format, frames)], or [None] when
    control reaches the end of the function body. *)
Inductive pyval :=
| Tuple (ir_format : string) (frames : list (list Z))
| PyNone.

(** Locals of [decode] that live across loop iterations. *)
Record dec_state := mk_dec_state {
  frames : list (list Z);
  byte_list : list Z;
  byte : Z;
  bit_counter : Z;
  end_of_frame : bool
}.

(** [self._cl(code[i], target)]. *)
Definition cl_at (code : list Z) (i target : Z) : pyres bool :=
  x <- getitem code i ;; _cl (PyInt x) target tol_default.

(** [code[i] > _T_WAIT * 0.5]. *)
Definition long_space (code : list Z) (i : Z) : pyres bool :=
  x <- getitem code i ;;
  w <- int_mul_float _T_WAIT half ;;
  Ok (gt_float (PyInt x) w).

Definition unknown : pyval := Tuple FORMAT_UNKNOWN [].

(** A data bit of an AEHA or NEC byte: [bit_counter = (bit_counter + 1) % 8],
    the finished byte appended at the wrap; [byte] is the value with the bit
    already added. *)
Definition push_bit (s : dec_state) (byte : Z) : dec_state :=
  let bit_counter := (bit_counter s + 1) mod 8 in
  if bit_counter =? 0 then
    mk_dec_state (frames s) (byte_list s ++ [byte]) 0 bit_counter (end_of_frame s)
  else
    mk_dec_state (frames s) (byte_list s) byte bit_counter (end_of_frame s).

(** The body of [for i in range(2, len(code), 2)] (AEHA and NEC). *)
Definition decode_pair (code : list Z) (ir_format : string) (t : Z) (i : Z)
           (s : dec_state) : pyres (ctl dec_state pyval) :=
  let next_frame := mk_dec_state (frames s) (byte_list s) (byte s) (bit_counter s) false in
  if end_of_frame s then
    if i =? len code - 1 then Ok (Return unknown)
    else if (ir_format =? FORMAT_AEHA)%string then
      b <- and_ (cl_at code i (_T_AEHA * 8)) (cl_at code (i + 1) (_T_AEHA * 4)) ;;
      if b then Ok (Continue next_frame)
      else
        b <- and_ (cl_at code i (_T_AEHA * 8)) (cl_at code (i + 1) (_T_AEHA * 8)) ;;
        if b then Ok (Continue next_frame)
        else Ok (Return unknown)
    else if (ir_format =? FORMAT_NEC)%string then
      b <- and_ (cl_at code i (_T_NEC * 16)) (cl_at code (i + 1) (_T_NEC * 8)) ;;
      if b then Ok (Continue next_frame)
      else
        b <- and_ (cl_at code i (_T_NEC * 16)) (cl_at code (i + 1) (_T_NEC * 4)) ;;
        if b then Ok (Continue next_frame)
        else Ok (Return unknown)
    else Ok (Continue s)
  else
    if i =? len code - 1 then
      b <- and_ (cl_at code i t) (Ok (bit_counter s =? 0)) ;;
      if b then Ok (Return (Tuple ir_format (frames s ++ [byte_list s])))
      else Ok (Return unknown)
    else
      b <- and_ (cl_at code i t) (long_space code (i + 1)) ;;
      if b then
        Ok (Continue (mk_dec_state (frames s ++ [byte_list s]) [] 0 (bit_counter s) true))
      else
        b <- and_ (cl_at code i t) (cl_at code (i + 1) t) ;;
        if b then Ok (Continue (push_bit s (byte s)))
        else
          b <- and_ (cl_at code i t) (cl_at code (i + 1) (t * 3)) ;;
          if b then Ok (Continue (push_bit s (byte s + Z.shiftl 1 (bit_counter s))))
          else Ok (Return unknown).

(** [byte_list.append(byte & 0x7F); byte_list.append(byte >> 7);
    frames.append(byte_list)]. *)
Definition sony_flush (s : dec_state) : list (list Z) :=
  frames s ++ [(byte_list s ++ [Z.land (byte s) 127]) ++ [Z.shiftr (byte s) 7]].

(** The body of [for i in range(1, len(code), 2)] (SONY). *)
Definition decode_sony (code : list Z) (ir_format : string) (t : Z) (i : Z)
           (s : dec_state) : pyres (ctl dec_state pyval) :=
  b <- and_ (and_ (long_space code i) (cl_at code (i + 1) (t * 4)))
            (Ok (i <=? len code - 3)) ;;
  if b then
    Ok (Continue (mk_dec_state (sony_flush s) [] 0 0 (end_of_frame s)))
  else
    b <- and_ (cl_at code i t) (cl_at code (i + 1) t) ;;
    bit <- (if b then
              Ok (Some (mk_dec_state (frames s) (byte_list s) (byte s)
                                     (bit_counter s + 1) (end_of_frame s)))
            else
              b <- and_ (cl_at code i t) (cl_at code (i + 1) (t * 2)) ;;
              if b then
                Ok (Some (mk_dec_state (frames s) (byte_list s)
                                       (byte s + Z.shiftl 1 (bit_counter s))
                                       (bit_counter s + 1) (end_of_frame s)))
              else Ok None) ;;
    match bit with
    | None => Ok (Return unknown)
    | Some s =>
        if i =? len code - 2 then
          if (bit_counter s =? 12) || (bit_counter s =? 15) || (bit_counter s =? 20)
          then Ok (Return (Tuple ir_format (sony_flush s)))
          else Ok (Return unknown)
        else Ok (Continue s)
    end.

(** The leader test of [decode]: the format and its unit [t], if any. *)
Definition leader (code : list Z) : pyres (option (string * Z)) :=
  b <- and_ (cl_at code 0 (_T_AEHA * 8)) (cl_at code 1 (_T_AEHA * 4)) ;;
  if b then Ok (Some (FORMAT_AEHA, _T_AEHA))
  else
    b <- and_ (cl_at code 0 (_T_NEC * 16)) (cl_at code 1 (_T_NEC * 8)) ;;
    if b then Ok (Some (FORMAT_NEC, _T_NEC))
    else
      b <- and_ (cl_at code 0 (_T_SONY * 4)) (cl_at code 1 _T_SONY) ;;
      if b then Ok (Some (FORMAT_SONY, _T_SONY))
      else Ok None.

(** [Infrared.decode(code)]. *)
Definition decode (code : list Z) : pyres pyval :=
  if (len code <? 10) || (len code / 2 =? 0) then Ok unknown
  else
    l <- leader code ;;
    match l with
    | None => Ok unknown
    | Some (ir_format, t) =>
        let s := mk_dec_state [] [] 0 0 false in
        if (ir_format =? FORMAT_AEHA)%string || (ir_format =? FORMAT_NEC)%string then
          for_loop (decode_pair code ir_format t) (fun _ => Ok PyNone)
                   (range 2 (len code) 2) s
        else if (ir_format =? FORMAT_SONY)%string then
          for_loop (decode_sony code ir_format t) (fun _ => Ok PyNone)
                   (range 1 (len code) 2) s
        else Ok PyNone
    end.

(** The iterations of a [for] loop over [idx] alone: the state they leave, or
    what the body returned. *)
Fixpoint run_to {I St R : Type} (body : I -> St -> pyres (ctl St R))
         (idx : list I) (s : St) : pyres (ctl St R) :=
  match idx with
  | [] => Ok (Continue s)
  | i :: idx' =>
      c <- body i s ;;
      match c with
      | Continue s' => run_to body idx' s'
      | Return r => Ok (Return r)
      end
  end.

(** ** Vocabulary of the statements *)

(** The two bounds [target * (1 - tol)] and [target * (1 + tol)] of [_cl]. *)
Definition lower_bound (target : Z) (tol : Float.float) : pyres Float.float :=
  d <- int_sub_float 1 tol ;; int_mul_float target d.

Definition upper_bound (target : Z) (tol : Float.float) : pyres Float.float :=
  u <- int_add_float 1 tol ;; int_mul_float target u.

(** The open window of 35% around [target] in exact integer arithmetic. *)
Definition within (length target : Z) : bool :=
  (65 * target <? 100 * length) && (100 * length <? 135 * target).

(** The targets [decode] compares against. *)
Definition decode_targets : list Z :=
  [_T_AEHA; _T_AEHA * 3; _T_AEHA * 4; _T_AEHA * 8;
   _T_NEC; _T_NEC * 3; _T_NEC * 4; _T_NEC * 8; _T_NEC * 16;
   _T_SONY; _T_SONY * 2; _T_SONY * 4].

(** The loop of [decode] taken up at the index where [suf] starts, the code
    being [pre ++ suf]. *)
Definition resume (body : list Z -> Z -> dec_state -> pyres (ctl dec_state pyval))
           (pre suf : list Z) (s : dec_state) : pyres pyval :=
  for_loop (body (pre ++ suf)) (fun _ => Ok PyNone)
           (range (len pre) (len (pre ++ suf)) 2) s.

(** The formats that share the byte loop, with their unit. *)
Definition pair_format (ir_format : string) (t : Z) : Prop :=
  (ir_format = FORMAT_AEHA /\ t = _T_AEHA) \/ (ir_format = FORMAT_NEC /\ t = _T_NEC).

(** The space that follows the mark of a data bit: [t * k] for a one. *)
Definition bit_space (t k : Z) (b : bool) : Z := if b then t * k else t.

(** The pairs a bit loop of [encode] emits for the [n] low bits of [d], and
    what they add to [t_count] ([c] for a one). *)
Fixpoint bits_code (t k d : Z) (n : nat) : list Z :=
  match n with
  | O => []
  | S n' => t :: bit_space t k (negb (Z.land d 1 =? 0))
              :: bits_code t k (Z.shiftr d 1) n'
  end.

Fixpoint bits_units (c d : Z) (n : nat) : Z :=
  match n with
  | O => 0
  | S n' => (if Z.land d 1 =? 0 then 2 else c) + bits_units c (Z.shiftr d 1) n'
  end.

(** The data word of a SONY frame and its width. *)
Definition sony_word (frame : list Z) : Z :=
  match frame with
  | f0 :: f1 :: _ => f0 + Z.shiftl f1 7
  | _ => 0
  end.

Definition sony_bits (frame : list Z) : nat :=
  match frame with
  | _ :: f1 :: _ => if f1 >=? 256 then 20 else if f1 >=? 32 then 15 else 12
  | _ => 12
  end.

(** Leader, data and stop of one frame, and the [t_count] it leaves. *)
Definition leader_code (ir_format : string) (t : Z) : list Z :=
  if (ir_format =? FORMAT_AEHA)%string then [t * 8; t * 4]
  else if (ir_format =? FORMAT_NEC)%string then [t * 16; t * 8]
  else [t * 4].

Definition data_code (ir_format : string) (t : Z) (frame : list Z) : list Z :=
  if (ir_format =? FORMAT_SONY)%string
  then bits_code t 2 (sony_word frame) (sony_bits frame)
  else flat_map (fun b => bits_code t 3 b 8) frame.

Definition stop_code (ir_format : string) (t : Z) : list Z :=
  if (ir_format =? FORMAT_SONY)%string then [] else [t].

Definition frame_units (ir_format : string) (frame : list Z) : Z :=
  if (ir_format =? FORMAT_AEHA)%string
  then 12 + fold_right (fun b u => bits_units 4 b 8 + u) 0 frame
  else if (ir_format =? FORMAT_NEC)%string
  then 24 + fold_right (fun b u => bits_units 4 b 8 + u) 0 frame
  else 4 + bits_units 3 (sony_word frame) (sony_bits frame).

(** The space between two frames, from the [t_count] of the first. *)
Definition wait_space (ir_format : string) (t t_count : Z) : Z :=
  if (ir_format =? FORMAT_AEHA)%string then _T_WAIT
  else if (ir_format =? FORMAT_NEC)%string
  then (108000 - t * t_count + 100 / 2) / 100 * 100
  else (45000 - t * t_count + 100 / 2) / 100 * 100.

(** The code of a sequence of frames; [prev] is the [t_count] of the frame
    before, if there is one. *)
Fixpoint frames_code (ir_format : string) (t : Z) (prev : option Z)
         (frames : list (list Z)) : list Z :=
  match frames with
  | [] => []
  | f :: fs =>
      match prev with
      | None => []
      | Some u => [wait_space ir_format t u]
      end ++ leader_code ir_format t ++ data_code ir_format t f
          ++ stop_code ir_format t
          ++ frames_code ir_format t (Some (frame_units ir_format f)) fs
  end.

(** The unit [t] of a format. *)
Definition unit_of (ir_format : string) : Z :=
  if (ir_format =? FORMAT_AEHA)%string then _T_AEHA
  else if (ir_format =? FORMAT_NEC)%string then _T_NEC
  else _T_SONY.

Definition supported (ir_format : string) : Prop :=
  ir_format = FORMAT_AEHA \/ ir_format = FORMAT_NEC \/ ir_format = FORMAT_SONY.

(** A SONY frame has two elements. *)
Definition two_elements (frame : list Z) : Prop :=
  exists f0 f1, frame = [f0; f1].

(** The state of [decode] after [n] more bits of value [v], none of them
    completing a byte. *)
Definition add_bits (s : dec_state) (v n : Z) : dec_state :=
  mk_dec_state (frames s) (byte_list s) (byte s + v * 2 ^ bit_counter s)
               (bit_counter s + n) (end_of_frame s).

(** The loop bodies of [decode] as functions of the code. *)
Definition pair_body (ir_format : string) (t : Z) (code : list Z) :=
  decode_pair code ir_format t.

Definition sony_body (code : list Z) := decode_sony code FORMAT_SONY _T_SONY.

(** Every frame that has a successor is followed by a space [decode] takes
    for a frame gap. *)
Fixpoint gaps_long (ir_format : string) (t : Z) (fs : list (list Z)) : Prop :=
  match fs with
  | [] => True
  | f :: fs' =>
      (fs' <> [] -> 5000 < wait_space ir_format t (frame_units ir_format f))
      /\ gaps_long ir_format t fs'
  end.

(** Frames of bytes (AEHA, NEC) and SONY frames [[low7, high]], the high
    part within the 13 bits a 20-bit word leaves for it. *)
Definition byte_frame (frame : list Z) : Prop :=
  frame <> [] /\ Forall (fun b => 0 <= b < 256) frame.

Definition sony_frame (frame : list Z) : Prop :=
  exists f0 f1, frame = [f0; f1] /\ 0 <= f0 < 128 /\ 0 <= f1 < 8192.

(** Every NEC frame that has a successor leaves room for a gap of more
    than [_T_WAIT * 0.5] in the 108 ms frame period: its [t_count] is at
    most 183 units. *)
Fixpoint nec_frames_fit (fs : list (list Z)) : Prop :=
  match fs with
  | [] => True
  | f :: fs' =>
      (fs' <> [] -> frame_units FORMAT_NEC f <= 183) /\ nec_frames_fit fs'
  end.

(** The frames the round trip holds for. *)
Definition valid_frames (ir_format : string) (fs : list (list Z)) : Prop :=
  fs <> [] /\
  (if (ir_format =? FORMAT_SONY)%string then Forall sony_frame fs
   else Forall byte_frame fs) /\
  (ir_format = FORMAT_NEC -> nec_frames_fit fs).

(** Structural validity without the two bounds: any byte frames, and SONY
    frames [[low7, high]] with only [low7] bounded. *)
Definition loose_sony_frame (frame : list Z) : Prop :=
  exists f0 f1, frame = [f0; f1] /\ 0 <= f0 < 128 /\ 0 <= f1.

Definition loosely_valid_frames (ir_format : string) (fs : list (list Z)) : Prop :=
  fs <> [] /\
  (if (ir_format =? FORMAT_SONY)%string then Forall loose_sony_frame fs
   else Forall byte_frame fs).

(** [decode(encode(ir_format, frames))]. *)
Definition round_trip (ir_format : string) (fs : list (list Z)) : pyres pyval :=
  code <- encode ir_format fs ;; decode code.

(** The state [decode] starts its loops in. *)
Definition dec_init : dec_state := mk_dec_state [] [] 0 0 false.

(** The SONY loop reads the pair at [len(code) - 2] in the state [s] that the
    pairs before it have left. *)
Definition sony_final_pair (code : list Z) (s : dec_state) : Prop :=
  exists idx1 idx2,
    range 1 (len code) 2 = idx1 ++ (len code - 2) :: idx2 /\
    run_to (decode_sony code FORMAT_SONY _T_SONY) idx1 dec_init = Ok (Continue s).

Definition sony_count (n : Z) : Prop := n = 12 \/ n = 15 \/ n = 20.

(** The first two elements match the leader [(m, sp)] within the default
    tolerance. *)
Definition matches_leader (c0 c1 m sp : Z) : Prop :=
  _cl (PyInt c0) m tol_default = Ok true /\ _cl (PyInt c1) sp tol_default = Ok true.

(** What [record] can return once connected. *)
Definition capture_result (r : Z * list Z) : Prop :=
  r = (REC_NO_DATA, []) \/
  (exists code, r = (REC_SUCCESS, code) /\ 10 < len code) \/
  (exists code, r = (REC_SHORT, code) /\ len code <= 10).

(** A pair [decode] is meant to return: a supported format with its frames,
    or [(Unknown, [])]. *)
Definition decoded_pair (r : pyval) : Prop :=
  r = unknown \/
  exists ir_format fs, r = Tuple ir_format fs /\ supported ir_format.

(** ** Send *)

Inductive pi_mode := INPUT | OUTPUT.

(** [pigpio.pulse(gpio_on, gpio_off, delay)]. *)
Record pulse := mk_pulse {
  gpio_on : Z;
  gpio_off : Z;
  delay : Z
}.

(** The calls [send] makes on its [pigpio.pi] object. *)
Inductive pi_call :=
| set_mode (gpio : Z) (mode : pi_mode)
| wave_clear
| wave_add_generic (pulses : list pulse)
| wave_create
| wave_chain (data : list Z)
| stop.

(** [a << b]; a negative shift count raises. *)
Definition lshift (a b : Z) : pyres Z :=
  if b <? 0 then Raise ValueError else Ok (Z.shiftl a b).

(** The dict [wids], keyed by [(mark_length, space_length)], in insertion
    order. *)
Fixpoint dict_get (d : list (Z * Z * Z)) (k : Z * Z) : option Z :=
  match d with
  | [] => None
  | (m, sp, wid) :: d' =>
      if (m =? fst k) && (sp =? snd k) then Some wid else dict_get d' k
  end.

(** Locals of [send] that live across loop iterations, with the calls made
    so far. *)
Record send_state := mk_send_state {
  wids : list (Z * Z * Z);
  send_wids : list Z;
  calls : list pi_call
}.

Section Send.

(** The id that [pi.wave_create()] returns for the [n]-th wave created
    since [pi.wave_clear()], counting from 0. *)
Variable wave_id : nat -> Z.

(** [for j in range(n)]: one 38 kHz cycle per pass. *)
Definition carrier (gpio_send n : Z) : pyres (list pulse) :=
  for_loop (fun (j : Z) (pulses : list pulse) =>
              on <- lshift 1 gpio_send ;;
              let pulses := pulses ++ [mk_pulse on 0 8] in
              off <- lshift 1 gpio_send ;;
              let pulses := pulses ++ [mk_pulse 0 off 18] in
              Ok (Continue pulses))
           (fun pulses => Ok pulses) (range 0 n 1) [].

(** The body of [for i in range(len(code))].  The id appended to
    [send_wids] is read back from [wids], where a new wave has just been
    stored. *)
Definition send_mark (gpio_send : Z) (code : list Z) (i : Z) (s : send_state)
  : pyres (ctl send_state send_state) :=
  if negb (i mod 2 =? 0) then Ok (Continue s)
  else
    '(mark_length, space_length) <-
      (if i =? len code - 1 then
         m <- getitem code i ;; Ok (m, 0)
       else
         m <- getitem code i ;; sp <- getitem code (i + 1) ;; Ok (m, sp)) ;;
    '(s, wid) <-
      match dict_get (wids s) (mark_length, space_length) with
      | None =>
          pulses <- carrier gpio_send (mark_length / 26) ;;
          let pulses :=
            if space_length >? 0 then pulses ++ [mk_pulse 0 0 space_length]
            else pulses in
          let wid := wave_id (List.length (wids s)) in
          Ok (mk_send_state (wids s ++ [(mark_length, space_length, wid)])
                            (send_wids s)
                            (calls s ++ [wave_add_generic pulses; wave_create]),
              wid)
      | Some wid => Ok (s, wid)
      end ;;
    Ok (Continue (mk_send_state (wids s) (send_wids s ++ [wid]) (calls s))).

(** [Infrared.send(code)]: the result and the calls made; [connected] is
    [pigpio.pi().connected]. *)
Definition send (connected : bool) (gpio_send : Z) (code : list Z)
  : pyres (bool * list pi_call) :=
  if negb connected then Ok (false, [])
  else
    let s := mk_send_state [] [] [set_mode gpio_send OUTPUT; wave_clear] in
    s <- for_loop (send_mark gpio_send code) (fun s => Ok s)
                  (range 0 (len code) 1) s ;;
    Ok (true, calls s ++ [wave_chain (send_wids s); wave_clear; stop]).

End Send.

(** ** Printing frames *)

Definition newline : string := String "010" EmptyString.

(** [str(n)] for an integer. *)
Definition str (n : Z) : string :=
  DecimalString.NilZero.string_of_int (Z.to_int n).

(** The digits of a number in base 16, capitals for ten to fifteen. *)
Fixpoint hex_upper (u : Hexadecimal.uint) : string :=
  match u with
  | Hexadecimal.Nil => EmptyString
  | Hexadecimal.D0 u => String "0" (hex_upper u)
  | Hexadecimal.D1 u => String "1" (hex_upper u)
  | Hexadecimal.D2 u => String "2" (hex_upper u)
  | Hexadecimal.D3 u => String "3" (hex_upper u)
  | Hexadecimal.D4 u => String "4" (hex_upper u)
  | Hexadecimal.D5 u => String "5" (hex_upper u)
  | Hexadecimal.D6 u => String "6" (hex_upper u)
  | Hexadecimal.D7 u => String "7" (hex_upper u)
  | Hexadecimal.D8 u => String "8" (hex_upper u)
  | Hexadecimal.D9 u => String "9" (hex_upper u)
  | Hexadecimal.Da u => String "A" (hex_upper u)
  | Hexadecimal.Db u => String "B" (hex_upper u)
  | Hexadecimal.Dc u => String "C" (hex_upper u)
  | Hexadecimal.Dd u => String "D" (hex_upper u)
  | Hexadecimal.De u => String "E" (hex_upper u)
  | Hexadecimal.Df u => String "F" (hex_upper u)
  end.

(** ['{:02X}'.format(v)]: capital hexadecimal digits, a minus sign for a
    negative [v], zeros after the sign up to a width of 2. *)
Definition format_02X (v : Z) : string :=
  let digits := hex_upper (N.to_hex_uint (Z.to_N (Z.abs v))) in
  if v <? 0 then String "-" digits
  else if (Z.of_nat (String.length digits) <? 2) then String "0" digits
  else digits.

(** The body of [for j in range(len(frames[i]))]. *)
Definition print_byte (frame : list Z) (j : Z) (s : string)
  : pyres (ctl string string) :=
  v <- getitem frame j ;;
  let s := (s ++ "0x" ++ format_02X v)%string in
  let s := if negb (j =? len frame - 1) then (s ++ ", ")%string else s in
  Ok (Continue s).

(** The body of [for i in range(len(frames))]; the state is [s] and
    [first_frame]. *)
Definition print_frame (frames : list (list Z)) (i : Z) (st : string * bool)
  : pyres (ctl (string * bool) (string * bool)) :=
  let '(s, first_frame) := st in
  let s := if negb first_frame then (s ++ newline)%string else s in
  let s := (s ++ "Frame#" ++ str (i + 1) ++ " ")%string in
  frame <- getitem frames i ;;
  s <- for_loop (print_byte frame) (fun s => Ok s) (range 0 (len frame) 1) s ;;
  let s := if len frame =? 0 then (s ++ "Repeat" ++ newline)%string else s in
  Ok (Continue (s, false)).

(** [Infrared.frames2str(ir_format, frames)]. *)
Definition frames2str (ir_format : string) (frames : list (list Z)) : pyres string :=
  let header :=
    if (ir_format =? FORMAT_AEHA)%string then Some ("Format AEHA" ++ newline)%string
    else if (ir_format =? FORMAT_NEC)%string then Some ("Format NEC" ++ newline)%string
    else if (ir_format =? FORMAT_SONY)%string then Some ("Format SONY" ++ newline)%string
    else None in
  match header with
  | None => Ok ("Format Unknown" ++ newline)%string
  | Some s =>
      st <- for_loop (print_frame frames) (fun st => Ok st)
                     (range 0 (len frames) 1) (s, true) ;;
      Ok (fst st)
  end.

(** ** Command line: the GPIO number *)

(** [s.isdecimal()] for a string of characters below 256, none of which is
    a decimal digit outside ['0'..'9']. *)
Definition is_digit (c : ascii) : bool :=
  (48 <=? nat_of_ascii c)%nat && (nat_of_ascii c <=? 57)%nat.

Definition isdecimal (s : string) : bool :=
  negb (String.length s =? 0)%nat && forallb is_digit (list_ascii_of_string s).

(** [int(s)] for the strings [isdecimal] accepts, no longer than the
    interpreter's limit on integer strings. *)
Definition int_ (s : string) : pyres Z :=
  match DecimalString.NilEmpty.uint_of_string s with
  | Some u => if (String.length s =? 0)%nat then Raise ValueError else Ok (Z.of_uint u)
  | None => Raise ValueError
  end.

(** [check_gpio(gpio_str)] of [cli.py]. *)
Definition check_gpio (gpio_str : string) : pyres Z :=
  if isdecimal gpio_str then
    gpio <- int_ gpio_str ;;
    if (gpio >=? 0) && (gpio <=? 27) then Ok gpio else Ok (-1)
  else Ok (-1).

(** ** Vocabulary of the further statements *)

(** The length [_call_back] stores for a measured [length]: rounded to 10
    below 1000, to 50 below 2000, to 200 from there on. *)
Definition quantise (length : Z) : Z :=
  if length <? 1000 then (length + 10 / 2) / 10 * 10
  else if length <? 2000 then (length + 50 / 2) / 50 * 50
  else (length + 200 / 2) / 200 * 200.

(** The differences between consecutive ticks, from [t0] on. *)
Fixpoint intervals (tickDiff : Z -> Z -> Z) (t0 : Z) (ticks : list Z) : list Z :=
  match ticks with
  | [] => []
  | t1 :: ticks' => tickDiff t0 t1 :: intervals tickDiff t1 ticks'
  end.

(** Callbacks for edges: level 0 or 1 on the pin [gpio] at the given
    ticks. *)
Definition edge_events (gpio : Z) (edges : list (Z * Z)) : list (Z * Z * Z) :=
  map (fun e => (gpio, fst e, snd e)) edges.

Definition is_edge (e : Z * Z) : Prop := fst e = 0 \/ fst e = 1.

(** A callback that ends a capture: the watchdog (a level other than 0
    and 1), or an edge more than [_T_MAX_GAP] after the last one. *)
Definition ends_capture (tickDiff : Z -> Z -> Z) (last : Z) (e : Z * Z * Z) : Prop :=
  let '(_, level, tick) := e in
  (level <> 0 /\ level <> 1) \/ _T_MAX_GAP < tickDiff last tick.

(** The sum of the elements of a code: its duration. *)
Definition total (code : list Z) : Z := fold_right Z.add 0 code.

(** A frame [encode] can index as a SONY frame. *)
Definition has_two (frame : list Z) : Prop := 2 <= len frame.

(** The frames [encode] accepts for a format: any for AEHA and NEC, frames
    of at least two elements for SONY. *)
Definition encodable (ir_format : string) (fs : list (list Z)) : Prop :=
  ir_format = FORMAT_SONY -> Forall has_two fs.

(** The number of bytes in a sequence of frames, and of data bits in a
    sequence of SONY frames. *)
Definition byte_count (fs : list (list Z)) : Z :=
  fold_right (fun f n => len f + n) 0 fs.

Definition sony_bit_count (fs : list (list Z)) : Z :=
  fold_right (fun f n => Z.of_nat (sony_bits f) + n) 0 fs.

(** The frames with every byte reduced to its low 8 bits. *)
Definition low_bytes (fs : list (list Z)) : list (list Z) :=
  map (map (fun b => b mod 256)) fs.

(** The mark/space pairs of a code; a mark at the end has no space. *)
Fixpoint pairs (code : list Z) : list (Z * Z) :=
  match code with
  | [] => []
  | [m] => [(m, 0)]
  | m :: sp :: rest => (m, sp) :: pairs rest
  end.

Definition pair_eqb (p q : Z * Z) : bool :=
  (fst p =? fst q) && (snd p =? snd q).

Definition seen (p : Z * Z) (keys : list (Z * Z)) : bool :=
  existsb (fun q => pair_eqb q p) keys.

(** The pairs of a list without repetition, in the order they first
    appear, and the place of a pair among them. *)
Definition distinct (ps : list (Z * Z)) : list (Z * Z) :=
  fold_left (fun keys p => if seen p keys then keys else keys ++ [p]) ps [].

Fixpoint position (p : Z * Z) (keys : list (Z * Z)) : nat :=
  match keys with
  | [] => O
  | q :: keys' => if pair_eqb q p then O else S (position p keys')
  end.

(** One 26 us cycle of the 38 kHz carrier on the pin, and the wave of a
    pair: [mark // 26] cycles, then the space if it is positive. *)
Definition cycle (gpio_send : Z) : list pulse :=
  [mk_pulse (Z.shiftl 1 gpio_send) 0 8; mk_pulse 0 (Z.shiftl 1 gpio_send) 18].

Definition wave_pulses (gpio_send : Z) (p : Z * Z) : list pulse :=
  List.concat (repeat (cycle gpio_send) (Z.to_nat (fst p / 26)))
    ++ (if snd p >? 0 then [mk_pulse 0 0 (snd p)] else []).

(** What one pair adds to the state of [send]. *)
Definition send_pair (wave_id : nat -> Z) (gpio_send : Z) (s : send_state)
           (p : Z * Z) : send_state :=
  match dict_get (wids s) p with
  | Some wid => mk_send_state (wids s) (send_wids s ++ [wid]) (calls s)
  | None =>
      let wid := wave_id (List.length (wids s)) in
      mk_send_state (wids s ++ [(fst p, snd p, wid)]) (send_wids s ++ [wid])
                    (calls s ++ [wave_add_generic (wave_pulses gpio_send p); wave_create])
  end.

(** The pulses a sequence of calls transmits: [wave_add_generic] collects
    pulses, [wave_create] makes a wave of them under the next id,
    [wave_clear] deletes the waves, and [wave_chain] plays the waves
    named by its ids, one after the other. *)
Definition wave_of (wave_id : nat -> Z) (waves : list (list pulse)) (wid : Z)
  : list pulse :=
  match find (fun k => wave_id k =? wid) (seq 0 (List.length waves)) with
  | Some k => nth k waves []
  | None => []
  end.

Fixpoint transmitted (wave_id : nat -> Z) (cs : list pi_call)
         (pending : list pulse) (waves : list (list pulse)) : list pulse :=
  match cs with
  | [] => []
  | set_mode _ _ :: cs' => transmitted wave_id cs' pending waves
  | wave_clear :: cs' => transmitted wave_id cs' [] []
  | wave_add_generic pulses :: cs' => transmitted wave_id cs' (pending ++ pulses) waves
  | wave_create :: cs' => transmitted wave_id cs' [] (waves ++ [pending])
  | wave_chain data :: cs' =>
      flat_map (wave_of wave_id waves) data ++ transmitted wave_id cs' pending waves
  | stop :: cs' => transmitted wave_id cs' pending waves
  end.

(** The time a list of pulses takes, and the part of its marks that a code
    loses to whole carrier cycles. *)
Definition duration (pulses : list pulse) : Z :=
  fold_right (fun p d => delay p + d) 0 pulses.

Definition mark_loss (code : list Z) : Z :=
  fold_right (fun p d => fst p mod 26 + d) 0 (pairs code).

(** The dict [wids] over a list of keys: the [n]-th key holds the id of the
    [n]-th wave, counting from [base]. *)
Fixpoint numbered (wave_id : nat -> Z) (base : nat) (keys : list (Z * Z))
  : list (Z * Z * Z) :=
  match keys with
  | [] => []
  | q :: keys' => (fst q, snd q, wave_id base) :: numbered wave_id (S base) keys'
  end.

(** The calls that create the wave of a pair. *)
Definition create_wave (gpio_send : Z) (p : Z * Z) : list pi_call :=
  [wave_add_generic (wave_pulses gpio_send p); wave_create].

(** A run of [k] characters ['0']. *)
Fixpoint zeros (k : nat) : string :=
  match k with
  | O => EmptyString
  | S k' => String "0" (zeros k')
  end.

(** A string is the numeral of a pin number: [str n] for an [n] from 0
    to 27, after any number of zeros. *)
Definition pin_numeral (s : string) (n : Z) : Prop :=
  0 <= n <= 27 /\ exists k, s = (zeros k ++ str n)%string.

(** The text of [frames2str]: an element, a frame on its line -- an empty
    frame reads [Repeat] and ends its line itself -- and the lines of
    consecutive frames, numbered from [i]; [show] prints an element. *)
Definition element_text (v : Z) : string := ("0x" ++ format_02X v)%string.

Definition frame_text (show : Z -> string) (i : Z) (frame : list Z) : string :=
  ("Frame#" ++ str i ++ " "
     ++ match frame with
        | [] => "Repeat" ++ newline
        | _ => String.concat ", " (map show frame)
        end)%string.

Fixpoint frames_text (show : Z -> string) (i : Z) (fs : list (list Z)) : list string :=
  match fs with
  | [] => []
  | f :: fs' => frame_text show i f :: frames_text show (i + 1) fs'
  end.

(** The capital hexadecimal digit of a value below 16, and a byte as two
    of them. *)
Definition hex_digit (d : Z) : ascii :=
  nth (Z.to_nat d) (list_ascii_of_string "0123456789ABCDEF") "?"%char.

Definition byte_text (b : Z) : string :=
  ("0x" ++ String (hex_digit (b / 16)) (String (hex_digit (b mod 16)) EmptyString))%string.

(** What [decode] keeps between iterations: in the byte loop a bit count
    below 8 and a partial byte below [2 ^ bit_counter], with bytes in the
    frames so far; in the SONY loop a partial word below
    [2 ^ bit_counter] and frames of two elements. *)
Definition is_byte (b : Z) : Prop := 0 <= b < 256.

Definition pair_inv (s : dec_state) : Prop :=
  0 <= bit_counter s < 8 /\
  0 <= byte s < 2 ^ bit_counter s /\
  Forall is_byte (byte_list s) /\
  Forall (Forall is_byte) (frames s).

Definition sony_inv (s : dec_state) : Prop :=
  0 <= bit_counter s /\
  0 <= byte s < 2 ^ bit_counter s /\
  byte_list s = [] /\
  Forall loose_sony_frame (frames s).

(** A result of [decode] with frames of the right shape: bytes for AEHA
    and NEC; for SONY pairs [[low7, high]] with [low7] below 128, the
    last of them with [high] below 8192. *)
Definition well_formed (r : pyval) : Prop :=
  r = PyNone \/ r = unknown \/
  (exists ir_format fs,
      r = Tuple ir_format fs /\
      (ir_format = FORMAT_AEHA \/ ir_format = FORMAT_NEC) /\
      Forall (Forall is_byte) fs) \/
  (exists fs f,
      r = Tuple FORMAT_SONY (fs ++ [f]) /\
      Forall loose_sony_frame fs /\ sony_frame f).

(** A measured length within the tolerance window of a nominal one. *)
Definition near (x n : Z) : Prop := within x n = true.

(** A measured code against a nominal one, element by element: every
    length within the window of its nominal value, and above 5000 where the
    nominal value is. *)
Definition jitter (x n : Z) : Prop := near x n /\ (5000 < n -> 5000 < x).

(** The leader of a frame after the first, measured: the leader of the
    format, or its repeat leader with the shorter or longer space. *)
Definition later_leader (ir_format : string) (l1 l2 : Z) : Prop :=
  if (ir_format =? FORMAT_AEHA)%string
  then near l1 (_T_AEHA * 8) /\ (near l2 (_T_AEHA * 4) \/ near l2 (_T_AEHA * 8))
  else near l1 (_T_NEC * 16) /\ (near l2 (_T_NEC * 8) \/ near l2 (_T_NEC * 4)).

(** The part of a measured AEHA or NEC code after the first leader reads as
    frames: the data pairs of the bytes of a frame and a stop mark, then
    either nothing or a space above 5000, a leader and the frames that
    follow. *)
Inductive reads_frames (ir_format : string) (t : Z) : list Z -> list (list Z) -> Prop :=
| reads_last (data : list Z) (x : Z) (f : list Z) :
    Forall2 near data (flat_map (fun b => bits_code t 3 b 8) f) ->
    near x t ->
    reads_frames ir_format t (data ++ [x]) [f]
| reads_more (data : list Z) (x w l1 l2 : Z) (rest : list Z)
             (f : list Z) (fs : list (list Z)) :
    Forall2 near data (flat_map (fun b => bits_code t 3 b 8) f) ->
    near x t ->
    5000 < w ->
    later_leader ir_format l1 l2 ->
    reads_frames ir_format t rest fs ->
    reads_frames ir_format t (data ++ x :: w :: l1 :: l2 :: rest) (f :: fs).

(** The repeat code of a format after a gap [w]: the leader mark, the
    repeat space and the stop mark. *)
Definition repeat_code (ir_format : string) (w : Z) : list Z :=
  if (ir_format =? FORMAT_AEHA)%string
  then [w; _T_AEHA * 8; _T_AEHA * 8; _T_AEHA]
  else [w; _T_NEC * 16; _T_NEC * 4; _T_NEC].

(** A measured SONY code against a nominal one: as [jitter], and the mark
    of a one bit, nominally [2 * _T_SONY], outside the window of a zero. *)
Definition sony_jitter (x n : Z) : Prop :=
  jitter x n /\ (n = _T_SONY * 2 -> ~ near x _T_SONY).

(** A nominal length that survives the rounding of a capture: at least
    100, and at least 5100 when above 5000. *)
Definition steady (n : Z) : Prop := 100 <= n /\ (5000 < n -> 5100 <= n).

(** A length as [_call_back] stores it: a multiple of 10, at most
    [_T_MAX_GAP]. *)
Definition rounded (x : Z) : Prop := (10 | x) /\ x <= _T_MAX_GAP.

(** * Properties *)

(** ** Rounding *)

Lemma _round_eq (n m : Z) : m <> 0 -> _round n m = Ok ((n + m / 2) / m * m).
Proof.
  intros Hm. unfold _round, floordiv.
  destruct (Z.eqb_spec m 0) as [E | _]; [contradiction | reflexivity].
Qed.

(** C8: for n >= 0 and m > 0, [_round n m] is [(n + m/2) / m * m] with floor
    division; it is a multiple of m, no multiple of m is nearer to n, and of
    two equally near multiples it is the upper one; [_round 1005 10 = 1010]
    and [_round 1004 10 = 1000]. *)
Theorem round_to_nearest_ties_up (n m : Z) (Hn : 0 <= n) (Hm : 0 < m) :
  exists r,
    _round n m = Ok r /\
    r = (n + m / 2) / m * m /\
    (m | r) /\
    (forall k, Z.abs (r - n) <= Z.abs (k * m - n)) /\
    (forall k, Z.abs (k * m - n) = Z.abs (r - n) -> k * m <= r) /\
    _round 1005 10 = Ok 1010 /\
    _round 1004 10 = Ok 1000.
Proof.
  exists ((n + m / 2) / m * m).
  split; [apply _round_eq; lia|].
  split; [reflexivity|].
  split; [exists ((n + m / 2) / m); reflexivity|].
  pose proof (Z.div_mod (n + m / 2) m ltac:(lia)) as Hd.
  pose proof (Z.mod_pos_bound (n + m / 2) m Hm) as Hb.
  pose proof (Z.div_mod m 2 ltac:(lia)) as Hh.
  pose proof (Z.mod_pos_bound m 2 ltac:(lia)) as Hhb.
  set (q := (n + m / 2) / m) in *.
  set (h := m / 2) in *.
  set (x := (n + h) mod m) in *.
  set (y := m mod 2) in *.
  assert (Hq : q * m = n + h - x) by lia.
  split; [|split; [|split; reflexivity]].
  - intros k. rewrite Hq.
    assert (k <= q - 1 \/ k = q \/ q + 1 <= k) as [Hk | [Hk | Hk]] by lia.
    + assert (k * m <= q * m - m) by nia. lia.
    + subst k. rewrite Hq. lia.
    + assert (q * m + m <= k * m) by nia. lia.
  - intros k Hk. rewrite Hq in *.
    assert (k <= q \/ q + 1 <= k) as [Hle | Hge] by lia.
    + assert (k * m <= q * m) by nia. lia.
    + assert (q * m + m <= k * m) by nia. lia.
Qed.

Lemma round_to_nearest_ties_up_witness :
  exists r, _round 1005 10 = Ok r /\ r = 1010.
Proof.
  destruct (round_to_nearest_ties_up 1005 10 ltac:(lia) ltac:(lia))
    as (r & Hr & Heq & _).
  exists r. split; [exact Hr | rewrite Heq; reflexivity].
Defined.

(** ** Tolerance *)

Lemma _cl_bounds (length : pynum) (target : Z) (tol lo hi : Float.float) :
  lower_bound target tol = Ok lo ->
  upper_bound target tol = Ok hi ->
  _cl length target tol = Ok (gt_float length lo && lt_float length hi).
Proof.
  unfold lower_bound, upper_bound, _cl, and_. intros Hlo Hhi.
  destruct (int_sub_float 1 tol) as [d|]; [|discriminate]. cbn [bind] in *.
  rewrite Hlo. cbn [bind].
  destruct (gt_float length lo); cbn [andb].
  - destruct (int_add_float 1 tol) as [u|]; [|discriminate]. cbn [bind] in *.
    rewrite Hhi. cbn [bind]. destruct (lt_float length hi); reflexivity.
  - reflexivity.
Qed.

(** Against a positive float with a negative exponent, the integer order is
    the order of the scaled integers. *)
Lemma gt_float_frac (l : Z) (m : positive) (k : positive) :
  gt_float (PyInt l) (S754_finite false m (Zneg k)) = (Zpos m <? l * 2 ^ Zpos k).
Proof.
  unfold gt_float, Float.compare_int. cbn [Z.leb Z.compare Z.opp].
  rewrite Z.ltb_compare, (Z.compare_antisym (l * 2 ^ Z.pos k)).
  destruct (l * 2 ^ Z.pos k ?= Z.pos m); reflexivity.
Qed.

Lemma lt_float_frac (l : Z) (m : positive) (k : positive) :
  lt_float (PyInt l) (S754_finite false m (Zneg k)) = (l * 2 ^ Zpos k <? Zpos m).
Proof.
  unfold lt_float, Float.compare_int. cbn [Z.leb Z.compare Z.opp].
  rewrite Z.ltb_compare.
  destruct (l * 2 ^ Z.pos k ?= Z.pos m); reflexivity.
Qed.

Ltac eval_pow2 :=
  repeat match goal with
         | |- context [2 ^ Zpos ?k] =>
             let v := eval vm_compute in (2 ^ Zpos k) in
             change (2 ^ Zpos k) with v
         end.

Ltac window_case :=
  erewrite _cl_bounds by (vm_compute; reflexivity);
  rewrite gt_float_frac, lt_float_frac;
  unfold within, _T_AEHA, _T_NEC, _T_SONY; eval_pow2;
  f_equal; f_equal;
  repeat match goal with
         | |- context [Z.ltb ?a ?b] => destruct (Z.ltb_spec a b)
         end; try reflexivity; exfalso; lia.

(** For the targets of [decode] the float window is the exact one. *)
Lemma _cl_within (l target : Z) :
  In target decode_targets ->
  _cl (PyInt l) target tol_default = Ok (within l target).
Proof.
  unfold decode_targets. cbn [In].
  intros H.
  repeat (destruct H as [<- | H]; [window_case|]).
  contradiction.
Qed.

(** ** Lists, indices and ranges *)

Lemma len_nonneg {A : Type} (l : list A) : 0 <= len l.
Proof. unfold len. lia. Qed.

Lemma len_app {A : Type} (l1 l2 : list A) : len (l1 ++ l2) = len l1 + len l2.
Proof. unfold len. rewrite length_app. lia. Qed.

Lemma len_cons {A : Type} (x : A) (l : list A) : len (x :: l) = 1 + len l.
Proof. unfold len. cbn [List.length]. lia. Qed.

Lemma len_nil {A : Type} : len (@nil A) = 0.
Proof. reflexivity. Qed.

Lemma getitem_nth {A : Type} (l : list A) (n : nat) (a : A) :
  nth_error l n = Some a -> getitem l (Z.of_nat n) = Ok a.
Proof.
  intros H. unfold getitem.
  assert (Hn : (n < List.length l)%nat) by (apply nth_error_Some; congruence).
  destruct (Z.ltb_spec (Z.of_nat n) 0); [lia|].
  destruct (Z.ltb_spec (Z.of_nat n) 0); [lia|].
  destruct (Z.leb_spec (Z.of_nat (List.length l)) (Z.of_nat n)); [lia|].
  cbn [orb]. rewrite Nat2Z.id, H. reflexivity.
Qed.

Lemma getitem_here (pre : list Z) (x : Z) (rest : list Z) :
  getitem (pre ++ x :: rest) (len pre) = Ok x.
Proof.
  apply getitem_nth. rewrite nth_error_app2 by lia.
  rewrite Nat.sub_diag. reflexivity.
Qed.

Lemma getitem_next (pre : list Z) (x y : Z) (rest : list Z) :
  getitem (pre ++ x :: y :: rest) (len pre + 1) = Ok y.
Proof.
  replace (len pre + 1) with (Z.of_nat (S (List.length pre))) by (unfold len; lia).
  apply getitem_nth. rewrite nth_error_app2 by lia.
  replace (S (List.length pre) - List.length pre)%nat with 1%nat by lia.
  reflexivity.
Qed.

Lemma getitem_0 (x : Z) (rest : list Z) : getitem (x :: rest) 0 = Ok x.
Proof. exact (getitem_here [] x rest). Qed.

Lemma getitem_1 (x y : Z) (rest : list Z) : getitem (x :: y :: rest) 1 = Ok y.
Proof. exact (getitem_next [] x y rest). Qed.


Lemma range_step (start stop : Z) :
  start < stop -> range start stop 2 = start :: range (start + 2) stop 2.
Proof.
  intros H. unfold range.
  replace (stop - start + 2 - 1) with ((stop - (start + 2) + 2 - 1) + 1 * 2) by lia.
  rewrite Z.div_add by lia.
  assert (0 <= (stop - (start + 2) + 2 - 1) / 2) by (apply Z.div_pos; lia).
  rewrite Z2Nat.inj_add by lia.
  change (Z.to_nat 1) with 1%nat. rewrite Nat.add_1_r. reflexivity.
Qed.

Lemma range_done (start stop : Z) : stop <= start -> range start stop 2 = [].
Proof.
  intros H. unfold range.
  assert ((stop - start + 2 - 1) / 2 <= 0).
  { apply Z.lt_succ_r. apply Z.div_lt_upper_bound; lia. }
  replace (Z.to_nat ((stop - start + 2 - 1) / 2)) with 0%nat by lia.
  reflexivity.
Qed.

(** ** Resuming the decode loop *)

Section Resume.

Variable body : list Z -> Z -> dec_state -> pyres (ctl dec_state pyval).

Lemma resume_continue (pre : list Z) (x y : Z) (rest : list Z) (s s' : dec_state) :
  body (pre ++ x :: y :: rest) (len pre) s = Ok (Continue s') ->
  resume body pre (x :: y :: rest) s = resume body (pre ++ [x; y]) rest s'.
Proof.
  intros Hb. unfold resume.
  rewrite range_step by (rewrite len_app, !len_cons; pose proof (len_nonneg rest); lia).
  cbn [for_loop]. rewrite Hb. cbn [bind].
  rewrite <- app_assoc. cbn [app].
  rewrite (len_app pre [x; y]). reflexivity.
Qed.

Lemma resume_return (pre : list Z) (x : Z) (rest : list Z) (s : dec_state) (r : pyval) :
  body (pre ++ x :: rest) (len pre) s = Ok (Return r) ->
  resume body pre (x :: rest) s = Ok r.
Proof.
  intros Hb. unfold resume.
  rewrite range_step by (rewrite len_app, !len_cons; pose proof (len_nonneg rest); lia).
  cbn [for_loop]. rewrite Hb. reflexivity.
Qed.




End Resume.

(** ** The tests of [decode] on a known element *)

Lemma cl_at_within (code : list Z) (i x target : Z) :
  getitem code i = Ok x ->
  In target decode_targets ->
  cl_at code i target = Ok (within x target).
Proof.
  intros Hx Ht. unfold cl_at. rewrite Hx. cbn [bind]. apply _cl_within, Ht.
Qed.

Lemma long_space_gt (code : list Z) (i x : Z) :
  getitem code i = Ok x -> long_space code i = Ok (5000 <? x).
Proof.
  intros Hx. unfold long_space. rewrite Hx. cbn [bind].
  replace (int_mul_float _T_WAIT half)
    with (Ok (S754_finite false 5497558138880000 (-40)) : pyres Float.float)
    by (vm_compute; reflexivity).
  cbn [bind]. rewrite gt_float_frac. eval_pow2. f_equal.
  destruct (Z.ltb_spec 5497558138880000 (x * 1099511627776));
    destruct (Z.ltb_spec 5000 x); try reflexivity; exfalso; lia.
Qed.

Ltac eval_fmt :=
  repeat match goal with
         | |- context [String.eqb ?a ?b] =>
             let v := eval vm_compute in (String.eqb a b) in
             change (String.eqb a b) with v
         end;
  cbv beta iota.

Ltac in_targets := unfold decode_targets; repeat first [left; reflexivity | right].

Ltac eval_tests :=
  repeat match goal with
         | |- context [within ?a ?b] =>
             let v := eval vm_compute in (within a b) in change (within a b) with v
         | |- context [5000 <? ?a] =>
             let v := eval vm_compute in (5000 <? a) in
             match v with true => idtac | false => idtac end;
             change (5000 <? a) with v
         end.

Ltac index_tests :=
  rewrite ?len_app, ?len_cons, ?len_nil;
  repeat match goal with
         | |- context [Z.eqb ?a ?b] =>
             first [ replace (Z.eqb a b) with false by (symmetry; apply Z.eqb_neq; lia)
                   | replace (Z.eqb a b) with true by (symmetry; apply Z.eqb_eq; lia) ]
         | |- context [Z.leb ?a ?b] =>
             first [ replace (Z.leb a b) with false by (symmetry; apply Z.leb_gt; lia)
                   | replace (Z.leb a b) with true by (symmetry; apply Z.leb_le; lia) ]
         end.

Ltac read_code :=
  repeat first
    [ rewrite (cl_at_within _ _ _ _ (getitem_here _ _ _)) by in_targets
    | rewrite (cl_at_within _ _ _ _ (getitem_next _ _ _ _)) by in_targets
    | rewrite (long_space_gt _ _ _ (getitem_here _ _ _))
    | rewrite (long_space_gt _ _ _ (getitem_next _ _ _ _)) ].

(** ** AEHA and NEC: one loop iteration on each kind of pair *)

Section PairSteps.

Variables (ir_format : string) (t : Z).
Hypothesis Hfmt : pair_format ir_format t.

Lemma pair_bit (pre rest : list Z) (b : bool) (s : dec_state) :
  end_of_frame s = false ->
  decode_pair (pre ++ t :: bit_space t 3 b :: rest) ir_format t (len pre) s =
  Ok (Continue (push_bit s (if b then byte s + Z.shiftl 1 (bit_counter s) else byte s))).
Proof.
  intros Heof. pose proof (len_nonneg rest).
  unfold decode_pair. rewrite Heof.
  destruct Hfmt as [[-> ->] | [-> ->]]; destruct b; unfold bit_space;
    read_code; index_tests; eval_tests; reflexivity.
Qed.

Lemma pair_stop_wait (pre rest : list Z) (w : Z) (s : dec_state) :
  end_of_frame s = false ->
  5000 < w ->
  decode_pair (pre ++ t :: w :: rest) ir_format t (len pre) s =
  Ok (Continue (mk_dec_state (frames s ++ [byte_list s]) [] 0 (bit_counter s) true)).
Proof.
  intros Heof Hw. pose proof (len_nonneg rest).
  apply Z.ltb_lt in Hw.
  unfold decode_pair. rewrite Heof.
  destruct Hfmt as [[-> ->] | [-> ->]];
    read_code; rewrite Hw; index_tests; eval_tests; reflexivity.
Qed.

Lemma pair_leader (pre rest : list Z) (s : dec_state) :
  end_of_frame s = true ->
  decode_pair (pre ++ (if (ir_format =? FORMAT_AEHA)%string then t * 8 else t * 16)
                   :: (if (ir_format =? FORMAT_AEHA)%string then t * 4 else t * 8)
                   :: rest) ir_format t (len pre) s =
  Ok (Continue (mk_dec_state (frames s) (byte_list s) (byte s) (bit_counter s) false)).
Proof.
  intros Heof. pose proof (len_nonneg rest).
  unfold decode_pair. rewrite Heof.
  destruct Hfmt as [[-> ->] | [-> ->]]; eval_fmt;
    read_code; index_tests; eval_tests; reflexivity.
Qed.

Lemma pair_final_stop (pre : list Z) (s : dec_state) :
  end_of_frame s = false ->
  bit_counter s = 0 ->
  decode_pair (pre ++ [t]) ir_format t (len pre) s =
  Ok (Return (Tuple ir_format (frames s ++ [byte_list s]))).
Proof.
  intros Heof Hbc.
  unfold decode_pair. rewrite Heof, Hbc.
  destruct Hfmt as [[-> ->] | [-> ->]];
    read_code; index_tests; eval_tests; reflexivity.
Qed.

End PairSteps.

(** ** SONY: one loop iteration on each kind of pair *)

Section SonySteps.

Lemma sony_bit (pre rest : list Z) (b : bool) (s : dec_state) :
  rest <> [] ->
  decode_sony (pre ++ _T_SONY :: bit_space _T_SONY 2 b :: rest) FORMAT_SONY _T_SONY (len pre) s =
  Ok (Continue (mk_dec_state (frames s) (byte_list s)
                             (if b then byte s + Z.shiftl 1 (bit_counter s) else byte s)
                             (bit_counter s + 1) (end_of_frame s))).
Proof.
  intros Hrest. destruct rest as [|z rest]; [contradiction|].
  pose proof (len_nonneg rest).
  unfold decode_sony.
  destruct b; unfold bit_space;
    read_code; index_tests; eval_tests; reflexivity.
Qed.

Lemma sony_final_bit (pre : list Z) (b : bool) (s : dec_state) :
  bit_counter s + 1 = 12 \/ bit_counter s + 1 = 15 \/ bit_counter s + 1 = 20 ->
  decode_sony (pre ++ [_T_SONY; bit_space _T_SONY 2 b]) FORMAT_SONY _T_SONY (len pre) s =
  Ok (Return (Tuple FORMAT_SONY
                (sony_flush (mk_dec_state (frames s) (byte_list s)
                   (if b then byte s + Z.shiftl 1 (bit_counter s) else byte s)
                   (bit_counter s + 1) (end_of_frame s))))).
Proof.
  intros Hbc.
  unfold decode_sony.
  destruct b; unfold bit_space;
    read_code; index_tests; eval_tests; cbn [and_ bind bit_counter];
    destruct Hbc as [-> | [-> | ->]]; reflexivity.
Qed.

Lemma sony_boundary (pre rest : list Z) (w z : Z) (s : dec_state) :
  5000 < w ->
  decode_sony (pre ++ w :: _T_SONY * 4 :: z :: rest) FORMAT_SONY _T_SONY (len pre) s =
  Ok (Continue (mk_dec_state (sony_flush s) [] 0 0 (end_of_frame s))).
Proof.
  intros Hw. pose proof (len_nonneg rest).
  apply Z.ltb_lt in Hw.
  unfold decode_sony.
  read_code; rewrite Hw; index_tests; eval_tests; reflexivity.
Qed.

End SonySteps.

(** ** The shape of what [encode] returns *)

Lemma encode_bits (t k c : Z) (n : nat) :
  forall code t_count d,
    fst (Nat.iter n (encode_bit t k c) (code, t_count, d)) =
    (code ++ bits_code t k d n, t_count + bits_units c d n).
Proof.
  induction n as [|n IH]; intros code t_count d.
  - cbn. rewrite app_nil_r, Z.add_0_r. reflexivity.
  - rewrite Nat.iter_succ_r. unfold encode_bit at 2.
    cbn [bits_code bits_units].
    destruct (Z.land d 1 =? 0); cbn [negb bit_space];
      rewrite IH, <- app_assoc; cbn [app]; f_equal; lia.
Qed.

Lemma encode_bytes_eq (t : Z) (frame : list Z) :
  forall code t_count,
    encode_bytes t frame code t_count =
    (code ++ flat_map (fun b => bits_code t 3 b 8) frame,
     t_count + fold_right (fun b u => bits_units 4 b 8 + u) 0 frame).
Proof.
  unfold encode_bytes.
  induction frame as [|b frame IH]; intros code t_count.
  - cbn. rewrite app_nil_r, Z.add_0_r. reflexivity.
  - cbn [fold_left flat_map fold_right].
    pose proof (encode_bits t 3 4 8 code t_count b) as Hb.
    destruct (Nat.iter 8 (encode_bit t 3 4) (code, t_count, b)) as [[code' t_count'] d'].
    unfold fst in Hb. injection Hb as -> ->.
    rewrite IH, <- app_assoc. f_equal. cbn [fold_right bits_units]. lia.
Qed.

Lemma encode_frame_eq (ir_format : string) (frame : list Z) (s : enc_state) :
  supported ir_format ->
  (ir_format = FORMAT_SONY -> two_elements frame) ->
  let t := unit_of ir_format in
  encode_frame ir_format t frame s =
  Ok (Continue
        (mk_enc_state
           (e_code s
              ++ (if e_first_frame s then [] else [wait_space ir_format t (e_t_count s)])
              ++ leader_code ir_format t ++ data_code ir_format t frame
              ++ stop_code ir_format t)
           (frame_units ir_format frame) false)).
Proof.
  intros Hfmt Hsony t. subst t.
  unfold encode_frame, wait_space, leader_code, data_code, stop_code, frame_units, unit_of.
  destruct Hfmt as [-> | [-> | ->]]; eval_fmt; cbn [orb].
  - destruct (e_first_frame s); cbn [negb bind];
      rewrite encode_bytes_eq; cbn [bind];
      rewrite <- ?app_assoc; cbn [app]; reflexivity.
  - rewrite !_round_eq by lia.
    destruct (e_first_frame s); cbn [negb bind];
      rewrite encode_bytes_eq; cbn [bind];
      rewrite <- ?app_assoc; cbn [app]; reflexivity.
  - destruct (Hsony eq_refl) as (f0 & f1 & ->).
    rewrite !_round_eq by lia.
    change (getitem [f0; f1] 0) with (Ok f0 : pyres Z).
    change (getitem [f0; f1] 1) with (Ok f1 : pyres Z).
    cbn [sony_word sony_bits].
    destruct (e_first_frame s); cbn [negb bind];
      match goal with
      | |- context [Nat.iter ?n ?f (?c, ?u, ?d)] =>
          pose proof (encode_bits _T_SONY 2 3 n c u d) as Hb;
          destruct (Nat.iter n f (c, u, d)) as [[code' t_count'] d']
      end;
      unfold fst in Hb; injection Hb as -> ->;
      rewrite <- ?app_assoc, ?app_nil_r; reflexivity.
Qed.

Lemma encode_loop_eq (ir_format : string) (fs : list (list Z)) :
  supported ir_format ->
  (ir_format = FORMAT_SONY -> Forall two_elements fs) ->
  forall s,
    for_loop (encode_frame ir_format (unit_of ir_format)) (fun s => Ok (e_code s)) fs s =
    Ok (e_code s ++ frames_code ir_format (unit_of ir_format)
                      (if e_first_frame s then None else Some (e_t_count s)) fs).
Proof.
  intros Hfmt Hsony.
  induction fs as [|f fs IH]; intros s.
  - cbn. rewrite app_nil_r. reflexivity.
  - cbn [for_loop frames_code].
    rewrite encode_frame_eq; [| exact Hfmt | intros E; specialize (Hsony E); inversion Hsony; assumption].
    cbn [bind]. rewrite IH; [| intros E; specialize (Hsony E); inversion Hsony; assumption].
    cbn [e_code e_first_frame e_t_count].
    destruct (e_first_frame s); rewrite <- ?app_assoc; reflexivity.
Qed.

Lemma encode_eq (ir_format : string) (fs : list (list Z)) :
  supported ir_format ->
  (ir_format = FORMAT_SONY -> Forall two_elements fs) ->
  encode ir_format fs = Ok (frames_code ir_format (unit_of ir_format) None fs).
Proof.
  intros Hfmt Hsony. unfold encode.
  replace (if (ir_format =? FORMAT_AEHA)%string then Ok _T_AEHA
           else if (ir_format =? FORMAT_NEC)%string then Ok _T_NEC
           else if (ir_format =? FORMAT_SONY)%string then Ok _T_SONY
           else Raise ValueError)
    with (Ok (unit_of ir_format) : pyres Z)
    by (destruct Hfmt as [-> | [-> | ->]]; reflexivity).
  cbn [bind]. rewrite encode_loop_eq by assumption. reflexivity.
Qed.

(** ** Runs of data bits *)

Lemma bits_code_app (t k : Z) (n m : nat) :
  forall d, bits_code t k d (n + m) =
            bits_code t k d n ++ bits_code t k (Z.shiftr d (Z.of_nat n)) m.
Proof.
  induction n as [|n IH]; intros d.
  - reflexivity.
  - cbn [Nat.add bits_code app]. rewrite IH. do 3 f_equal.
    rewrite Z.shiftr_shiftr by lia. do 2 f_equal. lia.
Qed.

Lemma bits_code_nonempty (t k d : Z) (n : nat) (rest : list Z) :
  rest <> [] -> bits_code t k d n ++ rest <> [].
Proof. intros H. destruct n; [exact H | discriminate]. Qed.

Lemma low_bit (d : Z) : Z.land d 1 = d mod 2.
Proof. apply (Z.land_ones d 1). lia. Qed.

Lemma bit_weight (d x bc : Z) (n : nat) :
  0 <= bc ->
  (if negb (Z.land d 1 =? 0) then x + Z.shiftl 1 bc else x)
  + (Z.shiftr d 1 mod 2 ^ Z.of_nat n) * 2 ^ (bc + 1)
  = x + (d mod 2 ^ Z.of_nat (S n)) * 2 ^ bc.
Proof.
  intros Hbc.
  rewrite Nat2Z.inj_succ, Z.pow_succ_r by lia.
  rewrite Z.rem_mul_r by lia.
  rewrite Z.shiftr_div_pow2, Z.pow_1_r by lia.
  rewrite Z.shiftl_1_l, low_bit, Z.pow_add_r, Z.pow_1_r by lia.
  pose proof (Z.mod_pos_bound d 2 ltac:(lia)).
  destruct (Z.eqb_spec (d mod 2) 0) as [E | E]; cbn [negb].
  - rewrite E. ring.
  - replace (d mod 2) with 1 by lia. ring.
Qed.


Lemma add_bits_none (s : dec_state) (d : Z) : add_bits s (d mod 2 ^ Z.of_nat 0) (Z.of_nat 0) = s.
Proof.
  destruct s. unfold add_bits. cbn [frames byte_list byte bit_counter end_of_frame].
  change (2 ^ Z.of_nat 0) with 1. rewrite Z.mod_1_r. f_equal; lia.
Qed.

Section PairRuns.

Variables (ir_format : string) (t : Z).
Hypothesis Hfmt : pair_format ir_format t.

Lemma push_bit_inside (s : dec_state) (v : Z) :
  0 <= bit_counter s -> bit_counter s + 1 < 8 ->
  push_bit s v =
  mk_dec_state (frames s) (byte_list s) v (bit_counter s + 1) (end_of_frame s).
Proof.
  intros H0 H8. unfold push_bit.
  rewrite Z.mod_small by lia.
  destruct (Z.eqb_spec (bit_counter s + 1) 0); [lia | reflexivity].
Qed.

Lemma pair_bits_run (n : nat) :
  forall d pre rest s,
    end_of_frame s = false ->
    0 <= bit_counter s ->
    bit_counter s + Z.of_nat n < 8 ->
    resume (pair_body ir_format t) pre (bits_code t 3 d n ++ rest) s =
    resume (pair_body ir_format t) (pre ++ bits_code t 3 d n) rest
           (add_bits s (d mod 2 ^ Z.of_nat n) (Z.of_nat n)).
Proof.
  induction n as [|n IH]; intros d pre rest s Heof H0 H8.
  - cbn [bits_code app]. rewrite app_nil_r, add_bits_none. reflexivity.
  - cbn [bits_code app].
    erewrite resume_continue by (apply (pair_bit _ _ Hfmt); exact Heof).
    rewrite push_bit_inside by lia.
    rewrite IH by (cbn [end_of_frame bit_counter]; first [exact Heof | lia]).
    replace (pre ++ t :: bit_space t 3 (negb (Z.land d 1 =? 0))
                 :: bits_code t 3 (Z.shiftr d 1) n)
      with ((pre ++ [t; bit_space t 3 (negb (Z.land d 1 =? 0))])
              ++ bits_code t 3 (Z.shiftr d 1) n)
      by (rewrite <- app_assoc; reflexivity).
    f_equal. unfold add_bits.
    cbn [frames byte_list byte bit_counter end_of_frame].
    f_equal; [apply bit_weight; exact H0 | lia].
Qed.

Lemma pair_byte_run (d : Z) (pre rest : list Z) (fr : list (list Z)) (bl : list Z) :
  0 <= d < 256 ->
  resume (pair_body ir_format t) pre (bits_code t 3 d 8 ++ rest)
         (mk_dec_state fr bl 0 0 false) =
  resume (pair_body ir_format t) (pre ++ bits_code t 3 d 8) rest
         (mk_dec_state fr (bl ++ [d]) 0 0 false).
Proof.
  intros Hd.
  change (bits_code t 3 d 8) with (bits_code t 3 d (7 + 1)).
  rewrite (bits_code_app t 3 7 1 d), <- app_assoc.
  rewrite pair_bits_run by (cbn; first [reflexivity | lia]).
  set (low := bits_code t 3 d 7).
  cbn [bits_code app].
  erewrite resume_continue by (apply (pair_bit _ _ Hfmt); reflexivity).
  rewrite <- (app_assoc pre low).
  f_equal.
  unfold push_bit, add_bits.
  cbn [frames byte_list byte bit_counter end_of_frame].
  change ((0 + Z.of_nat 7 + 1) mod 8 =? 0) with true. cbv iota.
  change ((0 + Z.of_nat 7 + 1) mod 8) with 0.
  do 2 f_equal.
  change (Z.of_nat 7) with 7. change (0 + 7) with 7.
  rewrite Z.shiftl_1_l, low_bit, Z.shiftr_div_pow2 by lia.
  change (2 ^ 0) with 1. change (2 ^ 7) with 128.
  pose proof (Z.div_mod d 128 ltac:(lia)).
  pose proof (Z.mod_pos_bound d 128 ltac:(lia)).
  assert (0 <= d / 128 < 2) by (split; [apply Z.div_pos | apply Z.div_lt_upper_bound]; lia).
  rewrite (Z.mod_small (d / 128)) by lia.
  destruct (Z.eqb_spec (d / 128) 0); cbn [negb]; f_equal; lia.
Qed.

Lemma pair_bytes_run (frame : list Z) :
  Forall (fun b => 0 <= b < 256) frame ->
  forall pre rest fr bl,
    resume (pair_body ir_format t) pre
           (flat_map (fun b => bits_code t 3 b 8) frame ++ rest)
           (mk_dec_state fr bl 0 0 false) =
    resume (pair_body ir_format t)
           (pre ++ flat_map (fun b => bits_code t 3 b 8) frame) rest
           (mk_dec_state fr (bl ++ frame) 0 0 false).
Proof.
  induction 1 as [|b frame Hb _ IH]; intros pre rest fr bl.
  - cbn [flat_map app]. rewrite !app_nil_r. reflexivity.
  - cbn [flat_map]. rewrite <- app_assoc.
    rewrite pair_byte_run by exact Hb.
    rewrite IH, <- !app_assoc. reflexivity.
Qed.

End PairRuns.

(** ** AEHA and NEC: decoding the code of a sequence of frames *)

Section PairFrames.

Variables (ir_format : string) (t : Z).
Hypothesis Hfmt : pair_format ir_format t.

Lemma pair_frames_run (fs : list (list Z)) :
  forall f pre done,
    Forall byte_frame (f :: fs) ->
    gaps_long ir_format t (f :: fs) ->
    resume (pair_body ir_format t) pre
           (data_code ir_format t f ++ stop_code ir_format t
              ++ frames_code ir_format t (Some (frame_units ir_format f)) fs)
           (mk_dec_state done [] 0 0 false) =
    Ok (Tuple ir_format (done ++ f :: fs)).
Proof.
  assert (Hdata : forall f, data_code ir_format t f = flat_map (fun b => bits_code t 3 b 8) f)
    by (intros f; unfold data_code; destruct Hfmt as [[-> _] | [-> _]]; reflexivity).
  assert (Hstop : stop_code ir_format t = [t])
    by (unfold stop_code; destruct Hfmt as [[-> _] | [-> _]]; reflexivity).
  assert (Hlead : leader_code ir_format t =
                  [if (ir_format =? FORMAT_AEHA)%string then t * 8 else t * 16;
                   if (ir_format =? FORMAT_AEHA)%string then t * 4 else t * 8])
    by (unfold leader_code; destruct Hfmt as [[-> _] | [-> _]]; reflexivity).
  induction fs as [|f' fs' IH]; intros f pre done Hvalid Hgaps;
    inversion Hvalid as [|? ? [_ Hbytes] Hvalid']; subst;
    rewrite Hdata, Hstop, pair_bytes_run by assumption.
  - cbn [frames_code app].
    erewrite resume_return by (apply (pair_final_stop _ _ Hfmt); reflexivity).
    reflexivity.
  - destruct Hgaps as [Hgap Hgaps]. specialize (Hgap ltac:(discriminate)).
    cbn [frames_code]. rewrite Hlead. cbn [app].
    erewrite resume_continue by (apply (pair_stop_wait _ _ Hfmt); [reflexivity | exact Hgap]).
    erewrite resume_continue by (apply (pair_leader _ _ Hfmt); reflexivity).
    cbn [frames byte_list byte bit_counter app].
    rewrite IH by assumption.
    rewrite <- app_assoc. reflexivity.
Qed.

End PairFrames.

(** ** SONY: decoding the code of a sequence of frames *)

Lemma sony_bits_run (n : nat) :
  forall d pre rest s,
    rest <> [] ->
    0 <= bit_counter s ->
    resume sony_body pre (bits_code _T_SONY 2 d n ++ rest) s =
    resume sony_body (pre ++ bits_code _T_SONY 2 d n) rest
           (add_bits s (d mod 2 ^ Z.of_nat n) (Z.of_nat n)).
Proof.
  induction n as [|n IH]; intros d pre rest s Hrest H0.
  - cbn [bits_code app]. rewrite app_nil_r, add_bits_none. reflexivity.
  - cbn [bits_code app].
    erewrite resume_continue
      by (apply sony_bit, bits_code_nonempty, Hrest).
    rewrite IH by (cbn [bit_counter]; first [exact Hrest | lia]).
    replace (pre ++ _T_SONY :: bit_space _T_SONY 2 (negb (Z.land d 1 =? 0))
                 :: bits_code _T_SONY 2 (Z.shiftr d 1) n)
      with ((pre ++ [_T_SONY; bit_space _T_SONY 2 (negb (Z.land d 1 =? 0))])
              ++ bits_code _T_SONY 2 (Z.shiftr d 1) n)
      by (rewrite <- app_assoc; reflexivity).
    f_equal. unfold add_bits.
    cbn [frames byte_list byte bit_counter end_of_frame].
    f_equal; [apply bit_weight; exact H0 | lia].
Qed.

Lemma top_bit (d : Z) (m : nat) :
  d mod 2 ^ Z.of_nat m
  + (if negb (Z.land (Z.shiftr d (Z.of_nat m)) 1 =? 0) then 2 ^ Z.of_nat m else 0)
  = d mod 2 ^ Z.of_nat (S m).
Proof.
  rewrite Nat2Z.inj_succ, Z.pow_succ_r, (Z.mul_comm 2) by lia.
  assert (0 < 2 ^ Z.of_nat m) by (apply Z.pow_pos_nonneg; lia).
  rewrite Z.rem_mul_r by lia.
  rewrite low_bit, Z.shiftr_div_pow2 by lia.
  pose proof (Z.mod_pos_bound (d / 2 ^ Z.of_nat m) 2 ltac:(lia)).
  destruct (Z.eqb_spec ((d / 2 ^ Z.of_nat m) mod 2) 0) as [E | E]; cbn [negb].
  - rewrite E. ring.
  - replace ((d / 2 ^ Z.of_nat m) mod 2) with 1 by lia. ring.
Qed.

(** The word of a SONY frame fits the width [encode] picks for it. *)
Lemma sony_word_fits (f0 f1 : Z) :
  0 <= f0 < 128 -> 0 <= f1 < 8192 ->
  let d := sony_word [f0; f1] in
  d mod 2 ^ Z.of_nat (sony_bits [f0; f1]) = d /\
  Z.land d 127 = f0 /\ Z.shiftr d 7 = f1.
Proof.
  intros H0 H1 d. subst d. cbn [sony_word sony_bits].
  rewrite Z.shiftl_mul_pow2 by lia. change (2 ^ 7) with 128.
  split; [|split].
  - apply Z.mod_small.
    destruct (Z.geb_spec f1 256); [|destruct (Z.geb_spec f1 32)];
      cbn; lia.
  - change 127 with (Z.ones 7). rewrite Z.land_ones by lia.
    change (2 ^ 7) with 128.
    rewrite Z.mod_add by lia. apply Z.mod_small; lia.
  - rewrite Z.shiftr_div_pow2 by lia. change (2 ^ 7) with 128.
    rewrite Z.div_add by lia.
    rewrite (Z.div_small f0) by lia. lia.
Qed.

Lemma sony_bits_cases (frame : list Z) :
  sony_bits frame = 12%nat \/ sony_bits frame = 15%nat \/ sony_bits frame = 20%nat.
Proof.
  destruct frame as [|f0 [|f1 rest]]; cbn; auto.
  destruct (f1 >=? 256); auto. destruct (f1 >=? 32); auto.
Qed.

Lemma bits_units_bound (c d : Z) (n : nat) :
  2 <= c -> forall d, 2 * Z.of_nat n <= bits_units c d n <= c * Z.of_nat n.
Proof.
  intros Hc. induction n as [|n IH]; intros d'.
  - cbn. lia.
  - cbn [bits_units]. specialize (IH (Z.shiftr d' 1)).
    destruct (Z.land d' 1 =? 0); lia.
Qed.

Lemma sony_gap_long (frame : list Z) :
  5000 < wait_space FORMAT_SONY _T_SONY (frame_units FORMAT_SONY frame).
Proof.
  unfold wait_space, frame_units. eval_fmt. unfold _T_SONY.
  pose proof (bits_units_bound 3 0 (sony_bits frame) ltac:(lia) (sony_word frame)) as Hu.
  assert (Z.of_nat (sony_bits frame) <= 20)
    by (destruct (sony_bits_cases frame) as [-> | [-> | ->]]; lia).
  set (u := bits_units 3 (sony_word frame) (sony_bits frame)) in *.
  change (100 / 2) with 50.
  assert (66 <= (45000 - 600 * (4 + u) + 50) / 100)
    by (apply Z.div_le_lower_bound; lia).
  lia.
Qed.

Lemma data_code_sony (f : list Z) :
  data_code FORMAT_SONY _T_SONY f = bits_code _T_SONY 2 (sony_word f) (sony_bits f).
Proof. reflexivity. Qed.

Lemma sony_frames_run (fs : list (list Z)) :
  forall f pre done,
    Forall sony_frame (f :: fs) ->
    resume sony_body pre
           (data_code FORMAT_SONY _T_SONY f
              ++ frames_code FORMAT_SONY _T_SONY (Some (frame_units FORMAT_SONY f)) fs)
           (mk_dec_state done [] 0 0 false) =
    Ok (Tuple FORMAT_SONY (done ++ f :: fs)).
Proof.
  induction fs as [|f' fs' IH]; intros f pre done Hvalid;
    inversion Hvalid as [|? ? (f0 & f1 & -> & H0 & H1) Hvalid']; subst;
    destruct (sony_word_fits f0 f1 H0 H1) as (Hfit & Hlow & Hhigh);
    rewrite data_code_sony.
  - cbn [frames_code]. rewrite app_nil_r.
    assert (Hn : exists m, sony_bits [f0; f1] = S m /\
                           (Z.of_nat m + 1 = 12 \/ Z.of_nat m + 1 = 15 \/ Z.of_nat m + 1 = 20)).
    { destruct (sony_bits_cases [f0; f1]) as [-> | [-> | ->]];
        [exists 11%nat | exists 14%nat | exists 19%nat]; split; try reflexivity; lia. }
    destruct Hn as (m & Hm & Hcases).
    rewrite Hm in *.
    replace (S m) with (m + 1)%nat by lia.
    rewrite bits_code_app.
    rewrite sony_bits_run by (cbn; first [discriminate | lia]).
    cbn [bits_code].
    erewrite resume_return
      by (apply sony_final_bit; cbn [add_bits bit_counter]; lia).
    unfold sony_flush, add_bits.
    cbn [frames byte_list byte bit_counter end_of_frame app].
    do 3 f_equal.
    assert (Hd : (if negb (Z.land (Z.shiftr (sony_word [f0; f1]) (Z.of_nat m)) 1 =? 0)
                  then 0 + sony_word [f0; f1] mod 2 ^ Z.of_nat m * 2 ^ 0
                       + Z.shiftl 1 (0 + Z.of_nat m)
                  else 0 + sony_word [f0; f1] mod 2 ^ Z.of_nat m * 2 ^ 0)
                 = sony_word [f0; f1]).
    { etransitivity; [|exact Hfit]. rewrite <- top_bit.
      rewrite Z.shiftl_1_l, !Z.add_0_l. change (2 ^ 0) with 1.
      destruct (negb _); ring. }
    rewrite Hd, Hlow, Hhigh. reflexivity.
  - cbn [frames_code].
    inversion Hvalid' as [|? ? (g0 & g1 & -> & _ & _) _]; subst.
    rewrite data_code_sony.
    assert (Hnext : exists z rest, bits_code _T_SONY 2 (sony_word [g0; g1]) (sony_bits [g0; g1])
                                   ++ stop_code FORMAT_SONY _T_SONY
                                   ++ frames_code FORMAT_SONY _T_SONY
                                        (Some (frame_units FORMAT_SONY [g0; g1])) fs'
                                   = z :: rest).
    { destruct (sony_bits_cases [g0; g1]) as [-> | [-> | ->]];
        cbn [bits_code app]; eauto. }
    destruct Hnext as (z & rest & Hnext).
    rewrite sony_bits_run by (cbn; first [discriminate | lia]).
    change (leader_code FORMAT_SONY _T_SONY) with [_T_SONY * 4].
    cbn [app]. rewrite Hnext.
    erewrite resume_continue by (apply sony_boundary, sony_gap_long).
    rewrite <- Hnext.
    change (stop_code FORMAT_SONY _T_SONY) with (@nil Z). cbn [app].
    rewrite <- (data_code_sony [g0; g1]).
    unfold sony_flush, add_bits.
    cbn [frames byte_list byte bit_counter end_of_frame app].
    rewrite Hfit. change (2 ^ 0) with 1.
    rewrite Z.add_0_l, Z.mul_1_r, Hlow, Hhigh.
    rewrite IH by assumption.
    rewrite <- app_assoc. reflexivity.
Qed.

(** ** Decoding what [encode] returns *)

Lemma len_bits_code (t k d : Z) (n : nat) : len (bits_code t k d n) = 2 * Z.of_nat n.
Proof.
  revert d. induction n as [|n IH]; intros d.
  - reflexivity.
  - cbn [bits_code]. rewrite !len_cons, IH. lia.
Qed.

Lemma decode_start (code : list Z) (ir_format : string) (t : Z) :
  10 <= len code ->
  leader code = Ok (Some (ir_format, t)) ->
  decode code =
  if (ir_format =? FORMAT_AEHA)%string || (ir_format =? FORMAT_NEC)%string then
    for_loop (decode_pair code ir_format t) (fun _ => Ok PyNone)
             (range 2 (len code) 2) (mk_dec_state [] [] 0 0 false)
  else if (ir_format =? FORMAT_SONY)%string then
    for_loop (decode_sony code ir_format t) (fun _ => Ok PyNone)
             (range 1 (len code) 2) (mk_dec_state [] [] 0 0 false)
  else Ok PyNone.
Proof.
  intros Hlen Hlead. unfold decode. rewrite Hlead. cbn [bind].
  destruct (Z.ltb_spec (len code) 10); [lia|].
  assert (5 <= len code / 2) by (apply Z.div_le_lower_bound; lia).
  destruct (Z.eqb_spec (len code / 2) 0); [lia|].
  reflexivity.
Qed.

Lemma decode_pair_frames (ir_format : string) (t : Z) (fs : list (list Z)) :
  pair_format ir_format t ->
  fs <> [] ->
  Forall byte_frame fs ->
  gaps_long ir_format t fs ->
  decode (frames_code ir_format t None fs) = Ok (Tuple ir_format fs).
Proof.
  intros Hfmt Hne Hvalid Hgaps.
  destruct fs as [|f fs]; [contradiction|].
  cbn [frames_code app].
  pose proof (pair_frames_run ir_format t Hfmt fs f
                (leader_code ir_format t) [] Hvalid Hgaps) as Hrun.
  inversion Hvalid as [|? ? [Hf _] _]; subst.
  destruct f as [|b f]; [contradiction|].
  set (rest := data_code ir_format t (b :: f) ++ stop_code ir_format t
                 ++ frames_code ir_format t (Some (frame_units ir_format (b :: f))) fs) in *.
  assert (Hrest : 16 <= len rest).
  { subst rest. unfold data_code.
    replace ((ir_format =? FORMAT_SONY)%string) with false
      by (destruct Hfmt as [[-> _] | [-> _]]; reflexivity).
    cbn [flat_map]. rewrite <- !app_assoc, len_app, len_bits_code.
    match goal with |- context [len ?l] => pose proof (len_nonneg l) end. lia. }
  unfold resume in Hrun.
  destruct Hfmt as [[-> ->] | [-> ->]];
    [ change (leader_code FORMAT_AEHA _T_AEHA) with [_T_AEHA * 8; _T_AEHA * 4] in *
    | change (leader_code FORMAT_NEC _T_NEC) with [_T_NEC * 16; _T_NEC * 8] in * ].
  - rewrite (decode_start _ FORMAT_AEHA _T_AEHA).
    + exact Hrun.
    + cbn [app]. rewrite !len_cons. lia.
    + unfold leader. cbn [app].
      rewrite !(cl_at_within _ _ _ _ (getitem_0 _ _)) by in_targets.
      rewrite !(cl_at_within _ _ _ _ (getitem_1 _ _ _)) by in_targets.
      eval_tests. reflexivity.
  - rewrite (decode_start _ FORMAT_NEC _T_NEC).
    + exact Hrun.
    + cbn [app]. rewrite !len_cons. lia.
    + unfold leader. cbn [app].
      rewrite !(cl_at_within _ _ _ _ (getitem_0 _ _)) by in_targets.
      rewrite !(cl_at_within _ _ _ _ (getitem_1 _ _ _)) by in_targets.
      eval_tests. reflexivity.
Qed.

Lemma decode_sony_frames (fs : list (list Z)) :
  fs <> [] ->
  Forall sony_frame fs ->
  decode (frames_code FORMAT_SONY _T_SONY None fs) = Ok (Tuple FORMAT_SONY fs).
Proof.
  intros Hne Hvalid.
  destruct fs as [|f fs]; [contradiction|].
  cbn [frames_code app].
  pose proof (sony_frames_run fs f [_T_SONY * 4] [] Hvalid) as Hrun.
  change (leader_code _ _) with [_T_SONY * 4].
  change (stop_code _ _) with (@nil Z). cbn [app].
  set (rest := data_code FORMAT_SONY _T_SONY f
                 ++ frames_code FORMAT_SONY _T_SONY (Some (frame_units FORMAT_SONY f)) fs) in *.
  assert (Hrest : exists rest', rest = _T_SONY :: rest' /\ 23 <= len rest').
  { subst rest. rewrite data_code_sony.
    destruct (sony_bits_cases f) as [-> | [-> | ->]]; cbn [bits_code app];
      eexists; (split; [reflexivity|]); rewrite !len_cons;
      match goal with |- context [len ?l] => pose proof (len_nonneg l) end; lia. }
  destruct Hrest as (rest' & Hrest & Hlen).
  unfold resume in Hrun.
  rewrite (decode_start _ FORMAT_SONY _T_SONY).
  - exact Hrun.
  - cbn [app]. rewrite Hrest, !len_cons. lia.
  - unfold leader. rewrite Hrest. cbn [app].
    rewrite !(cl_at_within _ _ _ _ (getitem_0 _ _)) by in_targets.
    rewrite !(cl_at_within _ _ _ _ (getitem_1 _ _ _)) by in_targets.
    eval_tests. reflexivity.
Qed.

(** ** Round trip *)

Lemma nec_gap_long (u : Z) : u <= 183 -> 5000 < wait_space FORMAT_NEC _T_NEC u.
Proof.
  intros Hu. unfold wait_space. eval_fmt. unfold _T_NEC. change (100 / 2) with 50.
  assert (55 <= (108000 - 560 * u + 50) / 100) by (apply Z.div_le_lower_bound; lia).
  lia.
Qed.

Lemma nec_gaps_long (fs : list (list Z)) :
  nec_frames_fit fs -> gaps_long FORMAT_NEC _T_NEC fs.
Proof.
  induction fs as [|f fs IH]; cbn [nec_frames_fit gaps_long]; [trivial|].
  intros [Hf Hfs]. split; [|exact (IH Hfs)].
  intros Hne. apply nec_gap_long, Hf, Hne.
Qed.

(** NEC frames of up to 4 bytes, the protocol's own size, always fit. *)
Lemma nec_short_frames_fit (fs : list (list Z)) :
  Forall (fun f => len f <= 4) fs -> nec_frames_fit fs.
Proof.
  induction 1 as [|f fs Hf _ IH]; cbn [nec_frames_fit]; [trivial|].
  split; [|exact IH]. intros _.
  unfold frame_units. eval_fmt.
  assert (Hsum : fold_right (fun b u => bits_units 4 b 8 + u) 0 f <= 32 * len f).
  { clear Hf. induction f as [|b f IHf]; cbn [fold_right].
    - unfold len. cbn. lia.
    - rewrite len_cons.
      pose proof (bits_units_bound 4 0 8 ltac:(lia) b). lia. }
  lia.
Qed.

Lemma aeha_gaps_long (fs : list (list Z)) : gaps_long FORMAT_AEHA _T_AEHA fs.
Proof.
  induction fs as [|f fs IH]; cbn [gaps_long]; [trivial|].
  split; [|exact IH]. intros _. unfold wait_space. eval_fmt. unfold _T_WAIT. lia.
Qed.

Lemma sony_frame_two_elements (fs : list (list Z)) :
  Forall sony_frame fs -> Forall two_elements fs.
Proof.
  apply Forall_impl. intros f (f0 & f1 & -> & _). exists f0, f1. reflexivity.
Qed.

(** C1 (amended): for AEHA, NEC and SONY and every non-empty sequence of
    frames -- non-empty lists of bytes 0..255 for AEHA and NEC, every NEC frame
    but the last of at most 183 units; [[low7, high]] with [low7 < 0x80] and
    [high < 0x2000] for SONY -- [decode (encode ir_format frames)] returns
    [(ir_format, frames)].  [encode NEC [[0x12, 0x34]]] is the leader
    (8960, 4480), the 16 mark/space pairs of the bits of 0x12 then 0x34, least
    significant bit first, and a trailing mark 560, which decodes to
    [(NEC, [[0x12, 0x34]])]. *)
Theorem decode_encode_round_trip (ir_format : string) (fs : list (list Z)) :
  supported ir_format ->
  valid_frames ir_format fs ->
  round_trip ir_format fs = Ok (Tuple ir_format fs) /\
  encode FORMAT_NEC [[0x12; 0x34]] =
    Ok ([8960; 4480]
          ++ [560; 560; 560; 1680; 560; 560; 560; 560;
              560; 1680; 560; 560; 560; 560; 560; 560]
          ++ [560; 560; 560; 560; 560; 1680; 560; 560;
              560; 1680; 560; 1680; 560; 560; 560; 560]
          ++ [560]) /\
  decode ([8960; 4480]
            ++ [560; 560; 560; 1680; 560; 560; 560; 560;
                560; 1680; 560; 560; 560; 560; 560; 560]
            ++ [560; 560; 560; 560; 560; 1680; 560; 560;
                560; 1680; 560; 1680; 560; 560; 560; 560]
            ++ [560]) =
    Ok (Tuple FORMAT_NEC [[0x12; 0x34]]).
Proof.
  intros Hfmt (Hne & Hframes & Hfit).
  split; [|split; vm_compute; reflexivity].
  unfold round_trip.
  destruct Hfmt as [-> | [-> | ->]]; cbn [String.eqb] in Hframes.
  - rewrite encode_eq by (first [left; reflexivity | discriminate]).
    cbn [bind]. apply decode_pair_frames; try assumption.
    + left. split; reflexivity.
    + apply aeha_gaps_long.
  - rewrite encode_eq by (first [right; left; reflexivity | discriminate]).
    cbn [bind]. apply decode_pair_frames; try assumption.
    + right. split; reflexivity.
    + apply nec_gaps_long, Hfit. reflexivity.
  - rewrite encode_eq
      by (first [right; right; reflexivity | intros _; apply sony_frame_two_elements, Hframes]).
    cbn [bind]. apply decode_sony_frames; assumption.
Qed.

Lemma decode_encode_round_trip_witness :
  round_trip FORMAT_AEHA [[0x01]; [0x02]] = Ok (Tuple FORMAT_AEHA [[0x01]; [0x02]]) /\
  round_trip FORMAT_NEC [[0x12; 0x34]] = Ok (Tuple FORMAT_NEC [[0x12; 0x34]]) /\
  round_trip FORMAT_SONY [[0x15; 0x1FFF]; [0x15; 0]] =
    Ok (Tuple FORMAT_SONY [[0x15; 0x1FFF]; [0x15; 0]]).
Proof.
  split; [|split].
  - apply decode_encode_round_trip.
    + left. reflexivity.
    + split; [discriminate|]. split; [|discriminate].
      cbn. repeat constructor; try discriminate; lia.
  - apply decode_encode_round_trip.
    + right. left. reflexivity.
    + split; [discriminate|]. split.
      * cbn. repeat constructor; try discriminate; lia.
      * intros _. cbn. tauto.
  - apply decode_encode_round_trip.
    + right. right. reflexivity.
    + split; [discriminate|]. split; [|discriminate].
      cbn. repeat constructor.
      * exists 0x15, 0x1FFF. split; [reflexivity|lia].
      * exists 0x15, 0. split; [reflexivity|lia].
Defined.

(** C1 as stated fails: a NEC frame of five bytes 0xFF leaves a gap of 5000,
    which [decode] does not take for a frame gap, and [encode] keeps only 13
    bits of the high part of a SONY frame. *)
Lemma round_trip_loses_long_nec_frames_and_wide_sony_words :
  (loosely_valid_frames FORMAT_NEC [[255; 255; 255; 255; 255]; [0]] /\
   round_trip FORMAT_NEC [[255; 255; 255; 255; 255]; [0]] = Ok (Tuple FORMAT_UNKNOWN []) /\
   round_trip FORMAT_NEC [[255; 255; 255; 255; 255]; [0]]
     <> Ok (Tuple FORMAT_NEC [[255; 255; 255; 255; 255]; [0]])) /\
  (loosely_valid_frames FORMAT_SONY [[0; 0x2000]] /\
   round_trip FORMAT_SONY [[0; 0x2000]] = Ok (Tuple FORMAT_SONY [[0; 0]]) /\
   round_trip FORMAT_SONY [[0; 0x2000]] <> Ok (Tuple FORMAT_SONY [[0; 0x2000]])).
Proof.
  split; (split; [|split]).
  - split; [discriminate|]. cbn. repeat constructor; try discriminate; lia.
  - vm_compute. reflexivity.
  - vm_compute. discriminate.
  - split; [discriminate|]. cbn. repeat constructor.
    exists 0, 0x2000. split; [reflexivity|lia].
  - vm_compute. reflexivity.
  - vm_compute. discriminate.
Qed.

(** ** Loops *)

Section Loops.

Context {I St R : Type}.
Variables (body : I -> St -> pyres (ctl St R)) (after : St -> pyres R).

Lemma for_loop_app (idx1 idx2 : list I) (s : St) :
  for_loop body after (idx1 ++ idx2) s =
  (c <- run_to body idx1 s ;;
   match c with
   | Continue s' => for_loop body after idx2 s'
   | Return r => Ok r
   end).
Proof.
  revert s. induction idx1 as [|i idx1 IH]; intros s.
  - reflexivity.
  - cbn [app for_loop run_to].
    destruct (body i s) as [[s' | r] | e]; cbn [bind]; [apply IH | reflexivity..].
Qed.

(** A result of the loop comes from a [return] of the body at some index,
    reached through the iterations before it, or from the code after the
    loop. *)
Lemma for_loop_result (idx : list I) (s : St) (r : R) :
  for_loop body after idx s = Ok r ->
  (exists idx1 i idx2 s',
      idx = idx1 ++ i :: idx2 /\
      run_to body idx1 s = Ok (Continue s') /\
      body i s' = Ok (Return r))
  \/ (exists s', run_to body idx s = Ok (Continue s') /\ after s' = Ok r).
Proof.
  revert s. induction idx as [|i idx IH]; intros s H.
  - right. exists s. split; [reflexivity | exact H].
  - cbn [for_loop] in H.
    destruct (body i s) as [[s1 | r1] | e] eqn:Hb; cbn [bind] in H.
    + destruct (IH s1 H) as [(idx1 & j & idx2 & s' & -> & Hrun & Hret) | (s' & Hrun & Haft)].
      * left. exists (i :: idx1), j, idx2, s'.
        split; [reflexivity|]. split; [|exact Hret].
        cbn [run_to]. rewrite Hb. exact Hrun.
      * right. exists s'. split; [|exact Haft].
        cbn [run_to]. rewrite Hb. exact Hrun.
    + injection H as <-. left. exists [], i, idx, s.
      split; [reflexivity|]. split; [reflexivity | exact Hb].
    + discriminate.
Qed.

End Loops.

(** ** What the loop bodies of [decode] can return *)

Ltac break_body H :=
  repeat first
    [ discriminate H
    | match type of H with
      | context [if ?b then _ else _] => is_var b; destruct b
      | context [match ?o with Some _ => _ | None => _ end] => is_var o; destruct o
      | context [bind ?c _] =>
          let E := fresh "E" in
          destruct c as [?|?] eqn:E; cbn [bind] in H
      end ].

Lemma decode_pair_return (code : list Z) (ir_format : string) (t i : Z)
      (s : dec_state) (r : pyval) :
  decode_pair code ir_format t i s = Ok (Return r) ->
  r = unknown \/
  (r = Tuple ir_format (frames s ++ [byte_list s]) /\
   i = len code - 1 /\ end_of_frame s = false /\ bit_counter s = 0).
Proof.
  unfold decode_pair. intros H.
  destruct (end_of_frame s) eqn:Heof;
    destruct (Z.eqb_spec i (len code - 1)) as [Hi | Hi];
    try destruct (ir_format =? FORMAT_AEHA)%string;
    try destruct (ir_format =? FORMAT_NEC)%string;
    break_body H; try (injection H as <-; left; reflexivity).
  all: injection H as <-; right.
  all: unfold and_ in E; break_body E.
  all: injection E as E; apply Z.eqb_eq in E; auto.
Qed.

Lemma decode_sony_return (code : list Z) (ir_format : string) (t i : Z)
      (s : dec_state) (r : pyval) :
  decode_sony code ir_format t i s = Ok (Return r) ->
  r = unknown \/
  (i = len code - 2 /\
   exists byte',
     let s' := mk_dec_state (frames s) (byte_list s) byte' (bit_counter s + 1)
                            (end_of_frame s) in
     (bit_counter s' = 12 \/ bit_counter s' = 15 \/ bit_counter s' = 20) /\
     r = Tuple ir_format (sony_flush s')).
Proof.
  unfold decode_sony. intros H.
  destruct (and_ (and_ (long_space code i) (cl_at code (i + 1) (t * 4)))
                 (Ok (i <=? len code - 3))) as [[|]|e]; cbn [bind] in H;
    [discriminate| |discriminate].
  destruct (and_ (cl_at code i t) (cl_at code (i + 1) t)) as [[|]|e];
    cbn [bind] in H; [| |discriminate].
  - destruct (Z.eqb_spec i (len code - 2)) as [Hi | Hi]; [|discriminate].
    cbn [bit_counter] in H.
    destruct (Z.eqb_spec (bit_counter s + 1) 12) as [H12 | H12];
      [| destruct (Z.eqb_spec (bit_counter s + 1) 15) as [H15 | H15];
         [| destruct (Z.eqb_spec (bit_counter s + 1) 20) as [H20 | H20] ] ];
      cbn [orb] in H; injection H as <-;
      try (left; reflexivity);
      right; (split; [exact Hi|]); exists (byte s); cbn [bit_counter];
      (split; [lia | reflexivity]).
  - destruct (and_ (cl_at code i t) (cl_at code (i + 1) (t * 2))) as [[|]|e];
      cbn [bind] in H; [| |discriminate].
    + destruct (Z.eqb_spec i (len code - 2)) as [Hi | Hi]; [|discriminate].
      cbn [bit_counter] in H.
      destruct (Z.eqb_spec (bit_counter s + 1) 12) as [H12 | H12];
        [| destruct (Z.eqb_spec (bit_counter s + 1) 15) as [H15 | H15];
           [| destruct (Z.eqb_spec (bit_counter s + 1) 20) as [H20 | H20] ] ];
        cbn [orb] in H; injection H as <-;
        try (left; reflexivity);
        right; (split; [exact Hi|]);
        exists (byte s + Z.shiftl 1 (bit_counter s)); cbn [bit_counter];
        (split; [lia | reflexivity]).
    + injection H as <-. left. reflexivity.
Qed.

(** ** The leader *)

Lemma getitem_inside (l : list Z) (i : Z) :
  0 <= i < len l -> exists x, getitem l i = Ok x.
Proof.
  intros Hi. unfold len in Hi.
  destruct (nth_error l (Z.to_nat i)) as [x|] eqn:Hx.
  - exists x. rewrite <- (Z2Nat.id i) by lia. apply getitem_nth, Hx.
  - apply nth_error_None in Hx. lia.
Qed.

Lemma leader_cases (code : list Z) (l : option (string * Z)) :
  leader code = Ok l ->
  l = Some (FORMAT_AEHA, _T_AEHA) \/ l = Some (FORMAT_NEC, _T_NEC) \/
  l = Some (FORMAT_SONY, _T_SONY) \/ l = None.
Proof.
  unfold leader. intros H. break_body H; injection H as <-; auto.
Qed.

Lemma decode_cases (code : list Z) :
  (len code < 10 /\ decode code = Ok unknown) \/
  (10 <= len code /\ exists e, leader code = Raise e /\ decode code = Raise e) \/
  (10 <= len code /\ leader code = Ok None /\ decode code = Ok unknown) \/
  (10 <= len code /\
   exists ir_format t,
     pair_format ir_format t /\ leader code = Ok (Some (ir_format, t)) /\
     decode code = for_loop (decode_pair code ir_format t) (fun _ => Ok PyNone)
                            (range 2 (len code) 2) dec_init) \/
  (10 <= len code /\ leader code = Ok (Some (FORMAT_SONY, _T_SONY)) /\
   decode code = for_loop (decode_sony code FORMAT_SONY _T_SONY) (fun _ => Ok PyNone)
                          (range 1 (len code) 2) dec_init).
Proof.
  destruct (Z.ltb_spec (len code) 10) as [Hlt | Hge].
  - left. split; [exact Hlt|]. unfold decode.
    destruct (Z.ltb_spec (len code) 10); [reflexivity | lia].
  - right.
    assert (Hdec : decode code =
                   (l <- leader code ;;
                    match l with
                    | None => Ok unknown
                    | Some (ir_format, t) =>
                        if (ir_format =? FORMAT_AEHA)%string || (ir_format =? FORMAT_NEC)%string
                        then for_loop (decode_pair code ir_format t) (fun _ => Ok PyNone)
                                      (range 2 (len code) 2) dec_init
                        else if (ir_format =? FORMAT_SONY)%string
                        then for_loop (decode_sony code ir_format t) (fun _ => Ok PyNone)
                                      (range 1 (len code) 2) dec_init
                        else Ok PyNone
                    end)).
    { unfold decode.
      destruct (Z.ltb_spec (len code) 10); [lia|].
      assert (5 <= len code / 2) by (apply Z.div_le_lower_bound; lia).
      destruct (Z.eqb_spec (len code / 2) 0); [lia | reflexivity]. }
    destruct (leader code) as [l | e] eqn:Hl.
    + destruct (leader_cases code l Hl) as [-> | [-> | [-> | ->]]]; cbn [bind] in Hdec.
      * right. right. left. split; [exact Hge|].
        exists FORMAT_AEHA, _T_AEHA. split; [left; split; reflexivity|].
        split; [reflexivity | exact Hdec].
      * right. right. left. split; [exact Hge|].
        exists FORMAT_NEC, _T_NEC. split; [right; split; reflexivity|].
        split; [reflexivity | exact Hdec].
      * right. right. right. split; [exact Hge|]. split; [reflexivity | exact Hdec].
      * right. left. split; [exact Hge|]. split; [reflexivity | exact Hdec].
    + left. split; [exact Hge|]. exists e. split; [reflexivity | exact Hdec].
Qed.

Lemma pair_loop_result (code : list Z) (ir_format : string) (t : Z) (r : pyval) :
  for_loop (decode_pair code ir_format t) (fun _ => Ok PyNone)
           (range 2 (len code) 2) dec_init = Ok r ->
  r = unknown \/ r = PyNone \/ exists fs, r = Tuple ir_format fs.
Proof.
  intros H.
  destruct (for_loop_result _ _ _ _ _ H)
    as [(idx1 & i & idx2 & s' & _ & _ & Hret) | (s' & _ & Haft)].
  - destruct (decode_pair_return _ _ _ _ _ _ Hret) as [-> | [-> _]]; eauto.
  - injection Haft as <-. auto.
Qed.

(** ** SONY: the final bit count *)

Lemma sony_last_pair_fails (code : list Z) (s : dec_state) :
  10 <= len code ->
  ~ sony_count (bit_counter s + 1) ->
  decode_sony code FORMAT_SONY _T_SONY (len code - 2) s = Ok (Return unknown).
Proof.
  intros Hlen Hbc. unfold sony_count in Hbc.
  destruct (getitem_inside code (len code - 2) ltac:(lia)) as (x & Hx).
  destruct (getitem_inside code (len code - 2 + 1) ltac:(lia)) as (y & Hy).
  unfold decode_sony.
  rewrite !(cl_at_within _ _ _ _ Hx), !(cl_at_within _ _ _ _ Hy) by in_targets.
  rewrite (long_space_gt _ _ _ Hx).
  replace (len code - 2 <=? len code - 3) with false by (symmetry; apply Z.leb_gt; lia).
  rewrite Z.eqb_refl.
  destruct (5000 <? x), (within y (_T_SONY * 4)), (within x _T_SONY),
    (within y _T_SONY), (within y (_T_SONY * 2));
    cbn [and_ bind bit_counter];
    try reflexivity;
    (destruct (Z.eqb_spec (bit_counter s + 1) 12); [lia|]);
    (destruct (Z.eqb_spec (bit_counter s + 1) 15); [lia|]);
    (destruct (Z.eqb_spec (bit_counter s + 1) 20); [lia|]);
    reflexivity.
Qed.

(** When [decode] returns SONY frames, the loop has read the pair at
    [len(code) - 2] as a data bit that brought [bit_counter] to exactly 12, 15
    or 20, and the frames are those flushed there; when the loop reads that
    pair of a SONY code with any other count, [decode] returns
    [(Unknown, [])].  The loop reads that pair only in a code of odd
    length. *)
Lemma sony_final_count_decides (code : list Z) :
  (forall fs,
      decode code = Ok (Tuple FORMAT_SONY fs) ->
      exists s byte',
        sony_final_pair code s /\
        let s' := mk_dec_state (frames s) (byte_list s) byte' (bit_counter s + 1)
                               (end_of_frame s) in
        sony_count (bit_counter s') /\ fs = sony_flush s') /\
  (forall s,
      10 <= len code ->
      leader code = Ok (Some (FORMAT_SONY, _T_SONY)) ->
      sony_final_pair code s ->
      ~ sony_count (bit_counter s + 1) ->
      decode code = Ok unknown).
Proof.
  split.
  - intros fs Hdec.
    destruct (decode_cases code)
      as [[_ H] | [[_ (e & _ & H)] | [[_ [_ H]] | [[_ (f & t & Hf & _ & H)] | [_ [_ H]]]]]];
      rewrite H in Hdec; try discriminate.
    + apply pair_loop_result in Hdec.
      destruct Hdec as [Hu | [Hn | (fs' & Ht)]]; try discriminate.
      injection Ht as <- _. destruct Hf as [[Hf _] | [Hf _]]; discriminate.
    + destruct (for_loop_result _ _ _ _ _ Hdec)
        as [(idx1 & i & idx2 & s & Hidx & Hrun & Hret) | (s & _ & Haft)];
        [|discriminate].
      destruct (decode_sony_return _ _ _ _ _ _ Hret) as [Hu | [-> (byte' & Hbc & Ht)]];
        [discriminate|].
      injection Ht as ->.
      exists s, byte'. split; [exists idx1, idx2; split; assumption|].
      split; [exact Hbc | reflexivity].
  - intros s Hlen Hlead (idx1 & idx2 & Hidx & Hrun) Hbc.
    rewrite (decode_start _ _ _ Hlen Hlead). cbn [String.eqb orb]. eval_fmt. cbn [orb].
    fold dec_init. rewrite Hidx, for_loop_app, Hrun. cbn [bind for_loop].
    rewrite sony_last_pair_fails by assumption. reflexivity.
Qed.

Lemma sony_final_count_decides_example :
  (exists s byte',
      sony_final_pair
        [2400; 600; 1200; 600; 600; 600; 1200; 600; 600; 600; 1200; 600; 600;
         600; 600; 600; 1200; 600; 600; 600; 600; 600; 600; 600; 600] s /\
      let s' := mk_dec_state (frames s) (byte_list s) byte' (bit_counter s + 1)
                             (end_of_frame s) in
      sony_count (bit_counter s') /\ [[21; 1]] = sony_flush s') /\
  decode [2400; 600; 1200; 600; 600; 600; 1200; 600; 600; 600; 1200; 600; 600;
          600; 600; 600; 1200; 600; 600; 600; 600; 600; 600] = Ok unknown.
Proof.
  split.
  - apply (proj1 (sony_final_count_decides _) [[21; 1]]).
    vm_compute. reflexivity.
  - eapply (proj2 (sony_final_count_decides _)).
    + vm_compute. discriminate.
    + vm_compute. reflexivity.
    + exists [1; 3; 5; 7; 9; 11; 13; 15; 17; 19], [].
      split; vm_compute; reflexivity.
    + intros [H | [H | H]]; vm_compute in H; discriminate H.
Defined.

(** C6, at an input where it fails: the length test of [decode] lets codes
    of even length through (the slip of C2), and in those the SONY loop never
    meets [i == len(code) - 2], where the bit count is tested.  On a SONY
    leader followed by eight elements of 600 the loop reads four data bits at
    the indices 1, 3, 5 and 7 and then, at index 9, reads [code[10]]:
    [decode] raises [IndexError] with a bit count of 4, where the claim has
    [(Unknown, [])].  With one more element the code has odd length, the
    count 5 is tested at the final pair, and the result is
    [(Unknown, [])]. *)
Theorem sony_even_length_raises_at_last_index :
  let code := [2400; 600; 600; 600; 600; 600; 600; 600; 600; 600] in
  range 1 (len code) 2 = [1; 3; 5; 7; 9] /\
  (exists s,
      run_to (decode_sony code FORMAT_SONY _T_SONY) [1; 3; 5; 7] dec_init =
        Ok (Continue s) /\
      bit_counter s = 4 /\
      decode_sony code FORMAT_SONY _T_SONY 9 s = Raise IndexError) /\
  decode code = Raise IndexError /\
  decode (code ++ [600]) = Ok unknown.
Proof.
  cbv zeta. split; [vm_compute; reflexivity|].
  split; [|split; vm_compute; reflexivity].
  eexists. split; [vm_compute; reflexivity|]. split; vm_compute; reflexivity.
Qed.

(** ** Rejected codes *)

Lemma matches_leader_within (c0 c1 m sp : Z) :
  In m decode_targets -> In sp decode_targets ->
  (matches_leader c0 c1 m sp <-> within c0 m && within c1 sp = true).
Proof.
  intros Hm Hsp. unfold matches_leader.
  rewrite !_cl_within by assumption.
  rewrite andb_true_iff. split; intros [H0 H1]; split; congruence.
Qed.

(** C4: a code of fewer than 10 elements decodes to [(Unknown, [])], and so
    does a code of at least 10 elements whose first two match none of the
    leaders (8*425, 4*425), (16*560, 8*560), (4*600, 600) within the default
    tolerance 0.35. *)
Theorem decode_rejects_short_and_leaderless (code : list Z) :
  (len code < 10 -> decode code = Ok (Tuple FORMAT_UNKNOWN [])) /\
  (forall c0 c1 rest,
      code = c0 :: c1 :: rest ->
      10 <= len code ->
      ~ matches_leader c0 c1 (8 * 425) (4 * 425) ->
      ~ matches_leader c0 c1 (16 * 560) (8 * 560) ->
      ~ matches_leader c0 c1 (4 * 600) 600 ->
      decode code = Ok (Tuple FORMAT_UNKNOWN [])).
Proof.
  split.
  - intros Hlen. unfold decode.
    destruct (Z.ltb_spec (len code) 10); [reflexivity | lia].
  - intros c0 c1 rest -> Hlen Ha Hn Hs.
    rewrite matches_leader_within in Ha, Hn, Hs by in_targets.
    unfold decode.
    destruct (Z.ltb_spec (len (c0 :: c1 :: rest)) 10); [lia|].
    assert (5 <= len (c0 :: c1 :: rest) / 2) by (apply Z.div_le_lower_bound; lia).
    destruct (Z.eqb_spec (len (c0 :: c1 :: rest) / 2) 0); [lia|].
    cbn [orb]. unfold leader.
    rewrite !(cl_at_within _ _ _ _ (getitem_0 _ _)) by in_targets.
    rewrite !(cl_at_within _ _ _ _ (getitem_1 _ _ _)) by in_targets.
    change (_T_AEHA * 8) with (8 * 425). change (_T_AEHA * 4) with (4 * 425).
    change (_T_NEC * 16) with (16 * 560). change (_T_NEC * 8) with (8 * 560).
    change (_T_SONY * 4) with (4 * 600). change _T_SONY with 600.
    unfold and_. cbn [bind].
    destruct (within c0 (8 * 425)), (within c1 (4 * 425)),
      (within c0 (16 * 560)), (within c1 (8 * 560)),
      (within c0 (4 * 600)), (within c1 600);
      cbn [andb] in Ha, Hn, Hs; try reflexivity; exfalso; auto.
Qed.

Lemma decode_rejects_short_and_leaderless_witness :
  decode [3400; 1700; 425; 425; 425; 425; 425; 425; 425] = Ok (Tuple FORMAT_UNKNOWN []) /\
  decode [1000; 1000; 560; 560; 560; 560; 560; 560; 560; 560; 560] =
    Ok (Tuple FORMAT_UNKNOWN []).
Proof.
  split.
  - apply (proj1 (decode_rejects_short_and_leaderless _)). vm_compute. reflexivity.
  - eapply (proj2 (decode_rejects_short_and_leaderless _)).
    + reflexivity.
    + vm_compute. discriminate.
    + intros [H _]. vm_compute in H. discriminate H.
    + intros [H _]. vm_compute in H. discriminate H.
    + intros [H _]. vm_compute in H. discriminate H.
Defined.

(** ** Codes of even and of odd length *)

(** C2, at an input where it fails: the length test of [decode] is
    [len(code) // 2 == 0], so a code of even length gets past it; the NEC loop
    then runs off the end of the function, which returns [None], and the SONY
    loop reads [code[len(code)]]. *)
Theorem decode_even_length_returns_none_or_raises :
  decode [8960; 4480; 560; 560; 560; 560; 560; 560; 560; 560] = Ok PyNone /\
  decode [2400; 600; 600; 600; 600; 600; 600; 600; 600; 600] = Raise IndexError.
Proof. split; vm_compute; reflexivity. Qed.

(** Codes of odd length, the ones the length test means to let through, are
    decoded to a pair. *)

Ltac split_tests :=
  cbn [and_ bind orb bit_counter];
  repeat (match goal with
          | |- context [within ?a ?b] => destruct (within a b)
          | |- context [5000 <? ?a] => destruct (5000 <? a)
          | |- context [Z.eqb (bit_counter ?s) ?n] => destruct (Z.eqb (bit_counter s) n)
          | |- context [Z.eqb (bit_counter ?s + 1) ?n] =>
              destruct (Z.eqb (bit_counter s + 1) n)
          end;
          cbn [and_ bind orb bit_counter]).

Lemma decode_pair_inside (code : list Z) (ir_format : string) (t i : Z) (s : dec_state) :
  pair_format ir_format t ->
  0 <= i -> i + 1 < len code ->
  (exists s', decode_pair code ir_format t i s = Ok (Continue s')) \/
  decode_pair code ir_format t i s = Ok (Return unknown).
Proof.
  intros Hfmt H0 Hi.
  destruct (getitem_inside code i ltac:(lia)) as (x & Hx).
  destruct (getitem_inside code (i + 1) ltac:(lia)) as (y & Hy).
  unfold decode_pair.
  replace (i =? len code - 1) with false by (symmetry; apply Z.eqb_neq; lia).
  destruct Hfmt as [[-> ->] | [-> ->]]; eval_fmt;
    rewrite !(cl_at_within _ _ _ _ Hx), !(cl_at_within _ _ _ _ Hy) by in_targets;
    rewrite (long_space_gt _ _ _ Hy);
    destruct (end_of_frame s); split_tests; eauto.
Qed.

Lemma decode_pair_last (code : list Z) (ir_format : string) (t : Z) (s : dec_state) :
  pair_format ir_format t ->
  1 <= len code ->
  exists r, decode_pair code ir_format t (len code - 1) s = Ok (Return r) /\
            (r = unknown \/ exists fs, r = Tuple ir_format fs).
Proof.
  intros Hfmt Hlen.
  destruct (getitem_inside code (len code - 1) ltac:(lia)) as (x & Hx).
  unfold decode_pair. rewrite Z.eqb_refl.
  destruct (end_of_frame s); [eauto|].
  destruct Hfmt as [[-> ->] | [-> ->]];
    rewrite !(cl_at_within _ _ _ _ Hx) by in_targets;
    split_tests; eauto.
Qed.

Lemma pair_loop_odd (code : list Z) (ir_format : string) (t : Z) :
  pair_format ir_format t ->
  forall (k : nat) (i : Z) (s : dec_state),
    0 <= i -> i + 2 * Z.of_nat k = len code - 1 ->
    exists r,
      for_loop (decode_pair code ir_format t) (fun _ => Ok PyNone)
               (range i (len code) 2) s = Ok r /\
      (r = unknown \/ exists fs, r = Tuple ir_format fs).
Proof.
  intros Hfmt. induction k as [|k IH]; intros i s H0 Hi.
  - rewrite range_step by lia. cbn [for_loop].
    replace i with (len code - 1) by lia.
    destruct (decode_pair_last code ir_format t s Hfmt ltac:(lia)) as (r & -> & Hr).
    exists r. split; [reflexivity | exact Hr].
  - rewrite range_step by lia. cbn [for_loop].
    destruct (decode_pair_inside code ir_format t i s Hfmt H0 ltac:(lia)) as [(s' & ->) | ->];
      cbn [bind].
    + apply IH; lia.
    + exists unknown. split; [reflexivity | left; reflexivity].
Qed.

Lemma decode_sony_inside (code : list Z) (i : Z) (s : dec_state) :
  0 <= i -> i + 1 < len code -> i <> len code - 2 ->
  (exists s', decode_sony code FORMAT_SONY _T_SONY i s = Ok (Continue s')) \/
  decode_sony code FORMAT_SONY _T_SONY i s = Ok (Return unknown).
Proof.
  intros H0 Hi Hlast.
  destruct (getitem_inside code i ltac:(lia)) as (x & Hx).
  destruct (getitem_inside code (i + 1) ltac:(lia)) as (y & Hy).
  unfold decode_sony.
  replace (i =? len code - 2) with false by (symmetry; apply Z.eqb_neq; lia).
  rewrite !(cl_at_within _ _ _ _ Hx), !(cl_at_within _ _ _ _ Hy) by in_targets.
  rewrite (long_space_gt _ _ _ Hx).
  destruct (i <=? len code - 3); split_tests; eauto.
Qed.

Lemma decode_sony_last (code : list Z) (s : dec_state) :
  2 <= len code ->
  exists r, decode_sony code FORMAT_SONY _T_SONY (len code - 2) s = Ok (Return r) /\
            (r = unknown \/ exists fs, r = Tuple FORMAT_SONY fs).
Proof.
  intros Hlen.
  destruct (getitem_inside code (len code - 2) ltac:(lia)) as (x & Hx).
  destruct (getitem_inside code (len code - 2 + 1) ltac:(lia)) as (y & Hy).
  unfold decode_sony. rewrite Z.eqb_refl.
  replace (len code - 2 <=? len code - 3) with false by (symmetry; apply Z.leb_gt; lia).
  rewrite !(cl_at_within _ _ _ _ Hx), !(cl_at_within _ _ _ _ Hy) by in_targets.
  rewrite (long_space_gt _ _ _ Hx).
  split_tests; eauto.
Qed.

Lemma sony_loop_odd (code : list Z) :
  forall (k : nat) (i : Z) (s : dec_state),
    0 <= i -> i + 2 * Z.of_nat k = len code - 2 ->
    exists r,
      for_loop (decode_sony code FORMAT_SONY _T_SONY) (fun _ => Ok PyNone)
               (range i (len code) 2) s = Ok r /\
      (r = unknown \/ exists fs, r = Tuple FORMAT_SONY fs).
Proof.
  induction k as [|k IH]; intros i s H0 Hi.
  - rewrite range_step by lia. cbn [for_loop].
    replace i with (len code - 2) by lia.
    destruct (decode_sony_last code s ltac:(lia)) as (r & -> & Hr).
    exists r. split; [reflexivity | exact Hr].
  - rewrite range_step by lia. cbn [for_loop].
    destruct (decode_sony_inside code i s H0 ltac:(lia) ltac:(lia)) as [(s' & ->) | ->];
      cbn [bind].
    + apply IH; lia.
    + exists unknown. split; [reflexivity | left; reflexivity].
Qed.

Lemma leader_returns (code : list Z) :
  2 <= len code -> exists l, leader code = Ok l.
Proof.
  intros Hlen.
  destruct (getitem_inside code 0 ltac:(lia)) as (x & Hx).
  destruct (getitem_inside code 1 ltac:(lia)) as (y & Hy).
  unfold leader.
  rewrite !(cl_at_within _ _ _ _ Hx), !(cl_at_within _ _ _ _ Hy) by in_targets.
  split_tests; eauto.
Qed.

Lemma decode_odd_length_returns_pair (code : list Z) :
  Z.odd (len code) = true ->
  exists r, decode code = Ok r /\ decoded_pair r.
Proof.
  intros Hodd.
  assert (Hhalf : exists h, len code = 2 * h + 1).
  { exists (len code / 2). rewrite (Z.div_mod (len code) 2) at 1 by lia.
    rewrite Zmod_odd, Hodd. reflexivity. }
  destruct Hhalf as (h & Hh).
  destruct (decode_cases code)
    as [[_ H] | [[Hlen (e & Hl & _)] | [[_ [_ H]] | [[Hlen (f & t & Hf & _ & H)] | [Hlen [_ H]]]]]].
  - exists unknown. split; [exact H | left; reflexivity].
  - destruct (leader_returns code ltac:(lia)) as (l & Hl'). congruence.
  - exists unknown. split; [exact H | left; reflexivity].
  - destruct (pair_loop_odd code f t Hf (Z.to_nat (h - 1)) 2 dec_init ltac:(lia) ltac:(lia))
      as (r & Hr & Hgood).
    exists r. split; [congruence|].
    destruct Hgood as [-> | (fs & ->)]; [left; reflexivity|].
    right. exists f, fs. split; [reflexivity|].
    destruct Hf as [[-> _] | [-> _]]; [left | right; left]; reflexivity.
  - destruct (sony_loop_odd code (Z.to_nat (h - 1)) 1 dec_init ltac:(lia) ltac:(lia))
      as (r & Hr & Hgood).
    exists r. split; [congruence|].
    destruct Hgood as [-> | (fs & ->)]; [left; reflexivity|].
    right. exists FORMAT_SONY, fs. split; [reflexivity|]. right. right. reflexivity.
Qed.

(** ** The frame boundary of AEHA and NEC *)

(** C3, at an input where it fails: a NEC code whose first frame carries nine
    bits.  At the stop mark at index 20 the loop holds [bit_counter = 1]; the
    frame [[0]] is pushed and [byte] cleared, but [bit_counter] stays 1, so the
    seven bits of the second frame land on bit positions 1 to 7 and the code
    decodes to [[0], [254]]. *)
Theorem mid_code_stop_keeps_bit_counter :
  let code :=
    [8960; 4480]
      ++ [560; 560; 560; 560; 560; 560; 560; 560; 560; 560; 560; 560; 560; 560; 560; 560]
      ++ [560; 1680]
      ++ [560; 10000; 8960; 4480]
      ++ [560; 1680; 560; 1680; 560; 1680; 560; 1680; 560; 1680; 560; 1680; 560; 1680]
      ++ [560] in
  run_to (decode_pair code FORMAT_NEC _T_NEC) (range 2 20 2) dec_init =
    Ok (Continue (mk_dec_state [] [0] 1 1 false)) /\
  decode_pair code FORMAT_NEC _T_NEC 20 (mk_dec_state [] [0] 1 1 false) =
    Ok (Continue (mk_dec_state [[0]] [] 0 1 true)) /\
  decode code = Ok (Tuple FORMAT_NEC [[0]; [254]]).
Proof. repeat split; vm_compute; reflexivity. Qed.

(** ** The frame boundary of SONY *)

(** C10: at a SONY frame boundary -- a space above 5000 followed by a mark
    within tolerance of 4t, with at least 3 elements left -- the value is
    flushed as a frame whatever [bit_counter] is; there is a code that decodes
    as SONY with an intermediate frame of 3 bits and one of 0 bits, [[0, 0]],
    flushed right after the boundary before it. *)
Theorem sony_intermediate_frame_unchecked :
  (forall pre rest w z s,
      5000 < w ->
      decode_sony (pre ++ w :: _T_SONY * 4 :: z :: rest) FORMAT_SONY _T_SONY (len pre) s =
      Ok (Continue (mk_dec_state (sony_flush s) [] 0 0 (end_of_frame s)))) /\
  (let code :=
     [2400; 600; 1200; 600; 600; 600; 1200; 6000; 2400; 6000; 2400]
       ++ [600; 600; 600; 600; 600; 600; 600; 600; 600; 600; 600; 600;
           600; 600; 600; 600; 600; 600; 600; 600; 600; 600; 600; 600] in
   let body := decode_sony code FORMAT_SONY _T_SONY in
   run_to body [1; 3; 5] dec_init = Ok (Continue (mk_dec_state [] [] 5 3 false)) /\
   body 7 (mk_dec_state [] [] 5 3 false) =
     Ok (Continue (mk_dec_state [[5; 0]] [] 0 0 false)) /\
   body 9 (mk_dec_state [[5; 0]] [] 0 0 false) =
     Ok (Continue (mk_dec_state [[5; 0]; [0; 0]] [] 0 0 false)) /\
   decode code = Ok (Tuple FORMAT_SONY [[5; 0]; [0; 0]; [0; 0]])).
Proof.
  split.
  - intros pre rest w z s Hw. apply sony_boundary, Hw.
  - repeat split; vm_compute; reflexivity.
Qed.

Lemma sony_intermediate_frame_unchecked_witness :
  decode_sony ([2400; 600; 1200] ++ 6000 :: _T_SONY * 4 :: 600 :: [600])
              FORMAT_SONY _T_SONY (len [2400; 600; 1200])
              (mk_dec_state [] [] 1 1 false) =
  Ok (Continue (mk_dec_state [[1; 0]] [] 0 0 false)).
Proof.
  apply (proj1 sony_intermediate_frame_unchecked [2400; 600; 1200] [600] 6000 600
               (mk_dec_state [] [] 1 1 false)).
  lia.
Defined.

(** ** Empty frames *)

(** C7, at inputs where it fails: [encode] emits leader and stop for an empty
    AEHA or NEC frame and raises on an empty SONY frame. *)
Theorem encode_empty_frame_not_signalled :
  encode FORMAT_AEHA [[]] = Ok [3400; 1700; 425] /\
  encode FORMAT_NEC [[]] = Ok [8960; 4480; 560] /\
  encode FORMAT_NEC [[1]; []] =
    Ok [8960; 4480; 560; 1680; 560; 560; 560; 560; 560; 560; 560; 560;
        560; 560; 560; 560; 560; 560; 560; 84500; 8960; 4480; 560] /\
  encode FORMAT_SONY [[]] = Raise IndexError.
Proof. repeat split; vm_compute; reflexivity. Qed.

(** The standalone script does return [[]] for a frame of length 0. *)
Lemma standalone_encode_empty_frame (ir_format : string) (fs1 fs2 : list (list Z)) :
  supported ir_format ->
  Forall (fun f => f <> []) fs1 ->
  (ir_format = FORMAT_SONY -> Forall two_elements fs1) ->
  Standalone.encode ir_format (fs1 ++ [] :: fs2) = Ok [].
Proof.
  intros Hfmt Hne Hsony.
  assert (Hloop : forall s,
             for_loop (Standalone.encode_frame ir_format (unit_of ir_format))
                      (fun s => Ok (e_code s)) (fs1 ++ [] :: fs2) s = Ok []).
  { induction fs1 as [|f fs1 IH]; intros s.
    - reflexivity.
    - cbn [app for_loop]. unfold Standalone.encode_frame at 1.
      inversion Hne as [|? ? Hf Hne']; subst.
      destruct f as [|b f]; [contradiction|].
      rewrite len_cons. pose proof (len_nonneg f).
      destruct (Z.eqb_spec (1 + len f) 0); [lia|].
      rewrite encode_frame_eq;
        [| exact Hfmt | intros E; specialize (Hsony E); inversion Hsony; assumption].
      cbn [bind]. apply IH; [assumption|].
      intros E. specialize (Hsony E). inversion Hsony. assumption. }
  unfold Standalone.encode.
  destruct Hfmt as [-> | [-> | ->]]; eval_fmt; apply Hloop.
Qed.

(** ** Capture *)

Section CaptureProperties.

Variable tickDiff : Z -> Z -> Z.

Lemma _call_back_returns (gpio level tick : Z) (s : rec_state) :
  exists s', _call_back tickDiff gpio level tick s = Ok s'.
Proof.
  unfold _call_back.
  destruct (negb (_recording s)); [eauto|].
  destruct ((level =? 0) || (level =? 1)); [|eauto].
  destruct (last_tick s =? 0); [eauto|].
  destruct (tickDiff (last_tick s) tick >? _T_MAX_GAP); [eauto|].
  rewrite !_round_eq by lia.
  destruct (tickDiff (last_tick s) tick <? 1000); [cbn [bind]; eauto|].
  destruct (tickDiff (last_tick s) tick <? 2000); cbn [bind]; eauto.
Qed.

Lemma _call_back_stopped (gpio level tick : Z) (s : rec_state) :
  _recording s = false -> _call_back tickDiff gpio level tick s = Ok s.
Proof. intros H. unfold _call_back. rewrite H. reflexivity. Qed.

Lemma deliver_stopped (events : list (Z * Z * Z)) (s : rec_state) :
  _recording s = false -> deliver tickDiff events s = Ok s.
Proof.
  intros H. induction events as [|[[gpio level] tick] events IH].
  - reflexivity.
  - cbn [deliver]. rewrite _call_back_stopped by exact H. exact IH.
Qed.

Lemma deliver_returns (events : list (Z * Z * Z)) :
  forall s, exists s', deliver tickDiff events s = Ok s'.
Proof.
  induction events as [|[[gpio level] tick] events IH]; intros s.
  - exists s. reflexivity.
  - cbn [deliver].
    destruct (_call_back_returns gpio level tick s) as (s1 & ->).
    cbn [bind]. apply IH.
Qed.

Lemma record_loop_returns (timeout_count : Z) (fuel : nat) :
  forall i s sleeps,
    (Z.to_nat (timeout_count - i) < fuel)%nat ->
    exists r, record_loop tickDiff fuel timeout_count i s sleeps = Some (Ok r) /\
              capture_result r.
Proof.
  induction fuel as [|fuel IH]; intros i s sleeps Hfuel; [lia|].
  cbn [record_loop].
  destruct (_recording s).
  - destruct (deliver_returns (hd [] sleeps) s) as (s1 & ->).
    destruct (Z.geb_spec (i + 1) timeout_count) as [Hge | Hlt].
    + eexists. split; [reflexivity|]. left. reflexivity.
    + apply IH. lia.
  - eexists. split; [reflexivity|].
    destruct (Z.gtb_spec (len (_code s)) 10).
    + right. left. eexists. split; [reflexivity | lia].
    + right. right. eexists. split; [reflexivity | lia].
Qed.

(** An edge more than [_T_MAX_GAP] after an edge whose tick is not 0
    clears the recording flag and appends nothing, and no later callback
    appends anything. *)
Lemma late_edge_ends_recording (gpio level tick : Z) (s : rec_state)
      (later : list (Z * Z * Z)) :
  _recording s = true ->
  level = 0 \/ level = 1 ->
  last_tick s <> 0 ->
  _T_MAX_GAP < tickDiff (last_tick s) tick ->
  exists s',
    _call_back tickDiff gpio level tick s = Ok s' /\
    _recording s' = false /\ _code s' = _code s /\
    deliver tickDiff later s' = Ok s'.
Proof.
  intros Hrec Hlevel Hlast Hgap.
  eexists. split; [|split; [|split]].
  - unfold _call_back. rewrite Hrec. cbn [negb].
    replace ((level =? 0) || (level =? 1)) with true
      by (destruct Hlevel as [-> | ->]; reflexivity).
    destruct (Z.eqb_spec (last_tick s) 0); [contradiction|].
    destruct (Z.gtb_spec (tickDiff (last_tick s) tick) _T_MAX_GAP); [|lia].
    reflexivity.
  - reflexivity.
  - reflexivity.
  - apply deliver_stopped. reflexivity.
Qed.

(** [record] always returns, whatever the callbacks. *)
Lemma record_returns (timeout : Z) (sleeps : list (list (Z * Z * Z))) :
  exists r, record tickDiff true timeout sleeps = Some (Ok r) /\
            capture_result r.
Proof. unfold record. cbn [negb]. apply record_loop_returns. lia. Qed.

End CaptureProperties.

(** C9, at inputs where it fails: [_call_back] tells the first edge of a
    capture by [last_tick == 0], so after an edge whose tick is 0 the next
    edge is taken for a first one and its gap is never compared with
    [_T_MAX_GAP].  With edges at the ticks 0, 70001 and 70561 and then the
    watchdog, the second edge, 70001 us after the first, does not end the
    capture and the length 560 after the gap is appended: [record] returns
    [(REC_SHORT, [560])].  The same happens after a tick that wraps to 0 in
    the middle of a capture.  One tick later the same edges end the capture
    at the gap, and [record] returns [(REC_SHORT, [])]. *)
Theorem late_edge_after_tick_zero_keeps_recording :
  record wrapping_tick_diff true 10
         [[(4, 0, 0); (4, 1, 70001); (4, 0, 70561)]; [(4, 2, 170561)]] =
    Some (Ok (REC_SHORT, [560])) /\
  record wrapping_tick_diff true 10
         [[(4, 0, 4294966736); (4, 1, 0); (4, 0, 70001); (4, 1, 70561)];
          [(4, 2, 170561)]] =
    Some (Ok (REC_SHORT, [560; 560])) /\
  record wrapping_tick_diff true 10
         [[(4, 0, 1); (4, 1, 70002); (4, 0, 70562)]; [(4, 2, 170562)]] =
    Some (Ok (REC_SHORT, [])).
Proof. repeat split; vm_compute; reflexivity. Qed.

(** ** Binary64 rounding *)
























(** ** Tolerance: the claim *)




(** * Further properties *)

(** ** Rounding of any integer *)

Lemma _round_value (n m : Z) :
  0 < m ->
  let r := (n + m / 2) / m * m in
  _round n m = Ok r /\ 2 * r <= 2 * n + m /\ 2 * n - m <= 2 * r /\
  (m | r).
Proof.
  intros Hm r. split; [apply _round_eq; lia|].
  pose proof (Z.div_mod (n + m / 2) m ltac:(lia)) as Hd.
  pose proof (Z.mod_pos_bound (n + m / 2) m Hm) as Hb.
  pose proof (Z.div_mod m 2 ltac:(lia)) as Hh.
  pose proof (Z.mod_pos_bound m 2 ltac:(lia)) as Hhb.
  assert (Hr : r = n + m / 2 - (n + m / 2) mod m) by (subst r; lia).
  repeat split; try lia.
  exists ((n + m / 2) / m). reflexivity.
Qed.

(** X1: for a unit [m > 0] and integers [n <= n'] of either sign,
    [_round] returns multiples of [m] at most [m / 2] away, in the same
    order as [n] and [n'], and rounding a rounded value changes nothing. *)
Theorem round_is_monotone_projection (n n' m : Z) :
  0 < m -> n <= n' ->
  exists r r',
    _round n m = Ok r /\ _round n' m = Ok r' /\
    (m | r) /\ 2 * Z.abs (r - n) <= m /\
    r <= r' /\
    _round r m = Ok r.
Proof.
  intros Hm Hle.
  destruct (_round_value n m Hm) as (Hr & Hup & Hlo & Hdiv).
  destruct (_round_value n' m Hm) as (Hr' & _).
  exists ((n + m / 2) / m * m), ((n' + m / 2) / m * m).
  split; [exact Hr|]. split; [exact Hr'|]. split; [exact Hdiv|].
  split; [lia|]. split.
  - apply Z.mul_le_mono_nonneg_r; [lia|].
    apply Z.div_le_mono; lia.
  - rewrite _round_eq by lia. f_equal.
    rewrite Z.add_comm, Z.div_add by lia.
    rewrite (Z.div_small (m / 2) m).
    + reflexivity.
    + split; [apply Z.div_pos; lia | apply Z.div_lt; lia].
Qed.

Lemma round_is_monotone_projection_witness :
  exists r r',
    _round (-12960) 100 = Ok r /\ _round 1234 100 = Ok r' /\
    (100 | r) /\ 2 * Z.abs (r - -12960) <= 100 /\ r <= r' /\
    _round r 100 = Ok r.
Proof.
  apply (round_is_monotone_projection (-12960) 1234 100); lia.
Defined.

(** ** Capture: what a train of edges records *)

Section CaptureTrain.

Variable tickDiff : Z -> Z -> Z.

Lemma _round_quantise (length : Z) :
  (if length <? 1000 then _round length 10
   else if length <? 2000 then _round length 50
   else _round length 200) = Ok (quantise length).
Proof.
  unfold quantise.
  destruct (length <? 1000); [|destruct (length <? 2000)];
    apply _round_eq; lia.
Qed.

Lemma _call_back_edge (gpio level tick : Z) (s : rec_state) :
  _recording s = true ->
  level = 0 \/ level = 1 ->
  last_tick s <> 0 ->
  tickDiff (last_tick s) tick <= _T_MAX_GAP ->
  _call_back tickDiff gpio level tick s =
  Ok (mk_rec_state true tick (_code s ++ [quantise (tickDiff (last_tick s) tick)])
                   (watchdog s)).
Proof.
  intros Hrec Hlevel Hlast Hgap. unfold _call_back.
  rewrite Hrec. cbn [negb].
  replace ((level =? 0) || (level =? 1)) with true
    by (destruct Hlevel as [-> | ->]; reflexivity).
  destruct (Z.eqb_spec (last_tick s) 0); [contradiction|].
  destruct (Z.gtb_spec (tickDiff (last_tick s) tick) _T_MAX_GAP); [lia|].
  rewrite _round_quantise. reflexivity.
Qed.

Lemma _call_back_first_edge (gpio level tick : Z) (s : rec_state) :
  _recording s = true ->
  level = 0 \/ level = 1 ->
  last_tick s = 0 ->
  _call_back tickDiff gpio level tick s =
  Ok (mk_rec_state true tick (_code s) 100).
Proof.
  intros Hrec Hlevel Hlast. unfold _call_back.
  rewrite Hrec, Hlast. cbn [negb].
  replace ((level =? 0) || (level =? 1)) with true
    by (destruct Hlevel as [-> | ->]; reflexivity).
  reflexivity.
Qed.

Lemma _call_back_end (e : Z * Z * Z) (s : rec_state) :
  _recording s = true ->
  last_tick s <> 0 ->
  ends_capture tickDiff (last_tick s) e ->
  _call_back tickDiff (fst (fst e)) (snd (fst e)) (snd e) s =
  Ok (mk_rec_state false (last_tick s) (_code s) (watchdog s)).
Proof.
  destruct e as [[gpio level] tick]. cbn [fst snd ends_capture].
  intros Hrec Hlast Hend. unfold _call_back. rewrite Hrec. cbn [negb].
  destruct (Z.eqb_spec level 0) as [E0 | N0]; cbn [orb].
  - destruct Hend as [[H _] | Hgap]; [contradiction|].
    destruct (Z.eqb_spec (last_tick s) 0); [contradiction|].
    destruct (Z.gtb_spec (tickDiff (last_tick s) tick) _T_MAX_GAP); [reflexivity | lia].
  - destruct (Z.eqb_spec level 1) as [E1 | N1].
    + destruct Hend as [[_ H] | Hgap]; [contradiction|].
      destruct (Z.eqb_spec (last_tick s) 0); [contradiction|].
      destruct (Z.gtb_spec (tickDiff (last_tick s) tick) _T_MAX_GAP); [reflexivity | lia].
    + reflexivity.
Qed.

Lemma deliver_app (evs1 evs2 : list (Z * Z * Z)) :
  forall s,
    deliver tickDiff (evs1 ++ evs2) s =
    (s' <- deliver tickDiff evs1 s ;; deliver tickDiff evs2 s').
Proof.
  induction evs1 as [|[[g l] t] evs1 IH]; intros s.
  - reflexivity.
  - cbn [app deliver].
    destruct (_call_back tickDiff g l t s) as [s1|e]; cbn [bind]; [apply IH | reflexivity].
Qed.

Lemma deliver_running (evs1 evs2 : list (Z * Z * Z)) (s final : rec_state) :
  deliver tickDiff (evs1 ++ evs2) s = Ok final ->
  _recording final = true ->
  exists s1, deliver tickDiff evs1 s = Ok s1 /\ _recording s1 = true /\
             deliver tickDiff evs2 s1 = Ok final.
Proof.
  intros Hall Hrec. rewrite deliver_app in Hall.
  destruct (deliver tickDiff evs1 s) as [s1|e]; [|discriminate].
  cbn [bind] in Hall. exists s1. split; [reflexivity|]. split; [|exact Hall].
  destruct (_recording s1) eqn:E; [reflexivity|].
  rewrite deliver_stopped in Hall by exact E.
  injection Hall as <-. congruence.
Qed.

Lemma last_cons (t d : Z) (l : list Z) : last (t :: l) d = last l t.
Proof.
  revert t d. induction l as [|x l IH]; intros t d; [reflexivity|].
  change (last (t :: x :: l) d) with (last (x :: l) d).
  rewrite (IH x d), (IH x t). reflexivity.
Qed.

Lemma deliver_edges (gpio : Z) (edges : list (Z * Z)) :
  forall s,
    _recording s = true ->
    last_tick s <> 0 ->
    Forall is_edge edges ->
    Forall (fun e => snd e <> 0) edges ->
    Forall (fun d => d <= _T_MAX_GAP) (intervals tickDiff (last_tick s) (map snd edges)) ->
    deliver tickDiff (edge_events gpio edges) s =
    Ok (mk_rec_state true (last (map snd edges) (last_tick s))
                     (_code s ++ map quantise (intervals tickDiff (last_tick s) (map snd edges)))
                     (watchdog s)).
Proof.
  induction edges as [|[level tick] edges IH]; intros s Hrec Hlast Hedge Hticks Hgaps.
  - cbn. rewrite app_nil_r. destruct s; cbn in *. subst. reflexivity.
  - inversion Hedge as [|? ? He Hedge']; subst.
    inversion Hticks as [|? ? Ht Hticks']; subst.
    cbn [map snd intervals] in Hgaps.
    inversion Hgaps as [|? ? Hg Hgaps']; subst.
    cbn [edge_events map fst snd deliver].
    rewrite (_call_back_edge gpio level tick s Hrec He Hlast Hg). cbn [bind].
    fold (edge_events gpio edges).
    rewrite IH; cbn [_recording last_tick _code watchdog]; try assumption; try reflexivity.
    cbn [map intervals snd]. rewrite <- app_assoc. cbn [app].
    rewrite last_cons. reflexivity.
Qed.

(** X2: from the start of a capture, a first edge followed by further
    edges -- levels 0 or 1, ticks other than 0, each at most [_T_MAX_GAP]
    after the one before -- leaves in [_code] exactly the differences
    between consecutive ticks, each rounded to 10, 50 or 200 by its size,
    keeps the capture running with the watchdog set to 100, and remembers
    the last tick. *)
Theorem capture_records_quantised_intervals
        (gpio l0 t0 : Z) (edges : list (Z * Z)) :
  Forall is_edge ((l0, t0) :: edges) ->
  Forall (fun e => snd e <> 0) ((l0, t0) :: edges) ->
  Forall (fun d => d <= _T_MAX_GAP) (intervals tickDiff t0 (map snd edges)) ->
  deliver tickDiff (edge_events gpio ((l0, t0) :: edges)) (mk_rec_state true 0 [] 0) =
  Ok (mk_rec_state true (last (map snd edges) t0)
                   (map quantise (intervals tickDiff t0 (map snd edges))) 100).
Proof.
  intros Hedge Hticks Hgaps.
  inversion Hedge as [|? ? He Hedge']; subst.
  inversion Hticks as [|? ? Ht Hticks']; subst.
  cbn [edge_events map fst snd deliver].
  rewrite (_call_back_first_edge gpio l0 t0 (mk_rec_state true 0 [] 0) eq_refl He eq_refl).
  cbn [bind _code].
  fold (edge_events gpio edges).
  rewrite deliver_edges; cbn [_recording last_tick _code watchdog app];
    try assumption; reflexivity.
Qed.

Lemma record_loop_chunks (timeout_count : Z) (before : list (list (Z * Z * Z))) :
  forall (fuel : nat) (i : Z) (s final : rec_state) (rest : list (list (Z * Z * Z))),
    _recording s = true ->
    deliver tickDiff (List.concat before) s = Ok final ->
    _recording final = true ->
    i + len before < timeout_count ->
    record_loop tickDiff (List.length before + fuel) timeout_count i s (before ++ rest) =
    record_loop tickDiff fuel timeout_count (i + len before) final rest.
Proof.
  induction before as [|c before IH]; intros fuel i s final rest Hrec Hall Hfin Hi.
  - cbn in Hall. injection Hall as <-. cbn [List.length Nat.add app].
    unfold len. cbn [List.length]. rewrite Z.add_0_r. reflexivity.
  - cbn [List.concat] in Hall.
    destruct (deliver_running _ _ _ _ Hall Hfin) as (s1 & Hc & Hrec1 & Hrest).
    rewrite len_cons in Hi.
    cbn [List.length Nat.add app record_loop hd tl].
    rewrite Hrec, Hc.
    destruct (Z.geb_spec (i + 1) timeout_count); [pose proof (len_nonneg before); lia|].
    rewrite (IH fuel (i + 1) s1 final rest Hrec1 Hrest Hfin) by lia.
    rewrite len_cons. f_equal. lia.
Qed.

(** What [record] returns, by how the capture ends.  When the callbacks of
    a sleep clear the flag and the poll count is still below the timeout,
    the result is [REC_SUCCESS] for a code of more than 10 lengths and
    [REC_SHORT] otherwise, with the code as the callbacks left it; when the
    poll count reaches the timeout while the flag was set at the start of
    the sleep, the result is [REC_NO_DATA] with an empty code. *)
Lemma record_result_mapping (timeout : Z)
      (before : list (list (Z * Z * Z))) (chunk : list (Z * Z * Z))
      (after : list (list (Z * Z * Z))) (s1 final : rec_state) :
  deliver tickDiff (List.concat before) (mk_rec_state true 0 [] 0) = Ok s1 ->
  _recording s1 = true ->
  deliver tickDiff chunk s1 = Ok final ->
  (_recording final = false ->
   len before + 1 < timeout * 10 ->
   record tickDiff true timeout (before ++ chunk :: after) =
   Some (Ok (if len (_code final) >? 10 then REC_SUCCESS else REC_SHORT,
             _code final))) /\
  (len before + 1 = timeout * 10 ->
   record tickDiff true timeout (before ++ chunk :: after) =
   Some (Ok (REC_NO_DATA, []))).
Proof.
  intros Hbefore Hrec1 Hchunk.
  pose proof (len_nonneg before) as Hnn.
  set (tc := timeout * 10).
  assert (Hstart : len before < tc ->
    record tickDiff true timeout (before ++ chunk :: after) =
    record_loop tickDiff (S (Z.to_nat (tc - len before))) tc (0 + len before) s1
                (chunk :: after)).
  { intros Hlt. unfold record. cbn [negb]. fold tc.
    replace (S (Z.to_nat tc))
      with (List.length before + S (Z.to_nat (tc - len before)))%nat
      by (unfold len in *; lia).
    apply (record_loop_chunks tc before _ 0 (mk_rec_state true 0 [] 0) s1 _
             eq_refl Hbefore Hrec1). lia. }
  split.
  - intros Hfin Hlen. rewrite Hstart by lia.
    cbn [record_loop hd tl]. rewrite Hrec1, Hchunk.
    destruct (Z.geb_spec (0 + len before + 1) tc); [lia|].
    replace (Z.to_nat (tc - len before)) with (S (Z.to_nat (tc - len before - 1))) by lia.
    cbn [record_loop]. rewrite Hfin. reflexivity.
  - intros Hlen. rewrite Hstart by lia.
    cbn [record_loop hd tl]. rewrite Hrec1, Hchunk.
    destruct (Z.geb_spec (0 + len before + 1) tc); [reflexivity | lia].
Qed.

(** X3: take a train of edges as in X2 -- levels 0 or 1, ticks other than
    0, each at most [_T_MAX_GAP] after the one before -- spread in any way
    over the sleeps of [record], and after it a callback that ends the
    capture -- the watchdog, or an edge more than [_T_MAX_GAP] late -- in a
    sleep before the last one the timeout allows.  Then [record] returns
    the rounded differences between the ticks of the train, with
    [REC_SUCCESS] for more than 10 lengths and [REC_SHORT] otherwise;
    callbacks after the end change nothing. *)
Theorem record_returns_quantised_intervals
        (gpio l0 t0 timeout : Z) (edges : list (Z * Z))
        (before : list (list (Z * Z * Z)))
        (chunk_a chunk_b : list (Z * Z * Z)) (e : Z * Z * Z)
        (after : list (list (Z * Z * Z))) :
  Forall is_edge ((l0, t0) :: edges) ->
  Forall (fun e => snd e <> 0) ((l0, t0) :: edges) ->
  Forall (fun d => d <= _T_MAX_GAP) (intervals tickDiff t0 (map snd edges)) ->
  List.concat before ++ chunk_a = edge_events gpio ((l0, t0) :: edges) ->
  ends_capture tickDiff (last (map snd edges) t0) e ->
  len before + 1 < timeout * 10 ->
  let code := map quantise (intervals tickDiff t0 (map snd edges)) in
  record tickDiff true timeout (before ++ (chunk_a ++ e :: chunk_b) :: after) =
  Some (Ok (if len code >? 10 then REC_SUCCESS else REC_SHORT, code)).
Proof.
  intros Hedge Hticks Hgaps Hsplit Hend Hlen code.
  assert (Htrain :
    deliver tickDiff (edge_events gpio ((l0, t0) :: edges)) (mk_rec_state true 0 [] 0) =
    Ok (mk_rec_state true (last (map snd edges) t0) code 100)).
  { inversion Hedge as [|? ? He Hedge']; subst.
    inversion Hticks as [|? ? Ht Hticks']; subst.
    cbn [edge_events map fst snd deliver].
    rewrite (_call_back_first_edge gpio l0 t0 (mk_rec_state true 0 [] 0) eq_refl He eq_refl).
    cbn [bind _code].
    fold (edge_events gpio edges).
    rewrite deliver_edges; cbn [_recording last_tick _code watchdog app];
      try assumption; reflexivity. }
  rewrite <- Hsplit in Htrain.
  destruct (deliver_running _ _ _ _ Htrain eq_refl) as (s1 & Hbefore & Hrec1 & Ha).
  pose proof (len_nonneg before) as Hnn.
  unfold record. cbn [negb].
  set (tc := timeout * 10) in *.
  assert (Hfuel : S (Z.to_nat tc) = (List.length before + S (S (Z.to_nat (tc - len before - 1))))%nat).
  { unfold len in *. lia. }
  rewrite Hfuel.
  rewrite (record_loop_chunks tc before _ 0 (mk_rec_state true 0 [] 0) s1 _
             eq_refl Hbefore Hrec1) by lia.
  cbn [record_loop hd tl]. rewrite Hrec1.
  rewrite deliver_app, Ha. cbn [bind deliver].
  destruct e as [[g l] t].
  assert (Hlast : last (map snd edges) t0 <> 0).
  { clear - Hticks. revert t0 l0 Hticks.
    induction edges as [|[l1 t1] edges IH]; intros t0 l0 Hticks.
    - inversion Hticks; subst. assumption.
    - inversion Hticks as [|? ? _ Hticks']; subst.
      cbn [map snd]. rewrite last_cons. exact (IH t1 l1 Hticks'). }
  pose proof (_call_back_end (g, l, t)
                (mk_rec_state true (last (map snd edges) t0) code 100)
                eq_refl Hlast Hend) as Hstop.
  cbn [fst snd] in Hstop. fold code. rewrite Hstop. cbn [bind].
  rewrite deliver_stopped by reflexivity.
  destruct (Z.geb_spec (0 + len before + 1) tc); [lia|].
  cbn [_recording _code]. reflexivity.
Qed.

Lemma quantise_rounded (d : Z) : d <= _T_MAX_GAP -> rounded (quantise d).
Proof.
  unfold rounded, quantise, _T_MAX_GAP. intros Hd.
  change (10 / 2) with 5. change (50 / 2) with 25. change (200 / 2) with 100.
  destruct (Z.ltb_spec d 1000); [|destruct (Z.ltb_spec d 2000)].
  - split; [exists ((d + 5) / 10); reflexivity|].
    pose proof (Z.mul_div_le (d + 5) 10 ltac:(lia)). lia.
  - split; [exists ((d + 25) / 50 * 5); lia|].
    pose proof (Z.mul_div_le (d + 25) 50 ltac:(lia)). lia.
  - split; [exists ((d + 100) / 200 * 20); lia|].
    assert ((d + 100) / 200 < 301) by (apply Z.div_lt_upper_bound; lia). lia.
Qed.

Lemma _call_back_rounded (gpio level tick : Z) (s s' : rec_state) :
  Forall rounded (_code s) ->
  _call_back tickDiff gpio level tick s = Ok s' ->
  Forall rounded (_code s').
Proof.
  intros Hs. unfold _call_back.
  destruct (_recording s); cbn [negb]; [|intros H; injection H as <-; exact Hs].
  destruct ((level =? 0) || (level =? 1)); [|intros H; injection H as <-; exact Hs].
  destruct (last_tick s =? 0); [intros H; injection H as <-; exact Hs|].
  destruct (Z.gtb_spec (tickDiff (last_tick s) tick) _T_MAX_GAP) as [Hgt | Hle];
    [intros H; injection H as <-; exact Hs|].
  rewrite _round_quantise. cbn [bind]. intros H. injection H as <-.
  cbn [_code]. apply Forall_app. split; [exact Hs|].
  constructor; [apply quantise_rounded, Hle | constructor].
Qed.

Lemma deliver_rounded (events : list (Z * Z * Z)) :
  forall s s',
    Forall rounded (_code s) ->
    deliver tickDiff events s = Ok s' ->
    Forall rounded (_code s').
Proof.
  induction events as [|[[g l] t] events IH]; intros s s' Hs H.
  - cbn in H. injection H as <-. exact Hs.
  - cbn [deliver] in H.
    destruct (_call_back tickDiff g l t s) as [s1|e] eqn:E; cbn [bind] in H; [|discriminate].
    exact (IH s1 s' (_call_back_rounded _ _ _ _ _ Hs E) H).
Qed.

Lemma record_loop_rounded (timeout_count : Z) (fuel : nat) :
  forall i s sleeps result code,
    Forall rounded (_code s) ->
    record_loop tickDiff fuel timeout_count i s sleeps = Some (Ok (result, code)) ->
    Forall rounded code.
Proof.
  induction fuel as [|fuel IH]; intros i s sleeps result code Hs H; [discriminate|].
  cbn [record_loop] in H.
  destruct (_recording s).
  - destruct (deliver tickDiff (hd [] sleeps) s) as [s1|e] eqn:E; [|discriminate].
    destruct (i + 1 >=? timeout_count).
    + injection H as _ <-. constructor.
    + exact (IH _ s1 _ _ _ (deliver_rounded _ _ _ Hs E) H).
  - injection H as _ <-. exact Hs.
Qed.

(** X4: whatever callbacks arrive, in whatever order, every length in
    the code that [record] returns is a multiple of 10 and at most
    [_T_MAX_GAP]. *)
Theorem record_returns_rounded_lengths
        (connected : bool) (timeout : Z) (sleeps : list (list (Z * Z * Z)))
        (result : Z) (code : list Z) :
  record tickDiff connected timeout sleeps = Some (Ok (result, code)) ->
  Forall rounded code.
Proof.
  unfold record. destruct connected; cbn [negb].
  - apply record_loop_rounded. constructor.
  - intros H. injection H as _ <-. constructor.
Qed.

(** X5: [last_tick = 0] also means that no edge has been seen, so an
    edge that arrives with tick 0 is forgotten: its own interval is
    recorded, but the edge after it is taken for a first edge -- it appends
    no length, whatever its tick, and sets the watchdog again. *)
Theorem edge_at_tick_zero_is_forgotten
        (gpio l1 l2 tick : Z) (s : rec_state) :
  _recording s = true ->
  is_edge (l1, 0) -> is_edge (l2, tick) ->
  last_tick s <> 0 ->
  tickDiff (last_tick s) 0 <= _T_MAX_GAP ->
  deliver tickDiff [(gpio, l1, 0); (gpio, l2, tick)] s =
  Ok (mk_rec_state true tick (_code s ++ [quantise (tickDiff (last_tick s) 0)]) 100).
Proof.
  intros Hrec H1 H2 Hlast Hgap. cbn [deliver].
  rewrite (_call_back_edge gpio l1 0 s Hrec H1 Hlast Hgap). cbn [bind].
  rewrite (_call_back_first_edge gpio l2 tick
             (mk_rec_state true 0 (_code s ++ [quantise (tickDiff (last_tick s) 0)])
                           (watchdog s)) eq_refl H2 eq_refl).
  reflexivity.
Qed.

End CaptureTrain.

Lemma capture_records_quantised_intervals_witness :
  deliver wrapping_tick_diff (edge_events 4 [(0, 1000); (1, 1563); (0, 3243)])
          (mk_rec_state true 0 [] 0) =
  Ok (mk_rec_state true 3243 [560; 1700] 100).
Proof.
  apply (capture_records_quantised_intervals wrapping_tick_diff 4 0 1000
           [(1, 1563); (0, 3243)]).
  - constructor; [left; reflexivity|].
    constructor; [right; reflexivity|].
    constructor; [left; reflexivity | constructor].
  - repeat (constructor; [cbn; lia|]). constructor.
  - repeat (constructor; [vm_compute; discriminate|]). constructor.
Defined.

Lemma record_returns_quantised_intervals_witness :
  record wrapping_tick_diff true 10
         ([[]; [(4, 0, 1000)]] ++ ([(4, 1, 1563)] ++ (4, 2, 101563) :: [(4, 0, 200000)]) :: [[]]) =
  Some (Ok (REC_SHORT, [560])).
Proof.
  apply (record_returns_quantised_intervals wrapping_tick_diff 4 0 1000 10
           [(1, 1563)] [[]; [(4, 0, 1000)]] [(4, 1, 1563)] [(4, 0, 200000)]
           (4, 2, 101563) [[]]).
  - constructor; [left; reflexivity|].
    constructor; [right; reflexivity | constructor].
  - repeat (constructor; [cbn; lia|]). constructor.
  - repeat (constructor; [vm_compute; discriminate|]). constructor.
  - reflexivity.
  - left. split; lia.
  - vm_compute. reflexivity.
Defined.

Lemma record_returns_rounded_lengths_witness :
  Forall rounded [560; 1700].
Proof.
  apply (record_returns_rounded_lengths wrapping_tick_diff true 10
           [[(4, 0, 1000); (4, 1, 1563); (4, 0, 3243); (4, 2, 103243)]]
           REC_SHORT [560; 1700]).
  vm_compute. reflexivity.
Defined.

Lemma edge_at_tick_zero_is_forgotten_witness :
  deliver wrapping_tick_diff [(4, 1, 0); (4, 0, 560)]
          (mk_rec_state true 4294966736 [] 100) =
  Ok (mk_rec_state true 560 [560] 100).
Proof.
  apply (edge_at_tick_zero_is_forgotten wrapping_tick_diff 4 1 0 560
           (mk_rec_state true 4294966736 [] 100)).
  - reflexivity.
  - right. reflexivity.
  - left. reflexivity.
  - cbn. lia.
  - vm_compute. discriminate.
Defined.

(** ** Encode: results and failures *)

Lemma encode_frame_shape (ir_format : string) (frame : list Z) (s : enc_state) :
  supported ir_format ->
  (ir_format = FORMAT_SONY -> has_two frame) ->
  let t := unit_of ir_format in
  encode_frame ir_format t frame s =
  Ok (Continue
        (mk_enc_state
           (e_code s
              ++ (if e_first_frame s then [] else [wait_space ir_format t (e_t_count s)])
              ++ leader_code ir_format t ++ data_code ir_format t frame
              ++ stop_code ir_format t)
           (frame_units ir_format frame) false)).
Proof.
  intros Hfmt Hsony t. subst t.
  destruct Hfmt as [-> | [-> | ->]].
  - apply encode_frame_eq; [left; reflexivity | discriminate].
  - apply encode_frame_eq; [right; left; reflexivity | discriminate].
  - specialize (Hsony eq_refl). unfold has_two in Hsony.
    destruct frame as [|f0 [|f1 more]];
      [unfold len in Hsony; cbn in Hsony; lia
      |unfold len in Hsony; cbn in Hsony; lia|].
    unfold encode_frame, wait_space, leader_code, data_code, stop_code, frame_units, unit_of.
    eval_fmt; cbn [orb].
    rewrite !_round_eq by lia.
    rewrite getitem_0, getitem_1.
    cbn [sony_word sony_bits].
    destruct (e_first_frame s); cbn [negb bind];
      match goal with
      | |- context [Nat.iter ?n ?f (?c, ?u, ?d)] =>
          pose proof (encode_bits _T_SONY 2 3 n c u d) as Hb;
          destruct (Nat.iter n f (c, u, d)) as [[code' t_count'] d']
      end;
      unfold fst in Hb; injection Hb as -> ->;
      rewrite <- ?app_assoc, ?app_nil_r; reflexivity.
Qed.

Lemma encode_loop_shape (ir_format : string) (fs : list (list Z)) :
  supported ir_format ->
  encodable ir_format fs ->
  forall s,
    for_loop (encode_frame ir_format (unit_of ir_format)) (fun s => Ok (e_code s)) fs s =
    Ok (e_code s ++ frames_code ir_format (unit_of ir_format)
                      (if e_first_frame s then None else Some (e_t_count s)) fs).
Proof.
  intros Hfmt Hsony.
  induction fs as [|f fs IH]; intros s.
  - cbn. rewrite app_nil_r. reflexivity.
  - cbn [for_loop frames_code].
    rewrite encode_frame_shape;
      [| exact Hfmt | intros E; specialize (Hsony E); inversion Hsony; assumption].
    cbn [bind]. rewrite IH; [| intros E; specialize (Hsony E); inversion Hsony; assumption].
    cbn [e_code e_first_frame e_t_count].
    destruct (e_first_frame s); rewrite <- ?app_assoc; reflexivity.
Qed.

Lemma encode_unit (ir_format : string) :
  supported ir_format ->
  (if (ir_format =? FORMAT_AEHA)%string then Ok _T_AEHA
   else if (ir_format =? FORMAT_NEC)%string then Ok _T_NEC
   else if (ir_format =? FORMAT_SONY)%string then Ok _T_SONY
   else Raise ValueError) = (Ok (unit_of ir_format) : pyres Z).
Proof. intros [-> | [-> | ->]]; reflexivity. Qed.

Lemma encode_shape (ir_format : string) (fs : list (list Z)) :
  supported ir_format ->
  encodable ir_format fs ->
  encode ir_format fs = Ok (frames_code ir_format (unit_of ir_format) None fs).
Proof.
  intros Hfmt Hsony. unfold encode.
  rewrite encode_unit by exact Hfmt.
  cbn [bind]. rewrite encode_loop_shape by assumption. reflexivity.
Qed.

Lemma short_frame_raises (frame : list Z) (s : enc_state) :
  len frame < 2 ->
  encode_frame FORMAT_SONY _T_SONY frame s = Raise IndexError.
Proof.
  intros Hlen. unfold encode_frame. eval_fmt. cbn [orb].
  rewrite !_round_eq by lia.
  destruct frame as [|f0 [|f1 more]].
  - destruct (e_first_frame s); reflexivity.
  - destruct (e_first_frame s); reflexivity.
  - unfold len in Hlen. cbn in Hlen. lia.
Qed.

Lemma short_or_long (fs : list (list Z)) :
  Forall has_two fs \/
  exists fs1 f fs2, fs = fs1 ++ f :: fs2 /\ Forall has_two fs1 /\ len f < 2.
Proof.
  induction fs as [|f fs [IH | (fs1 & g & fs2 & -> & H1 & Hg)]].
  - left. constructor.
  - destruct (Z.lt_ge_cases (len f) 2) as [Hs | Hl].
    + right. exists [], f, fs. repeat split; [constructor | exact Hs].
    + left. constructor; [unfold has_two; lia | exact IH].
  - destruct (Z.lt_ge_cases (len f) 2) as [Hs | Hl].
    + right. exists [], f, (fs1 ++ g :: fs2). repeat split; [constructor | exact Hs].
    + right. exists (f :: fs1), g, fs2.
      repeat split; [constructor; [unfold has_two; lia | exact H1] | exact Hg].
Qed.

Lemma encode_short_frame (fs1 : list (list Z)) (f : list Z) (fs2 : list (list Z)) :
  Forall has_two fs1 -> len f < 2 ->
  encode FORMAT_SONY (fs1 ++ f :: fs2) = Raise IndexError.
Proof.
  intros H1 Hf. unfold encode. eval_fmt. cbn [bind].
  rewrite for_loop_app.
  assert (Hrun : forall s, exists s',
             run_to (encode_frame FORMAT_SONY _T_SONY) fs1 s = Ok (Continue s')).
  { clear Hf. induction H1 as [|g fs1 Hg _ IH]; intros s.
    - exists s. reflexivity.
    - cbn [run_to].
      pose proof (encode_frame_shape FORMAT_SONY g s
                    ltac:(right; right; reflexivity) (fun _ => Hg)) as Hshape.
      change (unit_of FORMAT_SONY) with _T_SONY in Hshape.
      cbv zeta in Hshape. rewrite Hshape. cbn [bind]. apply IH. }
  destruct (Hrun (mk_enc_state [] 0 true)) as (s' & ->). cbn [bind for_loop].
  rewrite short_frame_raises by exact Hf. reflexivity.
Qed.

Lemma unsupported_format (ir_format : string) :
  ~ supported ir_format ->
  (ir_format =? FORMAT_AEHA)%string = false /\
  (ir_format =? FORMAT_NEC)%string = false /\
  (ir_format =? FORMAT_SONY)%string = false.
Proof.
  intros H. unfold supported in H.
  repeat split; apply String.eqb_neq; intros E; apply H; auto.
Qed.

Lemma supported_dec (ir_format : string) :
  supported ir_format \/ ~ supported ir_format.
Proof.
  unfold supported.
  destruct (String.eqb_spec ir_format FORMAT_AEHA); [auto|].
  destruct (String.eqb_spec ir_format FORMAT_NEC); [auto|].
  destruct (String.eqb_spec ir_format FORMAT_SONY); [auto|].
  right. intros [? | [? | ?]]; contradiction.
Qed.

(** The three outcomes of [encode]. *)
Lemma encode_cases (ir_format : string) (fs : list (list Z)) :
  (~ supported ir_format /\ encode ir_format fs = Raise ValueError) \/
  (supported ir_format /\ encodable ir_format fs /\
   encode ir_format fs = Ok (frames_code ir_format (unit_of ir_format) None fs)) \/
  (ir_format = FORMAT_SONY /\ Exists (fun f => len f < 2) fs /\
   encode ir_format fs = Raise IndexError).
Proof.
  destruct (supported_dec ir_format) as [Hfmt | Hno].
  - destruct (String.eqb_spec ir_format FORMAT_SONY) as [-> | Hpair].
    + destruct (short_or_long fs) as [Hlong | (fs1 & f & fs2 & -> & H1 & Hf)].
      * right. left. split; [exact Hfmt|]. split; [intros _; exact Hlong|].
        apply encode_shape; [exact Hfmt | intros _; exact Hlong].
      * right. right. split; [reflexivity|]. split.
        -- apply Exists_exists. exists f. split; [apply in_elt | exact Hf].
        -- apply encode_short_frame; assumption.
    + right. left. split; [exact Hfmt|].
      split; [intros E; contradiction|].
      apply encode_shape; [exact Hfmt | intros E; contradiction].
  - left. split; [exact Hno|].
    destruct (unsupported_format _ Hno) as (E1 & E2 & E3).
    unfold encode. rewrite E1, E2, E3. reflexivity.
Qed.

Lemma short_not_encodable (fs : list (list Z)) :
  Exists (fun f => len f < 2) fs -> ~ encodable FORMAT_SONY fs.
Proof.
  intros Hex Hen. specialize (Hen eq_refl).
  apply Exists_exists in Hex. destruct Hex as (f & Hin & Hf).
  rewrite Forall_forall in Hen. specialize (Hen f Hin).
  unfold has_two in Hen. lia.
Qed.

(** X6: [encode] raises [ValueError] exactly for a format other than
    AEHA, NEC and SONY, whatever the frames; it raises [IndexError]
    exactly for SONY frames one of which has fewer than two elements; in
    every other case it returns a code. *)
Theorem encode_failure_modes (ir_format : string) (fs : list (list Z)) :
  (encode ir_format fs = Raise ValueError <-> ~ supported ir_format) /\
  (encode ir_format fs = Raise IndexError <->
   ir_format = FORMAT_SONY /\ Exists (fun f => len f < 2) fs) /\
  ((exists code, encode ir_format fs = Ok code) <->
   supported ir_format /\ encodable ir_format fs).
Proof.
  destruct (encode_cases ir_format fs)
    as [[Hno ->] | [(Hfmt & Hen & ->) | (-> & Hex & ->)]].
  - split; [split; [intros _; exact Hno | reflexivity]|].
    split; [split; [discriminate|]|].
    + intros [-> _]. exfalso. apply Hno. right. right. reflexivity.
    + split; [intros [code Hc]; discriminate | intros [H _]; contradiction].
  - split; [split; [discriminate | intros H; contradiction]|].
    split; [split; [discriminate|]|].
    + intros [-> Hex]. exfalso. exact (short_not_encodable fs Hex Hen).
    + split; [intros _; split; assumption | intros _; eexists; reflexivity].
  - split; [split; [discriminate|]|].
    + intros H. exfalso. apply H. right. right. reflexivity.
    + split; [split; [intros _; split; [reflexivity | exact Hex] | reflexivity]|].
      split; [intros [code Hc]; discriminate|].
      intros [_ Hen]. exfalso. exact (short_not_encodable fs Hex Hen).
Qed.

Lemma frames_code_nonempty (ir_format : string) (t : Z) (prev : option Z)
      (f : list Z) (fs : list (list Z)) :
  frames_code ir_format t prev (f :: fs) <> [].
Proof.
  cbn [frames_code]. unfold leader_code.
  destruct prev; cbn [app]; [discriminate|].
  destruct (ir_format =? FORMAT_AEHA)%string; [discriminate|].
  destruct (ir_format =? FORMAT_NEC)%string; discriminate.
Qed.

(** X7: for AEHA, NEC and SONY, [encode] returns the empty code only for
    an empty list of frames: the only input on which the caller in
    [cli.py] reports a failed encoding. *)
Theorem encode_empty_only_for_no_frames (ir_format : string) (fs : list (list Z)) :
  supported ir_format ->
  (encode ir_format fs = Ok [] <-> fs = []).
Proof.
  intros Hfmt. split.
  - intros Henc.
    destruct (encode_cases ir_format fs)
      as [[Hno _] | [(_ & _ & Hshape) | (_ & _ & Hraise)]];
      [contradiction | | congruence].
    rewrite Hshape in Henc. injection Henc as Hnil.
    destruct fs as [|f fs]; [reflexivity|].
    exfalso. exact (frames_code_nonempty _ _ _ _ _ Hnil).
  - intros ->. unfold encode. rewrite encode_unit by exact Hfmt. reflexivity.
Qed.

Lemma encode_empty_only_for_no_frames_witness :
  encode FORMAT_SONY [] = Ok [] <-> @nil (list Z) = [].
Proof.
  apply (encode_empty_only_for_no_frames FORMAT_SONY []).
  right. right. reflexivity.
Defined.

(** ** Encode: bytes beyond 8 bits *)

Lemma low_bits_step (d : Z) (n : nat) :
  Z.land (d mod 2 ^ Z.of_nat (S n)) 1 = Z.land d 1 /\
  Z.shiftr (d mod 2 ^ Z.of_nat (S n)) 1 = Z.shiftr d 1 mod 2 ^ Z.of_nat n.
Proof.
  assert (Hp : 0 < 2 ^ Z.of_nat n) by (apply Z.pow_pos_nonneg; lia).
  replace (2 ^ Z.of_nat (S n)) with (2 * 2 ^ Z.of_nat n)
    by (rewrite Nat2Z.inj_succ, Z.pow_succ_r by lia; reflexivity).
  split.
  - rewrite !low_bit. apply Z.mod_mod_divide. exists (2 ^ Z.of_nat n). lia.
  - rewrite !Z.shiftr_div_pow2 by lia. change (2 ^ 1) with 2.
    rewrite Z.rem_mul_r by lia.
    pose proof (Z.mod_pos_bound d 2 ltac:(lia)).
    rewrite Z.mul_comm, Z.div_add by lia.
    rewrite Z.div_small by lia. reflexivity.
Qed.

Lemma bits_code_low (t k : Z) (n : nat) :
  forall d, bits_code t k (d mod 2 ^ Z.of_nat n) n = bits_code t k d n.
Proof.
  induction n as [|n IH]; intros d; [reflexivity|].
  cbn [bits_code].
  destruct (low_bits_step d n) as [-> ->].
  rewrite IH. reflexivity.
Qed.

Lemma bits_units_low (c : Z) (n : nat) :
  forall d, bits_units c (d mod 2 ^ Z.of_nat n) n = bits_units c d n.
Proof.
  induction n as [|n IH]; intros d; [reflexivity|].
  cbn [bits_units].
  destruct (low_bits_step d n) as [-> ->].
  rewrite IH. reflexivity.
Qed.

Lemma frames_code_low_bytes (ir_format : string) (t : Z) (fs : list (list Z)) :
  ir_format <> FORMAT_SONY -> supported ir_format ->
  forall prev,
    frames_code ir_format t prev (low_bytes fs) = frames_code ir_format t prev fs.
Proof.
  intros Hpair Hfmt.
  assert (Hs : (ir_format =? FORMAT_SONY)%string = false) by (apply String.eqb_neq, Hpair).
  assert (Hdata : forall f, data_code ir_format t (map (fun b => b mod 256) f) =
                            data_code ir_format t f).
  { intros f. unfold data_code. rewrite Hs.
    induction f as [|b f IH]; [reflexivity|].
    cbn [map flat_map]. rewrite IH. f_equal.
    apply (bits_code_low t 3 8 b). }
  assert (Hunits : forall f, frame_units ir_format (map (fun b => b mod 256) f) =
                             frame_units ir_format f).
  { intros f. unfold frame_units.
    assert (Hsum : fold_right (fun b u => bits_units 4 b 8 + u) 0 (map (fun b => b mod 256) f)
                   = fold_right (fun b u => bits_units 4 b 8 + u) 0 f).
    { induction f as [|b f IH]; [reflexivity|].
      cbn [map fold_right]. rewrite IH. f_equal.
      apply (bits_units_low 4 8 b). }
    rewrite Hsum.
    destruct Hfmt as [-> | [-> | ->]]; [reflexivity | reflexivity | contradiction]. }
  induction fs as [|f fs IH]; intros prev; [reflexivity|].
  cbn [low_bytes map frames_code]. fold (low_bytes fs).
  rewrite Hdata, Hunits, IH. reflexivity.
Qed.

(** X8: for AEHA and NEC, [encode] reads only the low 8 bits of each
    element of a frame: frames of arbitrary integers, negative ones
    included, give the code of the frames reduced modulo 256. *)
Theorem encode_reads_low_eight_bits (ir_format : string) (fs : list (list Z)) :
  ir_format = FORMAT_AEHA \/ ir_format = FORMAT_NEC ->
  exists code,
    encode ir_format fs = Ok code /\
    encode ir_format (low_bytes fs) = Ok code.
Proof.
  intros Hpair.
  assert (Hfmt : supported ir_format) by (unfold supported; tauto).
  assert (Hns : ir_format <> FORMAT_SONY) by (destruct Hpair as [-> | ->]; discriminate).
  exists (frames_code ir_format (unit_of ir_format) None fs).
  split.
  - apply encode_shape; [exact Hfmt | intros E; contradiction].
  - rewrite encode_shape; [| exact Hfmt | intros E; contradiction].
    rewrite frames_code_low_bytes by assumption. reflexivity.
Qed.

Lemma encode_reads_low_eight_bits_witness :
  exists code,
    encode FORMAT_NEC [[0x1FF; -1]] = Ok code /\
    encode FORMAT_NEC [[0xFF; 0xFF]] = Ok code.
Proof.
  apply (encode_reads_low_eight_bits FORMAT_NEC [[0x1FF; -1]]).
  right. reflexivity.
Defined.

(** ** Encode: the length of the code *)

Lemma len_flat_bits (t : Z) (f : list Z) :
  len (flat_map (fun b => bits_code t 3 b 8) f) = 16 * len f.
Proof.
  induction f as [|b f IH]; [reflexivity|].
  cbn [flat_map]. rewrite len_app, len_bits_code, len_cons, IH. lia.
Qed.

Lemma len_frames_code_pair (ir_format : string) (t : Z) (fs : list (list Z)) :
  ir_format = FORMAT_AEHA \/ ir_format = FORMAT_NEC ->
  forall prev,
    len (frames_code ir_format t prev fs) =
    4 * len fs + 16 * byte_count fs
    - (match prev with None => 1 | Some _ => 0 end) * (if len fs =? 0 then 0 else 1).
Proof.
  intros Hpair.
  induction fs as [|f fs IH]; intros prev.
  - destruct prev; reflexivity.
  - cbn [frames_code byte_count fold_right]. fold (byte_count fs).
    rewrite !len_app, IH.
    assert (Hl : len (leader_code ir_format t) = 2)
      by (destruct Hpair as [-> | ->]; reflexivity).
    assert (Hd : len (data_code ir_format t f) = 16 * len f)
      by (destruct Hpair as [-> | ->]; apply len_flat_bits).
    assert (Hst : len (stop_code ir_format t) = 1)
      by (destruct Hpair as [-> | ->]; reflexivity).
    rewrite Hl, Hd, Hst, !len_cons. cbv iota.
    pose proof (len_nonneg fs).
    destruct (Z.eqb_spec (1 + len fs) 0); [lia|].
    destruct prev; rewrite ?len_cons, ?len_nil; lia.
Qed.

Lemma len_frames_code_sony (fs : list (list Z)) :
  forall prev,
    len (frames_code FORMAT_SONY _T_SONY prev fs) =
    2 * len fs + 2 * sony_bit_count fs
    - (match prev with None => 1 | Some _ => 0 end) * (if len fs =? 0 then 0 else 1).
Proof.
  induction fs as [|f fs IH]; intros prev.
  - destruct prev; reflexivity.
  - cbn [frames_code sony_bit_count fold_right]. fold (sony_bit_count fs).
    rewrite !len_app, IH.
    change (len (leader_code FORMAT_SONY _T_SONY)) with 1.
    change (len (stop_code FORMAT_SONY _T_SONY)) with 0.
    rewrite data_code_sony, len_bits_code, !len_cons. cbv iota.
    pose proof (len_nonneg fs).
    destruct (Z.eqb_spec (1 + len fs) 0); [lia|].
    destruct prev; rewrite ?len_cons, ?len_nil; lia.
Qed.

(** X9: the code [encode] returns for a non-empty list of frames has odd
    length, so it ends on a mark: [4 * frames - 1 + 16 * bytes] elements for
    AEHA and NEC, [2 * frames - 1 + 2 * bits] for SONY, where a SONY frame
    has 12, 15 or 20 bits by the size of its second element. *)
Theorem encode_length_is_odd (ir_format : string) (fs : list (list Z)) :
  supported ir_format ->
  encodable ir_format fs ->
  fs <> [] ->
  exists code,
    encode ir_format fs = Ok code /\
    Z.odd (len code) = true /\
    len code =
      if (ir_format =? FORMAT_SONY)%string
      then 2 * len fs - 1 + 2 * sony_bit_count fs
      else 4 * len fs - 1 + 16 * byte_count fs.
Proof.
  intros Hfmt Hen Hne.
  exists (frames_code ir_format (unit_of ir_format) None fs).
  split; [apply encode_shape; assumption|].
  assert (Hlen : len fs <> 0).
  { destruct fs; [contradiction|]. rewrite len_cons. pose proof (len_nonneg fs). lia. }
  assert (Heq : len (frames_code ir_format (unit_of ir_format) None fs) =
                if (ir_format =? FORMAT_SONY)%string
                then 2 * len fs - 1 + 2 * sony_bit_count fs
                else 4 * len fs - 1 + 16 * byte_count fs).
  { destruct Hfmt as [-> | [-> | ->]].
    - rewrite len_frames_code_pair by (left; reflexivity).
      destruct (Z.eqb_spec (len fs) 0); [contradiction|]. cbn. lia.
    - rewrite len_frames_code_pair by (right; reflexivity).
      destruct (Z.eqb_spec (len fs) 0); [contradiction|]. cbn. lia.
    - change (unit_of FORMAT_SONY) with _T_SONY.
      rewrite len_frames_code_sony.
      destruct (Z.eqb_spec (len fs) 0); [contradiction|]. cbn. lia. }
  split; [|exact Heq].
  rewrite Heq.
  destruct ((ir_format =? FORMAT_SONY)%string).
  - replace (2 * len fs - 1 + 2 * sony_bit_count fs)
      with (1 + 2 * (len fs - 1 + sony_bit_count fs)) by lia.
    rewrite Z.odd_add_mul_2. reflexivity.
  - replace (4 * len fs - 1 + 16 * byte_count fs)
      with (1 + 2 * (2 * len fs - 1 + 8 * byte_count fs)) by lia.
    rewrite Z.odd_add_mul_2. reflexivity.
Qed.

Lemma encode_length_is_odd_witness :
  exists code,
    encode FORMAT_SONY [[0x15; 0x1FFF]; [0x15; 0]] = Ok code /\
    Z.odd (len code) = true /\
    len code = 67.
Proof.
  apply (encode_length_is_odd FORMAT_SONY [[0x15; 0x1FFF]; [0x15; 0]]).
  - right. right. reflexivity.
  - intros _. repeat constructor; unfold has_two, len; cbn; lia.
  - discriminate.
Defined.

(** ** Encode: frames in sequence *)








(** ** Send *)

Lemma range1_step (start stop : Z) :
  start < stop -> range start stop 1 = start :: range (start + 1) stop 1.
Proof.
  intros H. unfold range. rewrite !Z.div_1_r.
  replace (stop - start + 1 - 1) with (Z.succ (stop - (start + 1) + 1 - 1)) by lia.
  rewrite Z2Nat.inj_succ by lia. reflexivity.
Qed.

Lemma range1_done (start stop : Z) : stop <= start -> range start stop 1 = [].
Proof.
  intros H. unfold range. rewrite Z.div_1_r.
  replace (Z.to_nat (stop - start + 1 - 1)) with O by lia. reflexivity.
Qed.

Section SendProperties.

Variable wave_id : nat -> Z.
Variable gpio_send : Z.
Hypothesis gpio_nonneg : 0 <= gpio_send.

Lemma carrier_loop (k : nat) :
  forall (start : Z) (acc : list pulse),
    for_loop (fun (j : Z) (pulses : list pulse) =>
                on <- lshift 1 gpio_send ;;
                let pulses := pulses ++ [mk_pulse on 0 8] in
                off <- lshift 1 gpio_send ;;
                let pulses := pulses ++ [mk_pulse 0 off 18] in
                Ok (Continue pulses))
             (fun pulses => Ok pulses) (range_from k start 1) acc =
    Ok (acc ++ List.concat (repeat (cycle gpio_send) k)).
Proof.
  set (body := fun (j : Z) (pulses : list pulse) => _).
  assert (Hbody : forall j acc, body j acc = Ok (Continue (acc ++ cycle gpio_send))).
  { intros j acc. subst body. cbv beta. unfold lshift.
    destruct (Z.ltb_spec gpio_send 0); [lia|]. cbn [bind].
    unfold cycle. rewrite <- app_assoc. reflexivity. }
  clearbody body.
  induction k as [|k IH]; intros start acc.
  - cbn. rewrite app_nil_r. reflexivity.
  - cbn [range_from for_loop repeat List.concat].
    rewrite Hbody. cbn [bind]. rewrite IH, <- app_assoc. reflexivity.
Qed.

Lemma carrier_eq (n : Z) :
  carrier gpio_send n = Ok (List.concat (repeat (cycle gpio_send) (Z.to_nat n))).
Proof.
  unfold carrier, range. rewrite Z.div_1_r.
  replace (n - 0 + 1 - 1) with n by lia.
  apply (carrier_loop (Z.to_nat n) 0 []).
Qed.

Lemma send_mark_odd (code : list Z) (i : Z) (s : send_state) :
  i mod 2 = 1 -> send_mark wave_id gpio_send code i s = Ok (Continue s).
Proof. intros H. unfold send_mark. rewrite H. reflexivity. Qed.

Lemma send_mark_store (s : send_state) (m sp : Z) :
  ('(s, wid) <-
     match dict_get (wids s) (m, sp) with
     | None =>
         pulses <- carrier gpio_send (m / 26) ;;
         let pulses := if sp >? 0 then pulses ++ [mk_pulse 0 0 sp] else pulses in
         let wid := wave_id (List.length (wids s)) in
         Ok (mk_send_state (wids s ++ [(m, sp, wid)]) (send_wids s)
                           (calls s ++ [wave_add_generic pulses; wave_create]), wid)
     | Some wid => Ok (s, wid)
     end ;;
   Ok (Continue (mk_send_state (wids s) (send_wids s ++ [wid]) (calls s))))
  = (Ok (Continue (send_pair wave_id gpio_send s (m, sp)))
     : pyres (ctl send_state send_state)).
Proof.
  unfold send_pair.
  destruct (dict_get (wids s) (m, sp)) as [wid|]; cbn [bind]; [reflexivity|].
  rewrite carrier_eq. cbn [bind fst snd wids send_wids calls].
  unfold wave_pulses. cbn [fst snd].
  destruct (sp >? 0); rewrite ?app_nil_r; reflexivity.
Qed.

Lemma send_mark_pair (pre rest : list Z) (m sp : Z) (s : send_state) :
  len pre mod 2 = 0 ->
  send_mark wave_id gpio_send (pre ++ m :: sp :: rest) (len pre) s =
  Ok (Continue (send_pair wave_id gpio_send s (m, sp))).
Proof.
  intros Heven. unfold send_mark. rewrite Heven. cbn [Z.eqb negb].
  pose proof (len_nonneg rest).
  rewrite len_app, !len_cons.
  destruct (Z.eqb_spec (len pre) (len pre + (1 + (1 + len rest)) - 1)); [lia|].
  rewrite getitem_here, getitem_next. cbn [bind].
  apply send_mark_store.
Qed.

Lemma send_mark_last (pre : list Z) (m : Z) (s : send_state) :
  len pre mod 2 = 0 ->
  send_mark wave_id gpio_send (pre ++ [m]) (len pre) s =
  Ok (Continue (send_pair wave_id gpio_send s (m, 0))).
Proof.
  intros Heven. unfold send_mark. rewrite Heven. cbn [Z.eqb negb].
  rewrite len_app, len_cons, len_nil.
  destruct (Z.eqb_spec (len pre) (len pre + (1 + 0) - 1)); [|lia].
  rewrite getitem_here. cbn [bind].
  apply send_mark_store.
Qed.

Lemma send_loop (n : nat) :
  forall (suf pre : list Z) (s : send_state),
    (List.length suf <= n)%nat ->
    len pre mod 2 = 0 ->
    for_loop (send_mark wave_id gpio_send (pre ++ suf)) (fun s => Ok s)
             (range (len pre) (len (pre ++ suf)) 1) s =
    Ok (fold_left (send_pair wave_id gpio_send) (pairs suf) s).
Proof.
  induction n as [|n IH]; intros suf pre s Hn Heven.
  - destruct suf; [|cbn in Hn; lia].
    rewrite app_nil_r, range1_done by lia. reflexivity.
  - destruct suf as [|m [|sp rest]].
    + rewrite app_nil_r, range1_done by lia. reflexivity.
    + rewrite len_app, len_cons, len_nil.
      rewrite range1_step, range1_done by lia.
      cbn [for_loop pairs fold_left].
      rewrite send_mark_last by exact Heven. reflexivity.
    + pose proof (len_nonneg rest).
      rewrite len_app, !len_cons.
      rewrite range1_step by lia. rewrite range1_step by lia.
      cbn [for_loop pairs fold_left].
      rewrite send_mark_pair by exact Heven. cbn [bind].
      rewrite send_mark_odd by (rewrite Z.add_comm, Z.add_mod, Heven by lia; reflexivity).
      cbn [bind].
      replace (pre ++ m :: sp :: rest) with ((pre ++ [m; sp]) ++ rest)
        by (rewrite <- app_assoc; reflexivity).
      specialize (IH rest (pre ++ [m; sp])
                     (send_pair wave_id gpio_send s (m, sp))).
      rewrite !len_app, !len_cons, len_nil in IH.
      replace (len pre + 1 + 1) with (len pre + (1 + (1 + 0))) by lia.
      replace (len pre + (1 + (1 + len rest))) with (len pre + (1 + (1 + 0)) + len rest) by lia.
      apply IH.
      * cbn in Hn. lia.
      * replace (len pre + (1 + (1 + 0))) with (len pre + 1 * 2) by lia.
        rewrite Z.mod_add by lia. exact Heven.
Qed.

Lemma pair_eqb_eq (p q : Z * Z) : pair_eqb p q = true <-> p = q.
Proof.
  destruct p as [a b], q as [c d]. unfold pair_eqb. cbn [fst snd].
  rewrite andb_true_iff, !Z.eqb_eq. split; [intros [-> ->]; reflexivity|].
  intros E. injection E as -> ->. split; reflexivity.
Qed.

Lemma seen_In (p : Z * Z) (keys : list (Z * Z)) : seen p keys = true <-> In p keys.
Proof.
  unfold seen. rewrite existsb_exists. split.
  - intros (q & Hin & Hq). apply pair_eqb_eq in Hq. subst q. exact Hin.
  - intros Hin. exists p. split; [exact Hin | apply pair_eqb_eq; reflexivity].
Qed.

Lemma seen_app (p q : Z * Z) (keys : list (Z * Z)) :
  seen p (keys ++ [q]) = seen p keys || pair_eqb q p.
Proof.
  unfold seen. rewrite existsb_app. cbn [existsb]. rewrite orb_false_r. reflexivity.
Qed.

Lemma dict_get_numbered (keys : list (Z * Z)) (p : Z * Z) :
  forall base,
    dict_get (numbered wave_id base keys) p =
    if seen p keys then Some (wave_id (base + position p keys)%nat) else None.
Proof.
  induction keys as [|q keys IH]; intros base; [reflexivity|].
  cbn [numbered dict_get position]. unfold seen. cbn [existsb].
  fold (seen p keys). fold (pair_eqb q p).
  destruct (pair_eqb q p); cbn [orb].
  - rewrite Nat.add_0_r. reflexivity.
  - rewrite IH. destruct (seen p keys); [|reflexivity].
    do 2 f_equal. lia.
Qed.

Lemma numbered_app (keys : list (Z * Z)) (p : Z * Z) :
  forall base,
    numbered wave_id base (keys ++ [p]) =
    numbered wave_id base keys ++ [(fst p, snd p, wave_id (base + List.length keys)%nat)].
Proof.
  induction keys as [|q keys IH]; intros base.
  - cbn. rewrite Nat.add_0_r. reflexivity.
  - cbn [app numbered List.length]. rewrite IH.
    replace (S base + List.length keys)%nat with (base + S (List.length keys))%nat by lia.
    reflexivity.
Qed.

Lemma length_numbered (keys : list (Z * Z)) :
  forall base, List.length (numbered wave_id base keys) = List.length keys.
Proof.
  induction keys as [|q keys IH]; intros base; [reflexivity|].
  cbn [numbered List.length]. rewrite IH. reflexivity.
Qed.

Lemma position_old (p q : Z * Z) (keys : list (Z * Z)) :
  seen p keys = true -> position p (keys ++ [q]) = position p keys.
Proof.
  induction keys as [|k keys IH]; intros Hs; [discriminate|].
  unfold seen in Hs. cbn [existsb] in Hs. fold (seen p keys) in Hs.
  cbn [app position]. destruct (pair_eqb k p); [reflexivity|].
  cbn [orb] in Hs. rewrite IH by exact Hs. reflexivity.
Qed.

Lemma position_new (p : Z * Z) (keys : list (Z * Z)) :
  seen p keys = false -> position p (keys ++ [p]) = List.length keys.
Proof.
  induction keys as [|k keys IH]; intros Hs.
  - cbn [app position]. rewrite (proj2 (pair_eqb_eq p p) eq_refl). reflexivity.
  - unfold seen in Hs. cbn [existsb] in Hs. fold (seen p keys) in Hs.
    apply orb_false_iff in Hs. destruct Hs as [Hk Hs].
    cbn [app position List.length]. rewrite Hk, IH by exact Hs. reflexivity.
Qed.

Lemma distinct_app (ps : list (Z * Z)) (p : Z * Z) :
  distinct (ps ++ [p]) =
  if seen p (distinct ps) then distinct ps else distinct ps ++ [p].
Proof. unfold distinct. rewrite fold_left_app. reflexivity. Qed.

Lemma distinct_spec (ps : list (Z * Z)) :
  NoDup (distinct ps) /\ forall p, In p (distinct ps) <-> In p ps.
Proof.
  induction ps as [|p ps [Hnd Hin]] using rev_ind.
  - split; [constructor | tauto].
  - rewrite distinct_app.
    destruct (seen p (distinct ps)) eqn:Hs.
    + split; [exact Hnd|]. intros q. rewrite in_app_iff, Hin. cbn [In].
      apply seen_In in Hs. apply Hin in Hs.
      split; [tauto|]. intros [H | [<- | []]]; assumption.
    + split.
      * apply NoDup_app; [exact Hnd | repeat constructor; intros [] |].
        intros q Hq [<- | []]. apply seen_In in Hq. congruence.
      * intros q. rewrite !in_app_iff, Hin. reflexivity.
Qed.

Lemma send_fold (init : list pi_call) (ps : list (Z * Z)) :
  fold_left (send_pair wave_id gpio_send) ps (mk_send_state [] [] init) =
  mk_send_state (numbered wave_id 0 (distinct ps))
                (map (fun p => wave_id (position p (distinct ps))) ps)
                (init ++ flat_map (create_wave gpio_send) (distinct ps)).
Proof.
  induction ps as [|p ps IH] using rev_ind.
  - cbn. rewrite app_nil_r. reflexivity.
  - rewrite fold_left_app, IH. cbn [fold_left].
    unfold send_pair. cbn [wids send_wids calls].
    rewrite dict_get_numbered, distinct_app.
    destruct (seen p (distinct ps)) eqn:Hs.
    + rewrite map_app. reflexivity.
    + rewrite length_numbered, numbered_app, map_app, flat_map_app.
      cbn [map flat_map]. rewrite position_new by exact Hs.
      rewrite app_nil_r, <- app_assoc. f_equal.
      f_equal. apply map_ext_in. intros q Hq.
      rewrite position_old; [reflexivity|].
      apply seen_In, (proj2 (distinct_spec ps)), Hq.
Qed.

Lemma send_eq (code : list Z) :
  send wave_id true gpio_send code =
  Ok (true,
      [set_mode gpio_send OUTPUT; wave_clear]
        ++ flat_map (create_wave gpio_send) (distinct (pairs code))
        ++ [wave_chain (map (fun p => wave_id (position p (distinct (pairs code))))
                            (pairs code));
            wave_clear; stop]).
Proof.
  unfold send. cbn [negb].
  pose proof (send_loop (List.length code) code [] 
                (mk_send_state [] [] [set_mode gpio_send OUTPUT; wave_clear])
                (le_n _) eq_refl) as Hloop.
  cbn [app] in Hloop. change (len []) with 0 in Hloop.
  rewrite Hloop. cbn [bind]. rewrite send_fold.
  cbn [calls send_wids]. rewrite <- app_assoc. reflexivity.
Qed.

Lemma len_pairs (code : list Z) : len (pairs code) = (len code + 1) / 2.
Proof.
  assert (H : forall n code, (List.length code <= n)%nat ->
                             len (pairs code) = (len code + 1) / 2).
  { clear. induction n as [|n IH]; intros code Hn.
    - destruct code; [reflexivity | cbn in Hn; lia].
    - destruct code as [|m [|sp rest]]; [reflexivity | reflexivity|].
      cbn [pairs]. rewrite !len_cons, IH by (cbn in Hn; lia).
      replace (1 + (1 + len rest) + 1) with (len rest + 1 + 1 * 2) by lia.
      rewrite Z.div_add by lia. lia. }
  apply (H (List.length code)). apply le_n.
Qed.

(** X11: the calls [send] makes to pigpio, as long as each of them
    returns.  Connected and with a pin number that is not negative, it sets
    the pin to output, clears the waves, creates one wave for every distinct
    mark/space pair of the code, in the order the pairs first appear -- a
    pair seen before creates nothing -- and chains one wave id per pair,
    [(len(code) + 1) // 2] in all, each the id returned when the wave of that
    pair was created; then it clears the waves, stops and returns [True].
    Nothing of [send] itself -- the indexing of the code, the dictionary of
    waves, the shift by the pin number -- raises on the way.  Not connected,
    it returns [False] and calls nothing. *)
Theorem send_creates_one_wave_per_distinct_pair (code : list Z) :
  let keys := distinct (pairs code) in
  let chain := map (fun p => wave_id (position p keys)) (pairs code) in
  NoDup keys /\
  (forall p, In p keys <-> In p (pairs code)) /\
  send wave_id true gpio_send code =
    Ok (true,
        [set_mode gpio_send OUTPUT; wave_clear]
          ++ flat_map (create_wave gpio_send) keys
          ++ [wave_chain chain; wave_clear; stop]) /\
  len chain = (len code + 1) / 2 /\
  send wave_id false gpio_send code = Ok (false, []).
Proof.
  intros keys chain.
  destruct (distinct_spec (pairs code)) as [Hnd Hin].
  split; [exact Hnd|]. split; [exact Hin|].
  split; [apply send_eq|].
  split; [|reflexivity].
  subst chain. unfold len. rewrite length_map. apply len_pairs.
Qed.

Hypothesis wave_id_inj : forall a b, wave_id a = wave_id b -> a = b.

Lemma find_wave (n j : nat) :
  (j < n)%nat ->
  find (fun k => wave_id k =? wave_id j) (seq 0 n) = Some j.
Proof.
  intros Hj.
  assert (H : forall count start, (start <= j < start + count)%nat ->
                find (fun k => wave_id k =? wave_id j) (seq start count) = Some j).
  { induction count as [|count IH]; intros start Hs; [lia|].
    cbn [seq find].
    destruct (Z.eqb_spec (wave_id start) (wave_id j)) as [E | N].
    - apply wave_id_inj in E. subst. reflexivity.
    - apply IH. assert (start <> j) by (intros ->; contradiction). lia. }
  apply H. lia.
Qed.

Lemma nth_position (p : Z * Z) (keys : list (Z * Z)) (d : Z * Z) :
  In p keys ->
  (position p keys < List.length keys)%nat /\ nth (position p keys) keys d = p.
Proof.
  induction keys as [|q keys IH]; intros Hin; [contradiction|].
  cbn [position]. destruct (pair_eqb q p) eqn:E.
  - apply pair_eqb_eq in E. subst. cbn. split; [lia | reflexivity].
  - destruct Hin as [-> | Hin].
    + rewrite (proj2 (pair_eqb_eq p p) eq_refl) in E. discriminate.
    + destruct (IH Hin) as [Hlt Hnth]. cbn [List.length nth]. split; [lia | exact Hnth].
Qed.

Lemma transmitted_create (keys : list (Z * Z)) (rest : list pi_call) :
  forall waves,
    transmitted wave_id (flat_map (create_wave gpio_send) keys ++ rest) [] waves =
    transmitted wave_id rest [] (waves ++ map (wave_pulses gpio_send) keys).
Proof.
  induction keys as [|q keys IH]; intros waves.
  - cbn. rewrite app_nil_r. reflexivity.
  - cbn [flat_map create_wave app transmitted map].
    rewrite IH, <- app_assoc. reflexivity.
Qed.

Lemma wave_of_position (keys : list (Z * Z)) (p : Z * Z) :
  In p keys ->
  wave_of wave_id (map (wave_pulses gpio_send) keys) (wave_id (position p keys)) =
  wave_pulses gpio_send p.
Proof.
  intros Hin. destruct (nth_position p keys (0, 0) Hin) as [Hlt Hnth].
  unfold wave_of. rewrite length_map, find_wave by exact Hlt.
  change (@nil pulse) with (wave_pulses gpio_send (-1, 0)).
  rewrite map_nth.
  rewrite (nth_indep keys (-1, 0) (0, 0) Hlt), Hnth. reflexivity.
Qed.

Lemma duration_app (a b : list pulse) : duration (a ++ b) = duration a + duration b.
Proof.
  unfold duration. induction a as [|x a IH]; cbn [app fold_right]; [reflexivity | lia].
Qed.

Lemma duration_wave (m sp : Z) :
  0 <= m -> 0 <= sp ->
  duration (wave_pulses gpio_send (m, sp)) = m - m mod 26 + sp.
Proof.
  intros Hm Hsp. unfold wave_pulses. cbn [fst snd]. rewrite duration_app.
  assert (Hc : forall k, duration (List.concat (repeat (cycle gpio_send) k)) = 26 * Z.of_nat k).
  { induction k as [|k IH]; [reflexivity|].
    cbn [repeat List.concat]. rewrite duration_app, IH.
    unfold cycle, duration. cbn [fold_right delay]. lia. }
  rewrite Hc, Z2Nat.id by (apply Z.div_pos; lia).
  pose proof (Z.div_mod m 26 ltac:(lia)).
  destruct (Z.gtb_spec sp 0); unfold duration; cbn [fold_right delay]; lia.
Qed.

Lemma duration_pairs (n : nat) :
  forall code,
    (List.length code <= n)%nat ->
    Forall (fun x => 0 <= x) code ->
    duration (flat_map (wave_pulses gpio_send) (pairs code)) = total code - mark_loss code /\
    0 <= mark_loss code <= 25 * len (pairs code).
Proof.
  induction n as [|n IH]; intros code Hn Hpos.
  - destruct code; [|cbn in Hn; lia]. cbn. lia.
  - destruct code as [|m [|sp rest]].
    + cbn. lia.
    + inversion Hpos; subst.
      pose proof (Z.mod_pos_bound m 26 ltac:(lia)).
      cbn [pairs flat_map]. rewrite app_nil_r, duration_wave by lia.
      unfold total, mark_loss, len. cbn [pairs fold_right fst List.length]. lia.
    + inversion Hpos as [|? ? Hm Hpos']; subst.
      inversion Hpos' as [|? ? Hsp Hrest]; subst.
      pose proof (Z.mod_pos_bound m 26 ltac:(lia)).
      destruct (IH rest ltac:(cbn in Hn; lia) Hrest) as [Hd Hl].
      cbn [pairs flat_map]. rewrite duration_app, duration_wave, Hd by lia.
      unfold total, mark_loss in *. cbn [pairs fold_right fst]. rewrite len_cons. lia.
Qed.

(** X12: when [wave_create] never returns the same id twice, the pulses
    the chain of [send] plays are, pair after pair of the code,
    [mark // 26] carrier cycles of 8 us on and 18 us off on the pin and then
    the space.  For a code without negative elements they last the sum of
    the code less the remainder of every mark modulo 26: at most 25 us are
    lost per mark. *)
Theorem send_transmits_marks_in_whole_cycles (code : list Z) :
  exists cs,
    send wave_id true gpio_send code = Ok (true, cs) /\
    transmitted wave_id cs [] [] = flat_map (wave_pulses gpio_send) (pairs code) /\
    (Forall (fun x => 0 <= x) code ->
     duration (transmitted wave_id cs [] []) = total code - mark_loss code /\
     0 <= mark_loss code <= 25 * ((len code + 1) / 2)).
Proof.
  eexists. split; [apply send_eq|].
  assert (Hplay : transmitted wave_id
            ([set_mode gpio_send OUTPUT; wave_clear]
               ++ flat_map (create_wave gpio_send) (distinct (pairs code))
               ++ [wave_chain (map (fun p => wave_id (position p (distinct (pairs code))))
                                   (pairs code));
                   wave_clear; stop]) [] [] =
          flat_map (wave_pulses gpio_send) (pairs code)).
  { cbn [app transmitted]. rewrite transmitted_create.
    cbn [app transmitted]. rewrite app_nil_r.
    destruct (distinct_spec (pairs code)) as [_ Hin].
    assert (Hall : forall ps, (forall p, In p ps -> In p (distinct (pairs code))) ->
              flat_map (wave_of wave_id (map (wave_pulses gpio_send) (distinct (pairs code))))
                       (map (fun p => wave_id (position p (distinct (pairs code)))) ps) =
              flat_map (wave_pulses gpio_send) ps).
    { induction ps as [|p ps IH]; intros Hps; [reflexivity|].
      cbn [map flat_map]. rewrite wave_of_position by (apply Hps; left; reflexivity).
      rewrite IH by (intros q Hq; apply Hps; right; exact Hq). reflexivity. }
    apply Hall. intros p Hp. apply Hin, Hp. }
  split; [exact Hplay|].
  intros Hpos. rewrite Hplay, <- len_pairs.
  apply (duration_pairs (List.length code)); [apply le_n | exact Hpos].
Qed.

End SendProperties.

Lemma send_creates_one_wave_per_distinct_pair_witness :
  send Z.of_nat true 13 [30; 100; 30; 100; 52] =
  Ok (true,
      [set_mode 13 OUTPUT; wave_clear;
       wave_add_generic [mk_pulse 8192 0 8; mk_pulse 0 8192 18; mk_pulse 0 0 100];
       wave_create;
       wave_add_generic [mk_pulse 8192 0 8; mk_pulse 0 8192 18;
                         mk_pulse 8192 0 8; mk_pulse 0 8192 18];
       wave_create;
       wave_chain [0; 0; 1]; wave_clear; stop]).
Proof.
  exact (proj1 (proj2 (proj2
           (send_creates_one_wave_per_distinct_pair Z.of_nat 13 ltac:(lia)
              [30; 100; 30; 100; 52])))).
Defined.

Lemma send_transmits_marks_in_whole_cycles_witness :
  exists cs,
    send Z.of_nat true 13 [30; 100; 30; 100; 52] = Ok (true, cs) /\
    transmitted Z.of_nat cs [] [] =
      flat_map (wave_pulses 13) (pairs [30; 100; 30; 100; 52]) /\
    (Forall (fun x => 0 <= x) [30; 100; 30; 100; 52] ->
     duration (transmitted Z.of_nat cs [] []) =
       total [30; 100; 30; 100; 52] - mark_loss [30; 100; 30; 100; 52] /\
     0 <= mark_loss [30; 100; 30; 100; 52] <= 25 * ((len [30; 100; 30; 100; 52] + 1) / 2)).
Proof.
  apply (send_transmits_marks_in_whole_cycles Z.of_nat 13 ltac:(lia)).
  intros a b H. lia.
Defined.

(** ** The GPIO number of the command line *)

Lemma is_digit_char (c : ascii) (u : Decimal.uint) :
  is_digit c = true ->
  exists u', DecimalString.uint_of_char c (Some u) = Some u' /\
             DecimalString.NilEmpty.string_of_uint u' =
             String c (DecimalString.NilEmpty.string_of_uint u).
Proof.
  destruct c as [[] [] [] [] [] [] [] []]; try discriminate; intros _;
    eexists; (split; [reflexivity | reflexivity]).
Qed.

Lemma isdecimal_parses (s : string) :
  forallb is_digit (list_ascii_of_string s) = true ->
  exists u, DecimalString.NilEmpty.uint_of_string s = Some u.
Proof.
  induction s as [|c s IH]; intros H.
  - exists Decimal.Nil. reflexivity.
  - cbn [list_ascii_of_string forallb] in H. apply andb_true_iff in H.
    destruct H as [Hc Hs]. destruct (IH Hs) as (u & Hu).
    destruct (is_digit_char c u Hc) as (u' & Hu' & _).
    exists u'. cbn [DecimalString.NilEmpty.uint_of_string]. rewrite Hu. exact Hu'.
Qed.

Lemma digits_decimal (u : Decimal.uint) :
  forallb is_digit (list_ascii_of_string (DecimalString.NilEmpty.string_of_uint u)) = true.
Proof. induction u; cbn; try assumption; reflexivity. Qed.

Lemma string_of_zeros (k : nat) (u : Decimal.uint) :
  DecimalString.NilEmpty.string_of_uint (Nat.iter k Decimal.D0 u) =
  (zeros k ++ DecimalString.NilEmpty.string_of_uint u)%string.
Proof.
  induction k as [|k IH]; [reflexivity|].
  cbn [Nat.iter zeros DecimalString.NilEmpty.string_of_uint String.append].
  change (Nat.iter k Decimal.D0 u) with (Nat.iter k Decimal.D0 u).
  rewrite <- IH. reflexivity.
Qed.

Lemma of_uint_zeros (k : nat) (u : Decimal.uint) :
  Z.of_uint (Nat.iter k Decimal.D0 u) = Z.of_uint u.
Proof. induction k as [|k IH]; [reflexivity | exact IH]. Qed.

Lemma zeros_snoc (k : nat) : (zeros k ++ "0")%string = zeros (S k).
Proof.
  induction k as [|k IH]; [reflexivity|].
  cbn [zeros String.append] in *. rewrite IH. reflexivity.
Qed.

(** [str] of a number that is not negative prints its normal form. *)
Lemma str_of_uint (u : Decimal.uint) :
  str (Z.of_uint u) = DecimalString.NilEmpty.string_of_uint (Decimal.unorm u).
Proof.
  unfold str, Z.of_uint.
  rewrite <- (DecimalPos.Unsigned.to_of u).
  destruct (Pos.of_uint u) as [|p]; [reflexivity|].
  cbn [Z.of_N Z.to_int N.to_uint DecimalString.NilZero.string_of_int].
  unfold DecimalString.NilZero.string_of_uint.
  destruct (Pos.to_uint p) eqn:E; try reflexivity.
  exfalso. pose proof (DecimalPos.Unsigned.of_to p) as H. rewrite E in H. discriminate.
Qed.

Lemma str_digits (n : Z) :
  0 <= n ->
  exists u, str n = DecimalString.NilEmpty.string_of_uint u /\
            Z.of_uint u = n /\ u <> Decimal.Nil.
Proof.
  intros Hn. exists (N.to_uint (Z.to_N n)).
  assert (Hval : Z.of_uint (N.to_uint (Z.to_N n)) = n).
  { unfold Z.of_uint.
    change (Pos.of_uint (N.to_uint (Z.to_N n))) with (N.of_uint (N.to_uint (Z.to_N n))).
    rewrite DecimalN.Unsigned.of_to. lia. }
  assert (Hnn : N.to_uint (Z.to_N n) <> Decimal.Nil).
  { destruct (Z.to_N n) as [|p]; [discriminate|].
    cbn [N.to_uint]. intros E.
    pose proof (DecimalPos.Unsigned.of_to p) as H. rewrite E in H. discriminate. }
  split; [|split; assumption].
  rewrite <- Hval at 1. rewrite str_of_uint.
  rewrite <- (DecimalN.Unsigned.to_of (N.to_uint (Z.to_N n))).
  change (N.of_uint (N.to_uint (Z.to_N n))) with (N.of_uint (N.to_uint (Z.to_N n))).
  rewrite DecimalN.Unsigned.of_to. reflexivity.
Qed.

Lemma length_nonempty (u : Decimal.uint) :
  u <> Decimal.Nil ->
  String.length (DecimalString.NilEmpty.string_of_uint u) <> O.
Proof. destruct u; [contradiction | discriminate ..]. Qed.

Lemma check_gpio_numeral (k : nat) (n : Z) :
  0 <= n <= 27 -> check_gpio (zeros k ++ str n) = Ok n.
Proof.
  intros Hn. destruct (str_digits n ltac:(lia)) as (u & Hstr & Hval & Hnn).
  rewrite Hstr, <- string_of_zeros.
  set (v := Nat.iter k Decimal.D0 u).
  assert (Hv : v <> Decimal.Nil).
  { subst v. destruct k; [exact Hnn | discriminate]. }
  unfold check_gpio, isdecimal, int_.
  rewrite digits_decimal, DecimalString.NilEmpty.usu.
  destruct (Nat.eqb_spec (String.length (DecimalString.NilEmpty.string_of_uint v)) 0)
    as [E | _]; [exfalso; exact (length_nonempty v Hv E)|].
  cbn [negb andb bind]. subst v. rewrite of_uint_zeros, Hval.
  destruct (Z.geb_spec n 0); [|lia].
  destruct (Z.leb_spec n 27); [|lia]. reflexivity.
Qed.

Lemma check_gpio_cases (s : string) :
  check_gpio s = Ok (-1) \/ exists n, check_gpio s = Ok n /\ pin_numeral s n.
Proof.
  unfold check_gpio, isdecimal.
  destruct (Nat.eqb_spec (String.length s) 0) as [E | Hlen]; cbn [negb andb];
    [left; reflexivity|].
  destruct (forallb is_digit (list_ascii_of_string s)) eqn:Hd; [|left; reflexivity].
  destruct (isdecimal_parses s Hd) as (u & Hu).
  unfold int_. rewrite Hu.
  destruct (Nat.eqb_spec (String.length s) 0) as [E | _]; [contradiction|].
  cbn [bind].
  destruct (Z.geb_spec (Z.of_uint u) 0); cbn [andb]; [|left; reflexivity].
  destruct (Z.leb_spec (Z.of_uint u) 27); [|left; reflexivity].
  right. exists (Z.of_uint u). split; [reflexivity|]. split; [lia|].
  apply DecimalString.NilEmpty.sus in Hu.
  rewrite str_of_uint, <- Hu.
  set (k0 := (Decimal.nb_digits u - Decimal.nb_digits (Decimal.nzhead u))%nat).
  assert (Hs : DecimalString.NilEmpty.string_of_uint u =
               (zeros k0 ++ DecimalString.NilEmpty.string_of_uint (Decimal.nzhead u))%string).
  { rewrite <- string_of_zeros. subst k0.
    rewrite DecimalFacts.iter_D0_nzhead. reflexivity. }
  rewrite Hs.
  destruct (Decimal.nzhead u) eqn:Hnz;
    try (rewrite (DecimalFacts.unorm_nzhead u), Hnz by (rewrite Hnz; discriminate);
         exists k0; reflexivity).
  assert (Hz : Decimal.unorm u = Decimal.D0 Decimal.Nil)
    by (apply DecimalFacts.unorm_0; exact Hnz).
  rewrite Hz. cbn [Decimal.nb_digits DecimalString.NilEmpty.string_of_uint] in *.
  destruct k0 as [|k1] eqn:Ek.
  - exfalso. cbn [zeros String.append] in Hs. apply Hlen.
    rewrite <- Hu, Hs. reflexivity.
  - exists k1. rewrite zeros_snoc.
    generalize (zeros (S k1)). intros z. induction z as [|c z IHz]; [reflexivity|].
    cbn [String.append]. rewrite IHz. reflexivity.
Qed.

(** X13: [check_gpio] never raises, and returns [n] exactly for the
    strings that are the decimal numeral of an [n] from 0 to 27, leading
    zeros allowed; for every other string -- empty, with a sign, a space or
    any character that is not a digit, or with a value above 27 -- it
    returns -1. *)
Theorem check_gpio_accepts_pin_numerals (s : string) :
  (String.length s <= 4300)%nat ->
  (forall n, pin_numeral s n -> check_gpio s = Ok n) /\
  ((forall n, ~ pin_numeral s n) -> check_gpio s = Ok (-1)) /\
  (exists g, check_gpio s = Ok g /\ -1 <= g <= 27).
Proof.
  intros _. split; [|split].
  - intros n [Hn (k & ->)]. apply check_gpio_numeral, Hn.
  - intros Hno. destruct (check_gpio_cases s) as [H | (n & _ & Hn)]; [exact H|].
    exfalso. exact (Hno n Hn).
  - destruct (check_gpio_cases s) as [H | (n & H & [Hn _])].
    + exists (-1). split; [exact H | lia].
    + exists n. split; [exact H | lia].
Qed.

Lemma check_gpio_accepts_pin_numerals_witness :
  check_gpio "007" = Ok 7 /\ check_gpio "+7" = Ok (-1).
Proof.
  split.
  - apply (proj1 (check_gpio_accepts_pin_numerals "007" ltac:(cbn; lia)) 7).
    split; [lia|]. exists 2%nat. reflexivity.
  - apply (proj1 (proj2 (check_gpio_accepts_pin_numerals "+7" ltac:(cbn; lia)))).
    intros n [Hn (k & Hk)].
    destruct k; [|discriminate].
    cbn [zeros String.append] in Hk.
    destruct (str_digits n ltac:(lia)) as (u & Hstr & _ & _).
    rewrite Hstr in Hk. destruct u; discriminate.
Defined.

(** ** Printing frames *)

Lemma append_assoc (a b c : string) : ((a ++ b) ++ c = a ++ b ++ c)%string.
Proof. induction a as [|x a IH]; cbn; [reflexivity | rewrite IH; reflexivity]. Qed.

Lemma append_nil_r (a : string) : (a ++ "" = a)%string.
Proof. induction a as [|x a IH]; cbn; [reflexivity | rewrite IH; reflexivity]. Qed.

Lemma print_bytes (frame : list Z) :
  forall (suf pre : list Z) (s : string),
    frame = pre ++ suf ->
    for_loop (print_byte frame) (fun s => Ok s)
             (range (len pre) (len frame) 1) s =
    Ok (s ++ String.concat ", " (map element_text suf))%string.
Proof.
  induction suf as [|v suf IH]; intros pre s Hf.
  - rewrite Hf, app_nil_r, range1_done by lia. cbn. rewrite append_nil_r. reflexivity.
  - pose proof (len_nonneg suf).
    assert (Hlen : len frame = len pre + 1 + len suf)
      by (rewrite Hf, len_app, len_cons; lia).
    assert (Hget : getitem frame (len pre) = Ok v)
      by (rewrite Hf; apply getitem_here).
    assert (Hf' : frame = (pre ++ [v]) ++ suf)
      by (rewrite <- app_assoc; exact Hf).
    rewrite range1_step by lia.
    cbn [for_loop]. unfold print_byte at 1.
    rewrite Hget. cbn [bind].
    specialize (IH (pre ++ [v])).
    rewrite len_app, len_cons, len_nil in IH.
    replace (len pre + 1) with (len pre + (1 + 0)) by lia.
    rewrite IH by exact Hf'.
    destruct suf as [|w suf].
    + replace (len pre =? len frame - 1) with true
        by (symmetry; apply Z.eqb_eq; unfold len in *; cbn in *; lia).
      cbn [negb map String.concat]. rewrite append_nil_r. reflexivity.
    + replace (len pre =? len frame - 1) with false
        by (symmetry; apply Z.eqb_neq; rewrite len_cons in *;
            pose proof (len_nonneg suf); lia).
      cbn [negb map String.concat]. unfold element_text.
      rewrite !append_assoc. reflexivity.
Qed.

Lemma print_frame_eq (frames : list (list Z)) (pre : list (list Z)) (f : list Z)
      (rest : list (list Z)) (s : string) (first_frame : bool) :
  frames = pre ++ f :: rest ->
  print_frame frames (len pre) (s, first_frame) =
  Ok (Continue ((s ++ (if first_frame then "" else newline)
                   ++ frame_text element_text (len pre + 1) f)%string, false)).
Proof.
  intros ->. unfold print_frame.
  assert (Hget : getitem (pre ++ f :: rest) (len pre) = Ok f).
  { unfold len. apply getitem_nth.
    rewrite nth_error_app2, Nat.sub_diag by lia. reflexivity. }
  rewrite Hget. cbn [bind].
  pose proof (print_bytes f f []) as Hb. cbn [app] in Hb. change (len []) with 0 in Hb.
  rewrite Hb by reflexivity. cbn [bind].
  unfold frame_text. do 2 f_equal.
  destruct first_frame; cbn [negb]; destruct f as [|v f];
    rewrite ?len_cons; change (len []) with 0; cbn [Z.eqb map];
    try (pose proof (len_nonneg f);
         destruct (Z.eqb_spec (1 + len f) 0) as [E | _]; [lia|]);
    cbn [String.concat]; rewrite ?append_assoc, ?append_nil_r; reflexivity.
Qed.

Lemma print_frames (frames : list (list Z)) :
  forall (suf pre : list (list Z)) (s : string) (first_frame : bool),
    frames = pre ++ suf ->
    for_loop (print_frame frames) (fun st => Ok st)
             (range (len pre) (len frames) 1) (s, first_frame) =
    Ok ((s ++ (if first_frame then "" else match suf with [] => "" | _ => newline end)
           ++ String.concat newline (frames_text element_text (len pre + 1) suf))%string,
        match suf with [] => first_frame | _ => false end).
Proof.
  induction suf as [|f suf IH]; intros pre s first_frame Hf.
  - rewrite Hf, app_nil_r, range1_done by lia. cbn [for_loop frames_text String.concat].
    destruct first_frame; cbn; rewrite append_nil_r; reflexivity.
  - pose proof (len_nonneg suf).
    assert (Hlen : len frames = len pre + 1 + len suf)
      by (rewrite Hf, len_app, len_cons; lia).
    assert (Hf' : frames = (pre ++ [f]) ++ suf)
      by (rewrite <- app_assoc; exact Hf).
    rewrite range1_step by lia.
    cbn [for_loop].
    rewrite (print_frame_eq _ pre f suf) by exact Hf. cbn [bind].
    specialize (IH (pre ++ [f])).
    rewrite len_app, len_cons, len_nil in IH.
    replace (len pre + 1) with (len pre + (1 + 0)) at 2 by lia.
    rewrite IH by exact Hf'.
    cbn [frames_text]. replace (len pre + (1 + 0) + 1) with (len pre + 1 + 1) by lia.
    f_equal. f_equal; [|destruct suf; reflexivity].
    destruct suf as [|g suf].
    + cbn [frames_text String.concat]. rewrite !append_assoc, ?append_nil_r. reflexivity.
    + cbn [frames_text String.concat]. rewrite !append_assoc. reflexivity.
Qed.

Lemma frames2str_eq (ir_format : string) (fs : list (list Z)) :
  supported ir_format ->
  frames2str ir_format fs =
  Ok ("Format " ++ ir_format ++ newline
        ++ String.concat newline (frames_text element_text 1 fs))%string.
Proof.
  intros Hfmt. unfold frames2str.
  pose proof (fun s => print_frames fs fs [] s true eq_refl) as Hloop.
  change (len []) with 0 in Hloop.
  destruct Hfmt as [-> | [-> | ->]]; eval_fmt; rewrite Hloop; cbn [bind fst];
    rewrite !append_assoc; reflexivity.
Qed.

(** X14: [frames2str] never raises.  For AEHA, NEC and SONY it returns
    the line [Format <name>] followed by one line per frame, the lines joined
    by newlines: [Frame#i], a space, and the elements as [0x..] separated by
    a comma and a space; an empty frame reads [Repeat] and ends with a
    newline of its own.  For any other format it returns [Format Unknown]
    and a newline, whatever the frames. *)
Theorem frames2str_lists_frames_by_line (ir_format : string) (fs : list (list Z)) :
  (supported ir_format ->
   frames2str ir_format fs =
   Ok ("Format " ++ ir_format ++ newline
         ++ String.concat newline (frames_text element_text 1 fs))%string) /\
  (~ supported ir_format ->
   frames2str ir_format fs = Ok ("Format Unknown" ++ newline)%string).
Proof.
  split; [apply frames2str_eq|].
  intros Hno. destruct (unsupported_format _ Hno) as (E1 & E2 & E3).
  unfold frames2str. rewrite E1, E2, E3. reflexivity.
Qed.

Lemma frames2str_lists_frames_by_line_witness :
  frames2str FORMAT_NEC [[18; 52]; []; [1]] =
    Ok ("Format NEC" ++ newline
          ++ "Frame#1 0x12, 0x34" ++ newline
          ++ "Frame#2 Repeat" ++ newline ++ newline
          ++ "Frame#3 0x01")%string /\
  frames2str "RC5" [[18; 52]] = Ok ("Format Unknown" ++ newline)%string.
Proof.
  split.
  - apply (proj1 (frames2str_lists_frames_by_line FORMAT_NEC [[18; 52]; []; [1]])).
    right. left. reflexivity.
  - apply (proj2 (frames2str_lists_frames_by_line "RC5" [[18; 52]])).
    intros [E | [E | E]]; discriminate E.
Defined.

Lemma format_byte (b : Z) :
  0 <= b < 256 -> element_text b = byte_text b.
Proof.
  intros Hb.
  assert (Hall : forallb (fun n => String.eqb (element_text (Z.of_nat n))
                                              (byte_text (Z.of_nat n)))
                         (seq 0 256) = true) by (vm_compute; reflexivity).
  rewrite forallb_forall in Hall.
  specialize (Hall (Z.to_nat b)).
  rewrite Z2Nat.id in Hall by lia.
  apply String.eqb_eq, Hall, in_seq. lia.
Qed.

Lemma frames_text_bytes (fs : list (list Z)) :
  Forall (Forall (fun b => 0 <= b < 256)) fs ->
  forall i, frames_text element_text i fs = frames_text byte_text i fs.
Proof.
  induction 1 as [|f fs Hf _ IH]; intros i; [reflexivity|].
  cbn [frames_text]. rewrite IH. f_equal.
  unfold frame_text. do 3 f_equal.
  destruct f as [|v f]; [reflexivity|].
  f_equal. apply map_ext_in. intros b Hb.
  rewrite Forall_forall in Hf. apply format_byte, Hf, Hb.
Qed.

(** X15: in the text of frames of bytes, every byte from 0 to 255 is
    printed as [0x] and exactly two capital hexadecimal digits, the high
    one first. *)
Theorem frames2str_prints_bytes_as_two_hex_digits
        (ir_format : string) (fs : list (list Z)) :
  supported ir_format ->
  Forall (Forall (fun b => 0 <= b < 256)) fs ->
  frames2str ir_format fs =
  Ok ("Format " ++ ir_format ++ newline
        ++ String.concat newline (frames_text byte_text 1 fs))%string.
Proof.
  intros Hfmt Hbytes.
  rewrite frames2str_eq by exact Hfmt.
  rewrite frames_text_bytes by exact Hbytes. reflexivity.
Qed.

Lemma frames2str_prints_bytes_as_two_hex_digits_witness :
  frames2str FORMAT_AEHA [[10; 255]] =
  Ok ("Format AEHA" ++ newline ++ "Frame#1 0x0A, 0xFF")%string.
Proof.
  apply (frames2str_prints_bytes_as_two_hex_digits FORMAT_AEHA [[10; 255]]).
  - left. reflexivity.
  - repeat constructor; lia.
Defined.

(** ** Decode: the shape of the frames returned *)

Section Invariants.

Context {I St R : Type}.
Variables (body : I -> St -> pyres (ctl St R)) (Inv : St -> Prop).
Hypothesis body_keeps :
  forall i s s', Inv s -> body i s = Ok (Continue s') -> Inv s'.

Lemma run_to_keeps (idx : list I) :
  forall s s', Inv s -> run_to body idx s = Ok (Continue s') -> Inv s'.
Proof.
  induction idx as [|i idx IH]; intros s s' Hs Hrun.
  - cbn in Hrun. injection Hrun as <-. exact Hs.
  - cbn [run_to] in Hrun.
    destruct (body i s) as [[s1 | r] | e] eqn:Hb; cbn [bind] in Hrun;
      try discriminate.
    exact (IH s1 s' (body_keeps i s s1 Hs Hb) Hrun).
Qed.

End Invariants.

Lemma decode_pair_continue (code : list Z) (ir_format : string) (t i : Z)
      (s s' : dec_state) :
  decode_pair code ir_format t i s = Ok (Continue s') ->
  s' = s \/
  s' = mk_dec_state (frames s) (byte_list s) (byte s) (bit_counter s) false \/
  s' = mk_dec_state (frames s ++ [byte_list s]) [] 0 (bit_counter s) true \/
  s' = push_bit s (byte s) \/
  s' = push_bit s (byte s + Z.shiftl 1 (bit_counter s)).
Proof.
  unfold decode_pair. intros H.
  destruct (end_of_frame s) eqn:Heof;
    destruct (Z.eqb_spec i (len code - 1)) as [Hi | Hi];
    try destruct (ir_format =? FORMAT_AEHA)%string;
    try destruct (ir_format =? FORMAT_NEC)%string;
    break_body H; injection H as <-; tauto.
Qed.

Lemma push_bit_keeps (s : dec_state) (v : Z) :
  pair_inv s ->
  0 <= v < 2 ^ (bit_counter s + 1) ->
  pair_inv (push_bit s v).
Proof.
  intros (Hbc & Hbyte & Hbl & Hfr) Hv. unfold push_bit, pair_inv.
  destruct (Z.eq_dec (bit_counter s) 7) as [E7 | N7].
  - rewrite E7 in *. change ((7 + 1) mod 8) with 0. cbn [Z.eqb].
    cbn [frames byte_list byte bit_counter end_of_frame].
    change (2 ^ (7 + 1)) with 256 in Hv. change (2 ^ 0) with 1.
    repeat split; try lia; try assumption.
    apply Forall_app. split; [assumption | repeat constructor; unfold is_byte; lia].
  - rewrite Z.mod_small by lia.
    destruct (Z.eqb_spec (bit_counter s + 1) 0); [lia|].
    cbn [frames byte_list byte bit_counter end_of_frame].
    repeat split; try lia; assumption.
Qed.

Lemma decode_pair_keeps (code : list Z) (ir_format : string) (t i : Z)
      (s s' : dec_state) :
  pair_inv s ->
  decode_pair code ir_format t i s = Ok (Continue s') ->
  pair_inv s'.
Proof.
  intros Hinv H.
  pose proof Hinv as (Hbc & Hbyte & Hbl & Hfr).
  assert (Hpow : 2 ^ (bit_counter s + 1) = 2 * 2 ^ bit_counter s)
    by (rewrite Z.pow_add_r by lia; change (2 ^ 1) with 2; lia).
  destruct (decode_pair_continue _ _ _ _ _ _ H) as [-> | [-> | [-> | [-> | ->]]]].
  - exact Hinv.
  - exact Hinv.
  - unfold pair_inv. cbn [frames byte_list byte bit_counter end_of_frame].
    assert (0 < 2 ^ bit_counter s) by (apply Z.pow_pos_nonneg; lia).
    repeat split; try lia; [constructor|].
    apply Forall_app. split; [assumption | repeat constructor; assumption].
  - apply push_bit_keeps; [exact Hinv | lia].
  - apply push_bit_keeps; [exact Hinv|].
    rewrite Z.shiftl_1_l. lia.
Qed.

Lemma decode_sony_outcome (code : list Z) (ir_format : string) (t i : Z)
      (s : dec_state) (c : ctl dec_state pyval) :
  decode_sony code ir_format t i s = Ok c ->
  c = Return unknown \/
  c = Continue (mk_dec_state (sony_flush s) [] 0 0 (end_of_frame s)) \/
  exists v,
    (v = byte s \/ v = byte s + Z.shiftl 1 (bit_counter s)) /\
    let s' := mk_dec_state (frames s) (byte_list s) v (bit_counter s + 1)
                           (end_of_frame s) in
    (c = Continue s' \/
     (sony_count (bit_counter s + 1) /\ c = Return (Tuple ir_format (sony_flush s')))).
Proof.
  unfold decode_sony. intros H.
  destruct (and_ (and_ (long_space code i) (cl_at code (i + 1) (t * 4)))
                 (Ok (i <=? len code - 3))) as [[|]|e]; cbn [bind] in H;
    [injection H as <-; tauto | | discriminate].
  assert (Hbit : forall v,
             (if i =? len code - 2
              then if (bit_counter s + 1 =? 12) || (bit_counter s + 1 =? 15)
                      || (bit_counter s + 1 =? 20)
                   then Ok (Return (Tuple ir_format
                          (sony_flush (mk_dec_state (frames s) (byte_list s) v
                                         (bit_counter s + 1) (end_of_frame s)))))
                   else Ok (Return unknown)
              else Ok (Continue (mk_dec_state (frames s) (byte_list s) v
                                   (bit_counter s + 1) (end_of_frame s)))) = Ok c ->
             c = Return unknown \/
             c = Continue (mk_dec_state (frames s) (byte_list s) v
                             (bit_counter s + 1) (end_of_frame s)) \/
             (sony_count (bit_counter s + 1) /\
              c = Return (Tuple ir_format
                            (sony_flush (mk_dec_state (frames s) (byte_list s) v
                                           (bit_counter s + 1) (end_of_frame s)))))).
  { intros v Hv. unfold sony_count.
    destruct (i =? len code - 2); [|injection Hv as <-; tauto].
    destruct (Z.eqb_spec (bit_counter s + 1) 12);
      [|destruct (Z.eqb_spec (bit_counter s + 1) 15);
        [|destruct (Z.eqb_spec (bit_counter s + 1) 20)]];
      cbn [orb] in Hv; injection Hv as <-; tauto. }
  destruct (and_ (cl_at code i t) (cl_at code (i + 1) t)) as [[|]|e];
    cbn [bind] in H; [| |discriminate].
  - cbn [bit_counter] in H.
    destruct (Hbit (byte s) H) as [-> | Hc]; [tauto|].
    right. right. exists (byte s). split; [left; reflexivity | exact Hc].
  - destruct (and_ (cl_at code i t) (cl_at code (i + 1) (t * 2))) as [[|]|e];
      cbn [bind] in H; [| |discriminate].
    + cbn [bit_counter] in H.
      destruct (Hbit (byte s + Z.shiftl 1 (bit_counter s)) H) as [-> | Hc]; [tauto|].
      right. right. exists (byte s + Z.shiftl 1 (bit_counter s)).
      split; [right; reflexivity | exact Hc].
    + injection H as <-. tauto.
Qed.

Lemma sony_flush_frame (s : dec_state) :
  sony_inv s ->
  sony_flush s = frames s ++ [[Z.land (byte s) 127; Z.shiftr (byte s) 7]] /\
  0 <= Z.land (byte s) 127 < 128 /\
  0 <= Z.shiftr (byte s) 7 < 2 ^ bit_counter s.
Proof.
  intros (Hbc & Hbyte & Hbl & Hfr). unfold sony_flush. rewrite Hbl. cbn [app].
  split; [reflexivity|].
  change 127 with (Z.ones 7). rewrite Z.land_ones by lia.
  rewrite Z.shiftr_div_pow2 by lia. change (2 ^ 7) with 128.
  pose proof (Z.mod_pos_bound (byte s) 128 ltac:(lia)).
  pose proof (Z.div_mod (byte s) 128 ltac:(lia)).
  assert (0 <= byte s / 128) by (apply Z.div_pos; lia).
  repeat split; try lia.
Qed.

Lemma sony_bit_keeps (s : dec_state) (v : Z) :
  sony_inv s ->
  v = byte s \/ v = byte s + Z.shiftl 1 (bit_counter s) ->
  sony_inv (mk_dec_state (frames s) (byte_list s) v (bit_counter s + 1) (end_of_frame s)).
Proof.
  intros (Hbc & Hbyte & Hbl & Hfr) Hv. unfold sony_inv.
  cbn [frames byte_list byte bit_counter end_of_frame].
  assert (Hpow : 2 ^ (bit_counter s + 1) = 2 * 2 ^ bit_counter s)
    by (rewrite Z.pow_add_r by lia; change (2 ^ 1) with 2; lia).
  rewrite Z.shiftl_1_l in Hv.
  repeat split; try assumption; destruct Hv as [-> | ->]; lia.
Qed.

Lemma decode_sony_keeps (code : list Z) (ir_format : string) (t i : Z)
      (s s' : dec_state) :
  sony_inv s ->
  decode_sony code ir_format t i s = Ok (Continue s') ->
  sony_inv s'.
Proof.
  intros Hinv H.
  destruct (decode_sony_outcome _ _ _ _ _ _ H)
    as [Hc | [Hc | (v & Hv & [Hc | [_ Hc]])]]; try discriminate.
  - injection Hc as ->.
    destruct (sony_flush_frame s Hinv) as (Hflush & Hlo & Hhi).
    destruct Hinv as (Hbc & Hbyte & Hbl & Hfr).
    unfold sony_inv. cbn [frames byte_list byte bit_counter end_of_frame].
    rewrite Hflush. change (2 ^ 0) with 1.
    repeat split; try lia.
    apply Forall_app. split; [assumption|]. repeat constructor.
    eexists _, _. split; [reflexivity | lia].
  - injection Hc as ->. apply sony_bit_keeps; assumption.
Qed.

Lemma decode_sony_final (code : list Z) (ir_format : string) (t i : Z)
      (s : dec_state) (r : pyval) :
  sony_inv s ->
  decode_sony code ir_format t i s = Ok (Return r) ->
  r = unknown \/
  exists fs f, r = Tuple ir_format (fs ++ [f]) /\
               Forall loose_sony_frame fs /\ sony_frame f.
Proof.
  intros Hinv H.
  destruct (decode_sony_outcome _ _ _ _ _ _ H)
    as [Hc | [Hc | (v & Hv & [Hc | [Hcount Hc]])]]; try discriminate.
  - injection Hc as ->. left. reflexivity.
  - injection Hc as ->. right.
    pose proof (sony_bit_keeps s v Hinv Hv) as Hinv'.
    destruct (sony_flush_frame _ Hinv') as (Hflush & Hlo & Hhi).
    cbn [frames byte_list byte bit_counter end_of_frame] in *.
    destruct Hinv' as (Hbc' & Hbyte' & _ & Hfr').
    cbn [frames byte_list byte bit_counter end_of_frame] in *.
    rewrite Hflush. eexists _, _. split; [reflexivity|]. split; [exact Hfr'|].
    eexists _, _. split; [reflexivity|]. split; [lia|].
    rewrite Z.shiftr_div_pow2 in * by lia. change (2 ^ 7) with 128 in *.
    split; [lia|].
    apply Z.div_lt_upper_bound; [lia|].
    assert (2 ^ (bit_counter s + 1) <= 2 ^ 20).
    { apply Z.pow_le_mono_r; [lia|]. unfold sony_count in Hcount. lia. }
    change (2 ^ 20) with 1048576 in *. lia.
Qed.

Lemma pair_loop_well_formed (code : list Z) (ir_format : string) (t : Z)
      (idx : list Z) (r : pyval) :
  ir_format = FORMAT_AEHA \/ ir_format = FORMAT_NEC ->
  for_loop (decode_pair code ir_format t) (fun _ => Ok PyNone) idx dec_init = Ok r ->
  well_formed r.
Proof.
  intros Hfmt Hloop.
  assert (Hinit : pair_inv dec_init).
  { unfold pair_inv, dec_init. cbn. repeat split; try lia; constructor. }
  destruct (for_loop_result _ _ _ _ _ Hloop)
    as [(idx1 & i & idx2 & s' & _ & Hrun & Hret) | (s' & _ & Hafter)].
  - pose proof (run_to_keeps _ pair_inv
                  (fun i s s' => decode_pair_keeps code ir_format t i s s')
                  idx1 dec_init s' Hinit Hrun) as (_ & _ & Hbl & Hfr).
    destruct (decode_pair_return _ _ _ _ _ _ Hret) as [-> | (-> & _)].
    + right. left. reflexivity.
    + right. right. left. exists ir_format, (frames s' ++ [byte_list s']).
      split; [reflexivity|]. split; [exact Hfmt|].
      apply Forall_app. split; [assumption | repeat constructor; assumption].
  - injection Hafter as <-. left. reflexivity.
Qed.

Lemma sony_loop_well_formed (code : list Z) (idx : list Z) (r : pyval) :
  for_loop (decode_sony code FORMAT_SONY _T_SONY) (fun _ => Ok PyNone) idx dec_init = Ok r ->
  well_formed r.
Proof.
  intros Hloop.
  assert (Hinit : sony_inv dec_init).
  { unfold sony_inv, dec_init. cbn. repeat split; try lia; constructor. }
  destruct (for_loop_result _ _ _ _ _ Hloop)
    as [(idx1 & i & idx2 & s' & _ & Hrun & Hret) | (s' & _ & Hafter)].
  - pose proof (run_to_keeps _ sony_inv
                  (fun i s s' => decode_sony_keeps code FORMAT_SONY _T_SONY i s s')
                  idx1 dec_init s' Hinit Hrun) as Hinv.
    destruct (decode_sony_final _ _ _ _ _ _ Hinv Hret) as [-> | (fs & f & -> & Hfs & Hf)].
    + right. left. reflexivity.
    + right. right. right. exists fs, f. auto.
  - injection Hafter as <-. left. reflexivity.
Qed.

(** X16: whatever the code, a result of [decode] is well formed: [None],
    [(Unknown, [])], AEHA or NEC frames whose elements are all bytes from 0
    to 255, or SONY frames [[low7, high]] with [low7] below 128 and, in
    the last frame, [high] below 8192.  For a code of odd length [decode]
    does return, and not [None]. *)
Theorem decode_returns_well_formed_frames (code : list Z) :
  (forall r, decode code = Ok r -> well_formed r) /\
  (Z.odd (len code) = true ->
   exists r, decode code = Ok r /\ r <> PyNone).
Proof.
  split.
  - intros r Hr.
    destruct (decode_cases code)
      as [[_ H] | [[_ (e & _ & H)] | [[_ [_ H]] | [[_ (f & t & Hf & _ & H)] | [_ [_ H]]]]]];
      rewrite H in Hr.
    + injection Hr as <-. right. left. reflexivity.
    + discriminate.
    + injection Hr as <-. right. left. reflexivity.
    + refine (pair_loop_well_formed code f t _ r _ Hr).
      destruct Hf as [[-> _] | [-> _]]; [left | right]; reflexivity.
    + exact (sony_loop_well_formed code _ r Hr).
  - intros Hodd.
    destruct (decode_odd_length_returns_pair code Hodd) as (r & Hr & Hpair).
    exists r. split; [exact Hr|].
    destruct Hpair as [-> | (f & fs & -> & _)]; discriminate.
Qed.

Lemma decode_returns_well_formed_frames_witness :
  well_formed (Tuple FORMAT_NEC [[0]; [254]]) /\
  exists r, decode [8960; 4480; 560; 560; 560; 560; 560; 560; 560; 560; 560] = Ok r /\
            r <> PyNone.
Proof.
  split.
  - apply (proj1 (decode_returns_well_formed_frames
             ([8960; 4480]
                ++ [560; 560; 560; 560; 560; 560; 560; 560; 560; 560; 560; 560; 560; 560; 560; 560]
                ++ [560; 1680]
                ++ [560; 10000; 8960; 4480]
                ++ [560; 1680; 560; 1680; 560; 1680; 560; 1680; 560; 1680; 560; 1680; 560; 1680]
                ++ [560]))).
    vm_compute. reflexivity.
  - apply (proj2 (decode_returns_well_formed_frames
             [8960; 4480; 560; 560; 560; 560; 560; 560; 560; 560; 560])).
    reflexivity.
Defined.

(** ** Decode: measured codes of AEHA and NEC *)

Ltac near_facts :=
  repeat match goal with
         | H : near _ _ |- _ =>
             unfold near, within, _T_AEHA, _T_NEC, _T_SONY in H;
             apply andb_true_iff in H;
             let H1 := fresh "Hlo" in
             let H2 := fresh "Hhi" in
             destruct H as [H1 H2];
             apply Z.ltb_lt in H1; apply Z.ltb_lt in H2
         end.

Ltac decide_tests :=
  repeat match goal with
         | |- context [within ?a ?b] =>
             first [ replace (within a b) with true
                       by (symmetry; unfold within, _T_AEHA, _T_NEC, _T_SONY;
                           apply andb_true_iff; split; apply Z.ltb_lt; lia)
                   | replace (within a b) with false
                       by (symmetry; unfold within, _T_AEHA, _T_NEC, _T_SONY;
                           apply andb_false_iff;
                           first [left; apply Z.ltb_ge; lia | right; apply Z.ltb_ge; lia]) ]
         | |- context [5000 <? ?a] =>
             first [ replace (5000 <? a) with true by (symmetry; apply Z.ltb_lt; lia)
                   | replace (5000 <? a) with false by (symmetry; apply Z.ltb_ge; lia) ]
         end.

Section PairStepsNear.

Variables (ir_format : string) (t : Z).
Hypothesis Hfmt : pair_format ir_format t.

Lemma pair_bit_near (pre rest : list Z) (x y : Z) (b : bool) (s : dec_state) :
  end_of_frame s = false ->
  near x t -> near y (bit_space t 3 b) ->
  decode_pair (pre ++ x :: y :: rest) ir_format t (len pre) s =
  Ok (Continue (push_bit s (if b then byte s + Z.shiftl 1 (bit_counter s) else byte s))).
Proof.
  intros Heof Hx Hy. pose proof (len_nonneg rest).
  unfold decode_pair. rewrite Heof.
  destruct Hfmt as [[-> ->] | [-> ->]]; destruct b; unfold bit_space in Hy;
    read_code; index_tests; near_facts; decide_tests; reflexivity.
Qed.

Lemma pair_stop_wait_near (pre rest : list Z) (x w : Z) (s : dec_state) :
  end_of_frame s = false ->
  near x t -> 5000 < w ->
  decode_pair (pre ++ x :: w :: rest) ir_format t (len pre) s =
  Ok (Continue (mk_dec_state (frames s ++ [byte_list s]) [] 0 (bit_counter s) true)).
Proof.
  intros Heof Hx Hw. pose proof (len_nonneg rest).
  unfold decode_pair. rewrite Heof.
  destruct Hfmt as [[-> ->] | [-> ->]];
    read_code; index_tests; near_facts; decide_tests; reflexivity.
Qed.

Lemma pair_leader_near (pre rest : list Z) (l1 l2 : Z) (s : dec_state) :
  end_of_frame s = true ->
  later_leader ir_format l1 l2 ->
  decode_pair (pre ++ l1 :: l2 :: rest) ir_format t (len pre) s =
  Ok (Continue (mk_dec_state (frames s) (byte_list s) (byte s) (bit_counter s) false)).
Proof.
  intros Heof Hl. pose proof (len_nonneg rest).
  unfold decode_pair. rewrite Heof.
  unfold later_leader in Hl.
  destruct Hfmt as [[-> ->] | [-> ->]]; revert Hl; eval_fmt; intros [Hl1 [Hl2 | Hl2]];
    read_code; index_tests; near_facts; decide_tests; cbn [and_ bind];
    try reflexivity;
    match goal with |- context [within ?a ?b] => destruct (within a b) end;
    reflexivity.
Qed.

Lemma pair_final_stop_near (pre : list Z) (x : Z) (s : dec_state) :
  end_of_frame s = false ->
  bit_counter s = 0 ->
  near x t ->
  decode_pair (pre ++ [x]) ir_format t (len pre) s =
  Ok (Return (Tuple ir_format (frames s ++ [byte_list s]))).
Proof.
  intros Heof Hbc Hx.
  unfold decode_pair. rewrite Heof, Hbc.
  destruct Hfmt as [[-> ->] | [-> ->]];
    read_code; index_tests; near_facts; decide_tests; reflexivity.
Qed.

End PairStepsNear.

Section PairRunsNear.

Variables (ir_format : string) (t : Z).
Hypothesis Hfmt : pair_format ir_format t.

Lemma pair_bits_near (n : nat) :
  forall d m pre rest s,
    Forall2 near m (bits_code t 3 d n) ->
    end_of_frame s = false ->
    0 <= bit_counter s ->
    bit_counter s + Z.of_nat n < 8 ->
    resume (pair_body ir_format t) pre (m ++ rest) s =
    resume (pair_body ir_format t) (pre ++ m) rest
           (add_bits s (d mod 2 ^ Z.of_nat n) (Z.of_nat n)).
Proof.
  induction n as [|n IH]; intros d m pre rest s Hm Heof H0 H8.
  - inversion Hm; subst. cbn [app]. rewrite app_nil_r, add_bits_none. reflexivity.
  - cbn [bits_code] in Hm.
    inversion Hm as [|x nx m1 ? Hx Hm1]; subst.
    inversion Hm1 as [|y ny m2 ? Hy Hm2]; subst.
    cbn [app].
    erewrite resume_continue
      by (apply (pair_bit_near _ _ Hfmt); [exact Heof | exact Hx | exact Hy]).
    rewrite push_bit_inside by lia.
    rewrite (IH (Z.shiftr d 1) m2)
      by (cbn [end_of_frame bit_counter]; first [exact Hm2 | exact Heof | lia]).
    replace (pre ++ x :: y :: m2) with ((pre ++ [x; y]) ++ m2)
      by (rewrite <- app_assoc; reflexivity).
    f_equal. unfold add_bits.
    cbn [frames byte_list byte bit_counter end_of_frame].
    f_equal; [apply bit_weight; exact H0 | lia].
Qed.

Lemma pair_byte_near (d : Z) (m pre rest : list Z) (fr : list (list Z)) (bl : list Z) :
  0 <= d < 256 ->
  Forall2 near m (bits_code t 3 d 8) ->
  resume (pair_body ir_format t) pre (m ++ rest) (mk_dec_state fr bl 0 0 false) =
  resume (pair_body ir_format t) (pre ++ m) rest (mk_dec_state fr (bl ++ [d]) 0 0 false).
Proof.
  intros Hd Hm.
  change (bits_code t 3 d 8) with (bits_code t 3 d (7 + 1)) in Hm.
  rewrite (bits_code_app t 3 7 1 d) in Hm.
  apply Forall2_app_inv_r in Hm. destruct Hm as (low & high & Hlow & Hhigh & ->).
  cbn [bits_code] in Hhigh.
  inversion Hhigh as [|x nx h1 ? Hx Hh1]; subst.
  inversion Hh1 as [|y ny h2 ? Hy Hh2]; subst.
  inversion Hh2; subst.
  rewrite <- app_assoc.
  rewrite (pair_bits_near 7 d low) by (cbn; first [exact Hlow | reflexivity | lia]).
  cbn [app].
  erewrite resume_continue
    by (apply (pair_bit_near _ _ Hfmt); [reflexivity | exact Hx | exact Hy]).
  replace ((pre ++ low) ++ [x; y]) with (pre ++ low ++ [x; y])
    by (rewrite app_assoc; reflexivity).
  f_equal.
  unfold push_bit, add_bits.
  cbn [frames byte_list byte bit_counter end_of_frame].
  change ((0 + Z.of_nat 7 + 1) mod 8 =? 0) with true. cbv iota.
  change ((0 + Z.of_nat 7 + 1) mod 8) with 0.
  do 2 f_equal.
  change (Z.of_nat 7) with 7. change (0 + 7) with 7.
  rewrite Z.shiftl_1_l, low_bit, Z.shiftr_div_pow2 by lia.
  change (2 ^ 0) with 1. change (2 ^ 7) with 128.
  pose proof (Z.div_mod d 128 ltac:(lia)).
  pose proof (Z.mod_pos_bound d 128 ltac:(lia)).
  assert (0 <= d / 128 < 2) by (split; [apply Z.div_pos | apply Z.div_lt_upper_bound]; lia).
  rewrite (Z.mod_small (d / 128)) by lia.
  destruct (Z.eqb_spec (d / 128) 0); cbn [negb]; f_equal; lia.
Qed.

Lemma pair_bytes_near (frame : list Z) :
  Forall is_byte frame ->
  forall m pre rest fr bl,
    Forall2 near m (flat_map (fun b => bits_code t 3 b 8) frame) ->
    resume (pair_body ir_format t) pre (m ++ rest) (mk_dec_state fr bl 0 0 false) =
    resume (pair_body ir_format t) (pre ++ m) rest
           (mk_dec_state fr (bl ++ frame) 0 0 false).
Proof.
  induction 1 as [|b frame Hb _ IH]; intros m pre rest fr bl Hm.
  - inversion Hm; subst. cbn [app]. rewrite !app_nil_r. reflexivity.
  - cbn [flat_map] in Hm.
    apply Forall2_app_inv_r in Hm. destruct Hm as (m1 & m2 & Hm1 & Hm2 & ->).
    rewrite <- app_assoc.
    rewrite (pair_byte_near b m1) by assumption.
    rewrite (IH m2) by exact Hm2.
    rewrite <- !app_assoc. reflexivity.
Qed.

Lemma pair_frames_near (m : list Z) (fs : list (list Z)) :
  reads_frames ir_format t m fs ->
  Forall (Forall is_byte) fs ->
  forall pre done,
    resume (pair_body ir_format t) pre m (mk_dec_state done [] 0 0 false) =
    Ok (Tuple ir_format (done ++ fs)).
Proof.
  induction 1 as [data x f Hdata Hx | data x w l1 l2 rest f fs Hdata Hx Hw Hl Hrest IH];
    intros Hbytes pre done; inversion Hbytes as [|? ? Hf Hfs]; subst.
  - rewrite (pair_bytes_near f Hf data) by exact Hdata.
    erewrite resume_return
      by (apply (pair_final_stop_near _ _ Hfmt); [reflexivity | reflexivity | exact Hx]).
    reflexivity.
  - rewrite (pair_bytes_near f Hf data) by exact Hdata.
    erewrite resume_continue
      by (apply (pair_stop_wait_near _ _ Hfmt); [reflexivity | exact Hx | exact Hw]).
    erewrite resume_continue
      by (apply (pair_leader_near _ _ Hfmt); [reflexivity | exact Hl]).
    cbn [frames byte_list byte bit_counter app].
    rewrite IH by exact Hfs.
    rewrite <- app_assoc. reflexivity.
Qed.

End PairRunsNear.

Lemma reads_frames_length (ir_format : string) (t : Z) (m : list Z) (fs : list (list Z)) :
  reads_frames ir_format t m fs ->
  len m = 4 * len fs - 3 + 16 * byte_count fs.
Proof.
  induction 1 as [data x f Hdata Hx | data x w l1 l2 rest f fs Hdata Hx Hw Hl Hrest IH].
  - apply Forall2_length in Hdata.
    rewrite len_app. unfold len at 1. rewrite Hdata. fold (len (flat_map (fun b => bits_code t 3 b 8) f)).
    rewrite len_flat_bits. unfold byte_count. cbn [fold_right].
    rewrite !len_cons. change (len (@nil (list Z))) with 0. change (len (@nil Z)) with 0. lia.
  - apply Forall2_length in Hdata.
    rewrite len_app. unfold len at 1. rewrite Hdata. fold (len (flat_map (fun b => bits_code t 3 b 8) f)).
    rewrite len_flat_bits, !len_cons, IH. unfold byte_count. cbn [fold_right].
    fold (byte_count fs). lia.
Qed.

(** The measured codes [decode] reads as AEHA or NEC frames. *)
Lemma decode_reads_frames (ir_format : string) (t l0 l1 : Z) (m : list Z)
      (fs : list (list Z)) :
  pair_format ir_format t ->
  near l0 (if (ir_format =? FORMAT_AEHA)%string then t * 8 else t * 16) ->
  near l1 (if (ir_format =? FORMAT_AEHA)%string then t * 4 else t * 8) ->
  reads_frames ir_format t m fs ->
  Forall (Forall is_byte) fs ->
  8 <= len m ->
  decode (l0 :: l1 :: m) = Ok (Tuple ir_format fs).
Proof.
  intros Hfmt Hl0 Hl1 Hreads Hbytes Hlen.
  pose proof (pair_frames_near ir_format t Hfmt m fs Hreads Hbytes [l0; l1] []) as Hrun.
  unfold resume in Hrun. cbn [app] in Hrun.
  rewrite (decode_start _ ir_format t).
  - destruct Hfmt as [[-> ->] | [-> ->]]; exact Hrun.
  - rewrite !len_cons. lia.
  - unfold leader.
    rewrite !(cl_at_within _ _ _ _ (getitem_0 _ _)) by in_targets.
    rewrite !(cl_at_within _ _ _ _ (getitem_1 _ _ _)) by in_targets.
    destruct Hfmt as [[-> ->] | [-> ->]]; revert Hl0 Hl1; eval_fmt; intros Hl0 Hl1;
      near_facts; decide_tests; reflexivity.
Qed.

Lemma near_refl (n : Z) : 0 < n -> near n n.
Proof.
  intros H. unfold near, within.
  apply andb_true_iff. split; apply Z.ltb_lt; lia.
Qed.

Lemma jitter_near (m n : list Z) : Forall2 jitter m n -> Forall2 near m n.
Proof. induction 1 as [|x y m n [H _] _ IH]; constructor; assumption. Qed.

Lemma byte_count_nonneg (fs : list (list Z)) : 0 <= byte_count fs.
Proof.
  induction fs as [|f fs IH]; [cbn; lia|].
  unfold byte_count in *. cbn [fold_right]. pose proof (len_nonneg f). lia.
Qed.

Section Jitter.

Variables (ir_format : string) (t : Z).
Hypothesis Hfmt : pair_format ir_format t.

Lemma pair_data_code (f : list Z) :
  data_code ir_format t f = flat_map (fun b => bits_code t 3 b 8) f.
Proof. unfold data_code. destruct Hfmt as [[-> _] | [-> _]]; reflexivity. Qed.

Lemma pair_stop_code : stop_code ir_format t = [t].
Proof. unfold stop_code. destruct Hfmt as [[-> _] | [-> _]]; reflexivity. Qed.

Lemma pair_leader_code :
  leader_code ir_format t =
  [if (ir_format =? FORMAT_AEHA)%string then t * 8 else t * 16;
   if (ir_format =? FORMAT_AEHA)%string then t * 4 else t * 8].
Proof. unfold leader_code. destruct Hfmt as [[-> _] | [-> _]]; reflexivity. Qed.

Lemma jitter_reads_frames (fs : list (list Z)) :
  forall f m,
    gaps_long ir_format t (f :: fs) ->
    Forall2 jitter m (data_code ir_format t f ++ stop_code ir_format t
                        ++ frames_code ir_format t (Some (frame_units ir_format f)) fs) ->
    reads_frames ir_format t m (f :: fs).
Proof.
  induction fs as [|f' fs' IH]; intros f m Hgaps Hm;
    rewrite pair_data_code, pair_stop_code in Hm;
    apply Forall2_app_inv_r in Hm; destruct Hm as (data & tail & Hdata & Htail & ->);
    apply jitter_near in Hdata.
  - cbn [frames_code app] in Htail.
    inversion Htail as [|x nx tl ? [Hx _] Htl]; subst. inversion Htl; subst.
    apply reads_last; assumption.
  - destruct Hgaps as [Hgap Hgaps]. specialize (Hgap ltac:(discriminate)).
    cbn [frames_code] in Htail. rewrite pair_leader_code in Htail. cbn [app] in Htail.
    inversion Htail as [|x nx tl1 ? [Hx _] Htl1]; subst.
    inversion Htl1 as [|w nw tl2 ? [_ Hw] Htl2]; subst.
    inversion Htl2 as [|l1 n1 tl3 ? [Hl1 _] Htl3]; subst.
    inversion Htl3 as [|l2 n2 tl4 ? [Hl2 _] Htl4]; subst.
    apply reads_more; try assumption.
    + apply Hw, Hgap.
    + unfold later_leader.
      destruct Hfmt as [[-> ->] | [-> ->]]; revert Hl1 Hl2; eval_fmt; tauto.
    + apply IH; assumption.
Qed.

Lemma repeat_reads_frames (gaps : list Z) :
  Forall (fun w => 5000 < w) gaps ->
  forall data f,
    Forall2 near data (flat_map (fun b => bits_code t 3 b 8) f) ->
    reads_frames ir_format t (data ++ t :: flat_map (repeat_code ir_format) gaps)
                 (f :: repeat [] (List.length gaps)).
Proof.
  assert (Ht : 0 < t) by (destruct Hfmt as [[_ ->] | [_ ->]]; reflexivity).
  induction 1 as [|w gaps Hw _ IH]; intros data f Hdata.
  - cbn [flat_map List.length repeat]. apply reads_last; [exact Hdata | apply near_refl, Ht].
  - cbn [flat_map List.length repeat].
    assert (Hrep : exists l1 l2,
               repeat_code ir_format w = [w; l1; l2; t] /\ later_leader ir_format l1 l2).
    { unfold repeat_code, later_leader.
      destruct Hfmt as [[-> ->] | [-> ->]]; eval_fmt;
        eexists _, _; (split; [reflexivity|]);
        (split; [|right]); apply near_refl; reflexivity. }
    destruct Hrep as (l1 & l2 & -> & Hl). cbn [app].
    apply reads_more; try assumption; [apply near_refl, Ht|].
    apply (IH [] []). constructor.
Qed.

End Jitter.

Lemma nominal_data (t : Z) (f : list Z) :
  0 < t ->
  Forall2 near (flat_map (fun b => bits_code t 3 b 8) f)
               (flat_map (fun b => bits_code t 3 b 8) f).
Proof.
  intros Ht.
  assert (H : forall l : list Z, Forall (fun n => 0 < n) l -> Forall2 near l l).
  { induction 1; constructor; [apply near_refl|]; assumption. }
  apply H. apply Forall_flat_map, Forall_forall. intros b _.
  generalize 8%nat as n. revert b.
  intros b n. revert b. induction n as [|n IH]; intros b; [constructor|].
  cbn [bits_code]. constructor; [exact Ht|]. constructor; [|apply IH].
  unfold bit_space. destruct (negb _); lia.
Qed.

Lemma decode_jitter_frames (ir_format : string) (t : Z) (f : list Z)
      (fs : list (list Z)) (measured : list Z) :
  pair_format ir_format t ->
  f <> [] ->
  Forall (Forall is_byte) (f :: fs) ->
  gaps_long ir_format t (f :: fs) ->
  Forall2 jitter measured (frames_code ir_format t None (f :: fs)) ->
  decode measured = Ok (Tuple ir_format (f :: fs)).
Proof.
  intros Hfmt Hne Hbytes Hgaps Hm.
  cbn [frames_code app] in Hm. rewrite (pair_leader_code _ _ Hfmt) in Hm. cbn [app] in Hm.
  inversion Hm as [|l0 n0 m1 ? [Hl0 _] Hm1]; subst.
  inversion Hm1 as [|l1 n1 m2 ? [Hl1 _] Hm2]; subst.
  pose proof (jitter_reads_frames ir_format t Hfmt fs f m2 Hgaps Hm2) as Hreads.
  apply (decode_reads_frames ir_format t l0 l1 m2 (f :: fs) Hfmt Hl0 Hl1 Hreads Hbytes).
  rewrite (reads_frames_length _ _ _ _ Hreads).
  pose proof (byte_count_nonneg fs). pose proof (len_nonneg fs).
  unfold byte_count in *. cbn [fold_right]. rewrite len_cons.
  destruct f as [|b f]; [contradiction|]. rewrite len_cons.
  pose proof (len_nonneg f). lia.
Qed.

Lemma pair_gaps_long (ir_format : string) (fs : list (list Z)) :
  ir_format = FORMAT_AEHA \/ ir_format = FORMAT_NEC ->
  (ir_format = FORMAT_NEC -> nec_frames_fit fs) ->
  gaps_long ir_format (unit_of ir_format) fs.
Proof.
  intros [-> | ->] Hfit.
  - apply aeha_gaps_long.
  - apply nec_gaps_long, Hfit. reflexivity.
Qed.

(** X17: [decode] tolerates jitter.  Take the code [encode] gives for
    AEHA or NEC frames of bytes -- the first frame not empty, and for NEC
    every frame that is followed by another of at most 183 units -- and
    replace every length by a measured one within the 35% window of the
    nominal length, a gap staying above 5000: the measured code still
    decodes to the format and the frames. *)
Theorem decode_tolerates_jitter
        (ir_format : string) (f : list Z) (fs : list (list Z)) :
  ir_format = FORMAT_AEHA \/ ir_format = FORMAT_NEC ->
  f <> [] ->
  Forall (Forall is_byte) (f :: fs) ->
  (ir_format = FORMAT_NEC -> nec_frames_fit (f :: fs)) ->
  exists nominal,
    encode ir_format (f :: fs) = Ok nominal /\
    forall measured,
      Forall2 jitter measured nominal ->
      decode measured = Ok (Tuple ir_format (f :: fs)).
Proof.
  intros Hpair Hne Hbytes Hfit.
  set (t := unit_of ir_format).
  assert (Hfmt : pair_format ir_format t)
    by (subst t; destruct Hpair as [-> | ->]; [left | right]; split; reflexivity).
  exists (frames_code ir_format t None (f :: fs)).
  split.
  { apply encode_shape; [unfold supported; tauto|].
    intros E. destruct Hpair as [-> | ->]; discriminate E. }
  intros measured Hm.
  apply (decode_jitter_frames ir_format t f fs measured Hfmt Hne Hbytes); [|exact Hm].
  apply pair_gaps_long; assumption.
Qed.

Lemma decode_tolerates_jitter_witness :
  exists nominal,
    encode FORMAT_NEC [[0x01]; []] = Ok nominal /\
    decode [9500; 4000; 600; 1500; 500; 600; 600; 500; 520; 610; 450; 700; 560; 560;
            560; 560; 560; 560; 540; 60000; 8000; 5000; 700] =
    Ok (Tuple FORMAT_NEC [[0x01]; []]).
Proof.
  destruct (decode_tolerates_jitter FORMAT_NEC [0x01] [[]]) as (nominal & Henc & Hdec).
  - right. reflexivity.
  - discriminate.
  - repeat constructor; unfold is_byte; lia.
  - intros _. cbn. split; [intros _; vm_compute; discriminate | split; [intros C; contradiction | exact I]].
  - exists nominal. split; [exact Henc|].
    apply Hdec.
    vm_compute in Henc. injection Henc as <-.
    repeat constructor; vm_compute; intros; try reflexivity; try discriminate.
Defined.

(** X18: after the code of one AEHA or NEC frame of bytes, every repeat
    code -- a gap above 5000, the leader mark, the repeat space and a stop
    mark -- is decoded as one more frame, an empty one. *)
Theorem decode_reads_repeat_codes
        (ir_format : string) (f : list Z) (gaps : list Z) :
  ir_format = FORMAT_AEHA \/ ir_format = FORMAT_NEC ->
  f <> [] ->
  Forall is_byte f ->
  Forall (fun w => 5000 < w) gaps ->
  exists code,
    encode ir_format [f] = Ok code /\
    decode (code ++ flat_map (repeat_code ir_format) gaps) =
    Ok (Tuple ir_format (f :: repeat [] (List.length gaps))).
Proof.
  intros Hpair Hne Hbytes Hgaps.
  set (t := unit_of ir_format).
  assert (Hfmt : pair_format ir_format t)
    by (subst t; destruct Hpair as [-> | ->]; [left | right]; split; reflexivity).
  assert (Ht : 0 < t) by (destruct Hfmt as [[_ ->] | [_ ->]]; reflexivity).
  exists (frames_code ir_format t None [f]).
  split.
  { apply encode_shape; [unfold supported; tauto|].
    intros E. destruct Hpair as [-> | ->]; discriminate E. }
  cbn [frames_code app].
  rewrite (pair_leader_code _ _ Hfmt), (pair_data_code _ _ Hfmt), (pair_stop_code _ _ Hfmt).
  rewrite app_nil_r. cbn [app]. rewrite <- app_assoc. cbn [app].
  pose proof (repeat_reads_frames ir_format t Hfmt gaps Hgaps _ f (nominal_data t f Ht))
    as Hreads.
  apply (decode_reads_frames ir_format t _ _ _ _ Hfmt); try assumption.
  - apply near_refl. destruct Hfmt as [[-> ->] | [-> ->]]; reflexivity.
  - apply near_refl. destruct Hfmt as [[-> ->] | [-> ->]]; reflexivity.
  - constructor; [exact Hbytes|].
    apply Forall_forall. intros g Hg. apply repeat_spec in Hg. subst g. constructor.
  - rewrite (reads_frames_length _ _ _ _ Hreads).
    unfold byte_count. cbn [fold_right]. rewrite len_cons.
    fold (byte_count (repeat [] (List.length gaps))).
    pose proof (byte_count_nonneg (repeat (@nil Z) (List.length gaps))).
    pose proof (len_nonneg (repeat (@nil Z) (List.length gaps))).
    destruct f as [|b f]; [contradiction|]. rewrite len_cons.
    pose proof (len_nonneg f). lia.
Qed.

Lemma decode_reads_repeat_codes_witness :
  exists code,
    encode FORMAT_NEC [[0x01]] = Ok code /\
    decode (code ++ [40000; 8960; 2240; 560; 96000; 8960; 2240; 560]) =
    Ok (Tuple FORMAT_NEC [[0x01]; []; []]).
Proof.
  apply (decode_reads_repeat_codes FORMAT_NEC [0x01] [40000; 96000]).
  - right. reflexivity.
  - discriminate.
  - repeat constructor; unfold is_byte; lia.
  - repeat constructor; lia.
Defined.

(** ** Decode: measured SONY codes *)

Lemma not_near (y n : Z) : ~ near y n -> within y n = false.
Proof. unfold near. destruct (within y n); [intros H; exfalso; apply H; reflexivity | reflexivity]. Qed.

Lemma sony_bit_near (pre rest : list Z) (x y : Z) (b : bool) (s : dec_state) :
  rest <> [] ->
  near x _T_SONY ->
  near y (bit_space _T_SONY 2 b) ->
  (b = true -> ~ near y _T_SONY) ->
  decode_sony (pre ++ x :: y :: rest) FORMAT_SONY _T_SONY (len pre) s =
  Ok (Continue (mk_dec_state (frames s) (byte_list s)
                             (if b then byte s + Z.shiftl 1 (bit_counter s) else byte s)
                             (bit_counter s + 1) (end_of_frame s))).
Proof.
  intros Hrest Hx Hy Hone. destruct rest as [|z rest]; [contradiction|].
  pose proof (len_nonneg rest).
  unfold decode_sony.
  destruct b; unfold bit_space in Hy; read_code; index_tests.
  - rewrite (not_near y _T_SONY (Hone eq_refl)).
    near_facts; decide_tests; reflexivity.
  - near_facts; decide_tests; reflexivity.
Qed.

Lemma sony_final_bit_near (pre : list Z) (x y : Z) (b : bool) (s : dec_state) :
  bit_counter s + 1 = 12 \/ bit_counter s + 1 = 15 \/ bit_counter s + 1 = 20 ->
  near x _T_SONY ->
  near y (bit_space _T_SONY 2 b) ->
  (b = true -> ~ near y _T_SONY) ->
  decode_sony (pre ++ [x; y]) FORMAT_SONY _T_SONY (len pre) s =
  Ok (Return (Tuple FORMAT_SONY
                (sony_flush (mk_dec_state (frames s) (byte_list s)
                   (if b then byte s + Z.shiftl 1 (bit_counter s) else byte s)
                   (bit_counter s + 1) (end_of_frame s))))).
Proof.
  intros Hbc Hx Hy Hone.
  unfold decode_sony.
  destruct b; unfold bit_space in Hy; read_code; index_tests.
  - rewrite (not_near y _T_SONY (Hone eq_refl)).
    near_facts; decide_tests; cbn [and_ bind bit_counter];
      destruct Hbc as [-> | [-> | ->]]; reflexivity.
  - near_facts; decide_tests; cbn [and_ bind bit_counter];
      destruct Hbc as [-> | [-> | ->]]; reflexivity.
Qed.

Lemma sony_boundary_near (pre rest : list Z) (w l z : Z) (s : dec_state) :
  5000 < w ->
  near l (_T_SONY * 4) ->
  decode_sony (pre ++ w :: l :: z :: rest) FORMAT_SONY _T_SONY (len pre) s =
  Ok (Continue (mk_dec_state (sony_flush s) [] 0 0 (end_of_frame s))).
Proof.
  intros Hw Hl. pose proof (len_nonneg rest).
  unfold decode_sony.
  read_code; index_tests; near_facts; decide_tests; reflexivity.
Qed.

Lemma sony_pair_near (x y nx : Z) (b : bool) :
  sony_jitter x _T_SONY ->
  sony_jitter y (bit_space _T_SONY 2 b) ->
  near x _T_SONY /\ near y (bit_space _T_SONY 2 b) /\ (b = true -> ~ near y _T_SONY).
Proof.
  intros [[Hx _] _] [[Hy _] Hone]. split; [exact Hx|]. split; [exact Hy|].
  intros ->. apply Hone. reflexivity.
Qed.

Lemma sony_bits_near (n : nat) :
  forall d m pre rest s,
    Forall2 sony_jitter m (bits_code _T_SONY 2 d n) ->
    rest <> [] ->
    0 <= bit_counter s ->
    resume sony_body pre (m ++ rest) s =
    resume sony_body (pre ++ m) rest (add_bits s (d mod 2 ^ Z.of_nat n) (Z.of_nat n)).
Proof.
  induction n as [|n IH]; intros d m pre rest s Hm Hrest H0.
  - inversion Hm; subst. cbn [app]. rewrite app_nil_r, add_bits_none. reflexivity.
  - cbn [bits_code] in Hm.
    inversion Hm as [|x nx m1 ? Hx Hm1]; subst.
    inversion Hm1 as [|y ny m2 ? Hy Hm2]; subst.
    destruct (sony_pair_near x y 0 _ Hx Hy) as (Hx' & Hy' & Hone).
    cbn [app].
    erewrite resume_continue
      by (apply sony_bit_near; [|exact Hx' | exact Hy' | exact Hone];
          destruct m2; [exact Hrest | discriminate]).
    rewrite (IH (Z.shiftr d 1) m2) by (cbn [bit_counter]; first [exact Hm2 | exact Hrest | lia]).
    replace (pre ++ x :: y :: m2) with ((pre ++ [x; y]) ++ m2)
      by (rewrite <- app_assoc; reflexivity).
    f_equal. unfold add_bits.
    cbn [frames byte_list byte bit_counter end_of_frame].
    f_equal; [apply bit_weight; exact H0 | lia].
Qed.

Lemma sony_bits_succ (frame : list Z) :
  exists k, sony_bits frame = S k /\ (11 <= k)%nat.
Proof.
  destruct (sony_bits_cases frame) as [-> | [-> | ->]];
    [exists 11%nat | exists 14%nat | exists 19%nat]; split; try reflexivity; lia.
Qed.

Lemma sony_frames_near (fs : list (list Z)) :
  forall f m pre done,
    Forall sony_frame (f :: fs) ->
    Forall2 sony_jitter m
            (data_code FORMAT_SONY _T_SONY f
               ++ frames_code FORMAT_SONY _T_SONY (Some (frame_units FORMAT_SONY f)) fs) ->
    resume sony_body pre m (mk_dec_state done [] 0 0 false) =
    Ok (Tuple FORMAT_SONY (done ++ f :: fs)).
Proof.
  induction fs as [|f' fs' IH]; intros f m pre done Hvalid Hm;
    inversion Hvalid as [|? ? (f0 & f1 & -> & H0 & H1) Hvalid']; subst;
    pose proof (sony_word_fits f0 f1 H0 H1) as Hfits;
    rewrite data_code_sony in Hm;
    cbv zeta in Hfits;
    set (d := sony_word [f0; f1]) in *; clearbody d.
  - cbn [frames_code] in Hm. rewrite app_nil_r in Hm.
    assert (Hn : exists k, sony_bits [f0; f1] = S k /\
                           (Z.of_nat k + 1 = 12 \/ Z.of_nat k + 1 = 15 \/ Z.of_nat k + 1 = 20)).
    { destruct (sony_bits_cases [f0; f1]) as [-> | [-> | ->]];
        [exists 11%nat | exists 14%nat | exists 19%nat]; split; try reflexivity; lia. }
    destruct Hn as (k & Hk & Hcases).
    rewrite Hk in *.
    replace (S k) with (k + 1)%nat in Hm by lia.
    rewrite bits_code_app in Hm.
    apply Forall2_app_inv_r in Hm. destruct Hm as (low & high & Hlowm & Hhighm & ->).
    cbn [bits_code] in Hhighm.
    inversion Hhighm as [|x nx h1 ? Hx Hh1]; subst.
    inversion Hh1 as [|y ny h2 ? Hy Hh2]; subst.
    inversion Hh2; subst.
    destruct (sony_pair_near x y 0 _ Hx Hy) as (Hx' & Hy' & Hone).
    rewrite (sony_bits_near k _ low) by (cbn; first [exact Hlowm | discriminate | lia]).
    erewrite resume_return
      by (apply sony_final_bit_near;
          [cbn [add_bits bit_counter]; lia | exact Hx' | exact Hy' | exact Hone]).
    destruct Hfits as (Hfit & Hlow & Hhigh).
    unfold sony_flush, add_bits.
    cbn [frames byte_list byte bit_counter end_of_frame app].
    do 3 f_equal.
    assert (Hd : (if negb (Z.land (Z.shiftr d (Z.of_nat k)) 1 =? 0)
                  then 0 + d mod 2 ^ Z.of_nat k * 2 ^ 0 + Z.shiftl 1 (0 + Z.of_nat k)
                  else 0 + d mod 2 ^ Z.of_nat k * 2 ^ 0)
                 = d).
    { etransitivity; [|exact Hfit]. rewrite <- top_bit.
      rewrite Z.shiftl_1_l, !Z.add_0_l. change (2 ^ 0) with 1.
      destruct (negb _); ring. }
    rewrite Hd, Hlow, Hhigh. reflexivity.
  - cbn [frames_code] in Hm.
    change (leader_code FORMAT_SONY _T_SONY) with [_T_SONY * 4] in Hm.
    change (stop_code FORMAT_SONY _T_SONY) with (@nil Z) in Hm.
    cbn [app] in Hm.
    apply Forall2_app_inv_r in Hm. destruct Hm as (data & tail & Hdata & Htail & ->).
    inversion Htail as [|w nw t1 ? [[_ Hw] _] Ht1]; subst.
    inversion Ht1 as [|l nl t2 ? [[Hl _] _] Ht2]; subst.
    inversion Hvalid' as [|? ? (g0 & g1 & Hg & _ & _) _]; subst.
    assert (Hnext : exists z rest, t2 = z :: rest).
    { rewrite data_code_sony in Ht2.
      destruct (sony_bits_succ [g0; g1]) as (k & E & _). rewrite E in Ht2.
      cbn [bits_code app] in Ht2.
      destruct t2 as [|z rest]; [inversion Ht2 | eauto]. }
    destruct Hnext as (z & rest & ->).
    rewrite (sony_bits_near _ _ data) by (cbn; first [exact Hdata | discriminate | lia]).
    erewrite resume_continue
      by (apply sony_boundary_near; [apply Hw, sony_gap_long | exact Hl]).
    destruct Hfits as (Hfit & Hlow & Hhigh).
    unfold sony_flush, add_bits.
    cbn [frames byte_list byte bit_counter end_of_frame app].
    rewrite Hfit. change (2 ^ 0) with 1.
    rewrite Z.add_0_l, Z.mul_1_r, Hlow, Hhigh.
    rewrite (IH [g0; g1] (z :: rest)) by assumption.
    rewrite <- app_assoc. reflexivity.
Qed.

Lemma sony_frames_have_two (fs : list (list Z)) :
  Forall sony_frame fs -> encodable FORMAT_SONY fs.
Proof.
  intros Hvalid _. eapply Forall_impl; [|exact Hvalid].
  intros g (g0 & g1 & -> & _). unfold has_two, len. cbn. lia.
Qed.

Lemma decode_jitter_sony (f : list Z) (fs : list (list Z)) (measured : list Z) :
  Forall sony_frame (f :: fs) ->
  Forall2 sony_jitter measured (frames_code FORMAT_SONY _T_SONY None (f :: fs)) ->
  decode measured = Ok (Tuple FORMAT_SONY (f :: fs)).
Proof.
  intros Hvalid Hm.
  cbn [frames_code app] in Hm.
  change (leader_code FORMAT_SONY _T_SONY) with [_T_SONY * 4] in Hm.
  change (stop_code FORMAT_SONY _T_SONY) with (@nil Z) in Hm.
  cbn [app] in Hm.
  inversion Hm as [|l0 n0 m1 ? [[Hl0 _] _] Hm1]; subst.
  pose proof (sony_frames_near fs f m1 [l0] [] Hvalid Hm1) as Hrun.
  assert (Hshape : exists l1 rest, m1 = l1 :: rest /\ near l1 _T_SONY /\ 23 <= len rest).
  { pose proof (Forall2_length Hm1) as Hlen.
    rewrite data_code_sony in Hm1.
    destruct (sony_bits_succ f) as (k & E & Hk). rewrite E in Hm1.
    cbn [bits_code app] in Hm1.
    destruct m1 as [|l1 rest]; [inversion Hm1|].
    apply Forall2_cons_iff in Hm1. destruct Hm1 as [[[Hl1 _] _] Hrest].
    exists l1, rest. split; [reflexivity|]. split; [exact Hl1|].
    apply Forall2_length in Hrest.
    match type of Hrest with
    | _ = List.length ?l =>
        assert (Hl : len rest = len l) by (unfold len; rewrite Hrest; reflexivity)
    end.
    rewrite Hl, len_cons, len_app, len_bits_code.
    match goal with |- context [len (frames_code ?a ?b ?c ?d)] =>
      pose proof (len_nonneg (frames_code a b c d)) end.
    lia. }
  destruct Hshape as (l1 & rest & -> & Hl1 & Hlen).
  unfold resume in Hrun. cbn [app] in Hrun.
  rewrite (decode_start _ FORMAT_SONY _T_SONY).
  - exact Hrun.
  - rewrite !len_cons. lia.
  - unfold leader.
    rewrite !(cl_at_within _ _ _ _ (getitem_0 _ _)) by in_targets.
    rewrite !(cl_at_within _ _ _ _ (getitem_1 _ _ _)) by in_targets.
    near_facts; decide_tests. cbn [and_ bind].
    match goal with |- context [within ?a ?b] => destruct (within a b) end; reflexivity.
Qed.



(** ** Capture and decode together *)

Lemma quantise_bounds (n : Z) :
  (n < 1000 -> n - 5 <= quantise n <= n + 5) /\
  (1000 <= n < 2000 -> n - 25 <= quantise n <= n + 25) /\
  (2000 <= n -> n - 99 <= quantise n <= n + 100).
Proof.
  unfold quantise.
  change (10 / 2) with 5. change (50 / 2) with 25. change (200 / 2) with 100.
  pose proof (Z.div_mod (n + 5) 10 ltac:(lia)).
  pose proof (Z.mod_pos_bound (n + 5) 10 ltac:(lia)).
  pose proof (Z.div_mod (n + 25) 50 ltac:(lia)).
  pose proof (Z.mod_pos_bound (n + 25) 50 ltac:(lia)).
  pose proof (Z.div_mod (n + 100) 200 ltac:(lia)).
  pose proof (Z.mod_pos_bound (n + 100) 200 ltac:(lia)).
  destruct (Z.ltb_spec n 1000); [|destruct (Z.ltb_spec n 2000)]; lia.
Qed.

Lemma quantise_jitter (n : Z) : steady n -> jitter (quantise n) n.
Proof.
  intros [Hn Hgap].
  destruct (quantise_bounds n) as (Hs & Hm & Hl).
  split.
  - unfold near, within. apply andb_true_iff.
    split; apply Z.ltb_lt;
      destruct (Z.lt_ge_cases n 1000); [lia | | lia |];
      destruct (Z.lt_ge_cases n 2000); lia.
  - intros H5. specialize (Hgap H5). lia.
Qed.

Lemma quantise_sony_jitter (n : Z) :
  steady n -> sony_jitter (quantise n) n.
Proof.
  intros Hn. split; [apply quantise_jitter, Hn|].
  intros ->. vm_compute. discriminate.
Qed.

Lemma steady_bits (t k : Z) (n : nat) :
  steady t -> steady (t * k) ->
  forall d, Forall steady (bits_code t k d n).
Proof.
  intros Ht Htk. induction n as [|n IH]; intros d; [constructor|].
  cbn [bits_code]. constructor; [exact Ht|]. constructor; [|apply IH].
  unfold bit_space. destruct (negb _); assumption.
Qed.

Lemma steady_gap (ir_format : string) (t u : Z) :
  5000 < wait_space ir_format t u -> steady (wait_space ir_format t u).
Proof.
  unfold wait_space, steady, _T_WAIT.
  destruct (ir_format =? FORMAT_AEHA)%string; [lia|].
  destruct (ir_format =? FORMAT_NEC)%string;
    match goal with
    | |- 5000 < ?q * 100 -> _ => generalize q; intros q' Hq; lia
    end.
Qed.

Lemma steady_frames (ir_format : string) (fs : list (list Z)) :
  supported ir_format ->
  let t := unit_of ir_format in
  gaps_long ir_format t fs ->
  forall prev,
    match prev with
    | Some u => 5000 < wait_space ir_format t u
    | None => True
    end ->
    Forall steady (frames_code ir_format t prev fs).
Proof.
  intros Hfmt t. subst t.
  assert (Hlead : Forall steady (leader_code ir_format (unit_of ir_format))).
  { destruct Hfmt as [-> | [-> | ->]]; repeat constructor; vm_compute;
      intros; try discriminate. }
  assert (Hstop : Forall steady (stop_code ir_format (unit_of ir_format))).
  { destruct Hfmt as [-> | [-> | ->]]; repeat constructor; vm_compute;
      intros; try discriminate. }
  assert (Hdata : forall f, Forall steady (data_code ir_format (unit_of ir_format) f)).
  { intros f. unfold data_code.
    destruct Hfmt as [-> | [-> | ->]]; eval_fmt;
      try (apply Forall_flat_map, Forall_forall; intros b _);
      apply steady_bits; split; vm_compute; intros; discriminate. }
  induction fs as [|f fs IH]; intros Hgaps prev Hprev; [constructor|].
  destruct Hgaps as [Hgap Hgaps].
  cbn [frames_code].
  repeat (apply Forall_app; split); try auto.
  - destruct prev as [u|]; [|constructor].
    constructor; [apply steady_gap, Hprev | constructor].
  - destruct fs as [|g fs]; [constructor|].
    apply IH; [exact Hgaps|]. apply Hgap. discriminate.
Qed.

Lemma quantise_all (R : Z -> Z -> Prop) (l : list Z) :
  (forall n, steady n -> R (quantise n) n) ->
  Forall steady l -> Forall2 R (map quantise l) l.
Proof.
  intros HR. induction 1 as [|n l Hn _ IH]; cbn [map]; constructor; auto.
Qed.

Lemma sony_gaps_long (fs : list (list Z)) : gaps_long FORMAT_SONY _T_SONY fs.
Proof.
  induction fs as [|f fs IH]; [exact I|].
  split; [intros _; apply sony_gap_long | exact IH].
Qed.

(** X20: the rounding that [record] applies to what it measures does not
    change what [decode] reads from a nominal code: for AEHA, NEC and SONY
    and the frames of the round trip, the code of [encode] with every
    length rounded as in a capture -- to 10 below 1000, to 50 below 2000, to
    200 above -- decodes to the format and the frames. *)
Theorem decode_reads_rounded_code (ir_format : string) (fs : list (list Z)) :
  supported ir_format ->
  valid_frames ir_format fs ->
  exists nominal,
    encode ir_format fs = Ok nominal /\
    decode (map quantise nominal) = Ok (Tuple ir_format fs).
Proof.
  intros Hfmt (Hne & Hshape & Hfit).
  destruct fs as [|f fs]; [contradiction|].
  exists (frames_code ir_format (unit_of ir_format) None (f :: fs)).
  destruct Hfmt as [-> | [-> | ->]]; revert Hshape; eval_fmt; intros Hshape.
  - split; [apply encode_shape; [left; reflexivity | discriminate]|].
    assert (Hgaps : gaps_long FORMAT_AEHA _T_AEHA (f :: fs)) by apply aeha_gaps_long.
    apply (decode_jitter_frames FORMAT_AEHA _T_AEHA f fs);
      [left; split; reflexivity | | | exact Hgaps |].
    + inversion Hshape as [|? ? [H _] _]; exact H.
    + eapply Forall_impl; [|exact Hshape]. intros g [_ Hg]. exact Hg.
    + apply quantise_all; [apply quantise_jitter|].
      apply (steady_frames FORMAT_AEHA (f :: fs) ltac:(left; reflexivity) Hgaps None I).
  - split; [apply encode_shape; [right; left; reflexivity | discriminate]|].
    assert (Hgaps : gaps_long FORMAT_NEC _T_NEC (f :: fs))
      by (apply nec_gaps_long, Hfit; reflexivity).
    apply (decode_jitter_frames FORMAT_NEC _T_NEC f fs);
      [right; split; reflexivity | | | exact Hgaps |].
    + inversion Hshape as [|? ? [H _] _]; exact H.
    + eapply Forall_impl; [|exact Hshape]. intros g [_ Hg]. exact Hg.
    + apply quantise_all; [apply quantise_jitter|].
      apply (steady_frames FORMAT_NEC (f :: fs) ltac:(right; left; reflexivity) Hgaps None I).
  - split; [apply encode_shape; [right; right; reflexivity | apply sony_frames_have_two, Hshape]|].
    apply (decode_jitter_sony f fs); [exact Hshape|].
    apply quantise_all; [apply quantise_sony_jitter|].
    apply (steady_frames FORMAT_SONY (f :: fs) ltac:(right; right; reflexivity)
             (sony_gaps_long _) None I).
Qed.

Lemma decode_reads_rounded_code_witness :
  exists nominal,
    encode FORMAT_AEHA [[0x12]; [0x34]] = Ok nominal /\
    decode (map quantise nominal) = Ok (Tuple FORMAT_AEHA [[0x12]; [0x34]]).
Proof.
  apply (decode_reads_rounded_code FORMAT_AEHA [[0x12]; [0x34]]).
  - left. reflexivity.
  - split; [discriminate|]. split.
    + cbn. repeat constructor; try discriminate; lia.
    + intros E. discriminate E.
Defined.

(** ** The standalone script *)

Lemma for_loop_ext {I St R : Type} (body1 body2 : I -> St -> pyres (ctl St R))
      (after : St -> pyres R) (idx : list I) :
  Forall (fun i => forall s, body1 i s = body2 i s) idx ->
  forall s, for_loop body1 after idx s = for_loop body2 after idx s.
Proof.
  induction 1 as [|i idx Hi _ IH]; intros s; [reflexivity|].
  cbn [for_loop]. rewrite Hi.
  destruct (body2 i s) as [[s' | r] | e]; cbn [bind]; [apply IH | reflexivity | reflexivity].
Qed.

Lemma standalone_frame (ir_format : string) (t : Z) (f : list Z) (s : enc_state) :
  f <> [] ->
  Standalone.encode_frame ir_format t f s = encode_frame ir_format t f s.
Proof.
  intros Hf. unfold Standalone.encode_frame.
  destruct f as [|b f]; [contradiction|].
  rewrite len_cons. pose proof (len_nonneg f).
  destruct (Z.eqb_spec (1 + len f) 0); [lia | reflexivity].
Qed.

Lemma standalone_loop_empty (ir_format : string) (fs : list (list Z)) :
  ir_format = FORMAT_AEHA \/ ir_format = FORMAT_NEC ->
  In [] fs ->
  forall s,
    for_loop (Standalone.encode_frame ir_format (unit_of ir_format))
             (fun s => Ok (e_code s)) fs s = Ok [].
Proof.
  intros Hpair.
  assert (Hfmt : supported ir_format) by (unfold supported; tauto).
  assert (Hns : ir_format <> FORMAT_SONY) by (destruct Hpair as [-> | ->]; discriminate).
  induction fs as [|f fs IH]; intros Hin s; [contradiction|].
  cbn [for_loop].
  destruct f as [|b f].
  - reflexivity.
  - rewrite standalone_frame by discriminate.
    rewrite encode_frame_shape by (try exact Hfmt; intros E; contradiction).
    cbn [bind]. apply IH.
    destruct Hin as [E | Hin]; [discriminate | exact Hin].
Qed.

(** X21: [encode] of the standalone script [cgir.py] returns what
    [encode] of the package returns -- the same code, or the same
    [IndexError] -- for AEHA, NEC and SONY frames none of which is empty.
    It differs on the rest: for any other format it returns [[]] where the
    package raises [ValueError], and for AEHA or NEC frames one of which is
    empty it returns [[]]. *)
Theorem standalone_encode_agrees_on_full_frames
        (ir_format : string) (fs : list (list Z)) :
  (supported ir_format ->
   Forall (fun f => f <> []) fs ->
   Standalone.encode ir_format fs = encode ir_format fs) /\
  (~ supported ir_format ->
   Standalone.encode ir_format fs = Ok [] /\
   encode ir_format fs = Raise ValueError) /\
  (ir_format = FORMAT_AEHA \/ ir_format = FORMAT_NEC ->
   In [] fs ->
   Standalone.encode ir_format fs = Ok []).
Proof.
  split; [|split].
  - intros Hfmt Hfull.
    assert (Hloop : forall t s,
               for_loop (Standalone.encode_frame ir_format t)
                        (fun s => Ok (e_code s)) fs s =
               for_loop (encode_frame ir_format t) (fun s => Ok (e_code s)) fs s).
    { intros t s. apply for_loop_ext.
      eapply Forall_impl; [|exact Hfull].
      intros f Hf s'. apply standalone_frame, Hf. }
    unfold Standalone.encode, encode.
    destruct Hfmt as [-> | [-> | ->]]; eval_fmt; cbn [bind]; apply Hloop.
  - intros Hno. destruct (unsupported_format _ Hno) as (E1 & E2 & E3).
    unfold Standalone.encode, encode. rewrite E1, E2, E3. split; reflexivity.
  - intros Hpair Hin.
    pose proof (standalone_loop_empty ir_format fs Hpair Hin
                  (mk_enc_state [] 0 true)) as Hloop.
    unfold Standalone.encode.
    destruct Hpair as [-> | ->]; eval_fmt; exact Hloop.
Qed.

Lemma standalone_encode_agrees_on_full_frames_witness :
  Standalone.encode FORMAT_SONY [[1; 0]; [5]] = encode FORMAT_SONY [[1; 0]; [5]] /\
  (Standalone.encode "RC5" [[1]] = Ok [] /\ encode "RC5" [[1]] = Raise ValueError) /\
  Standalone.encode FORMAT_NEC [[1]; []] = Ok [].
Proof.
  split; [|split].
  - apply (proj1 (standalone_encode_agrees_on_full_frames FORMAT_SONY [[1; 0]; [5]])).
    + right. right. reflexivity.
    + repeat constructor; discriminate.
  - apply (proj1 (proj2 (standalone_encode_agrees_on_full_frames "RC5" [[1]]))).
    intros [E | [E | E]]; discriminate E.
  - apply (proj2 (proj2 (standalone_encode_agrees_on_full_frames FORMAT_NEC [[1]; []]))).
    + right. reflexivity.
    + right. left. reflexivity.
Defined.
